(** * asc-item-manager: the inventory mutation engine

    A shallow embedding of [src/server/itemArrayManager.ts] (together with the
    catalogue lookup of [src/server/itemManager.ts] and the types of
    [src/shared/types.ts]) and the properties of it that the specification
    states; then the catalogue of [src/server/itemManager.ts] and the
    managers of [src/server/storageItemManager.ts] and
    [src/server/vehicleItemManager.ts] that call the engine, with further
    properties of the code.

    Conventions of the embedding:
    - a TypeScript [number] that holds a count, a weight or a grid size is a
      [Z]; an optional field is an [option];
    - an [Item[]] is a [list Item]; [items[i]] is [items !! i], the assignment
      [items[i] = x] is [<[i:=x]> items], [items.splice(i, 1)] is
      [delete i items] and [items.push(x)] is [items ++ [x]];
    - [items.findIndex(p)] is [list_find p items], which gives the index
      together with the element found, [None] standing for the index [-1];
    - an operation that returns [Item[] | undefined] and records a message
      with [setErrorMessage] returns a [result]: [Done items], or
      [Undefined msg] where [msg] is the value of [errorMessage] when the call
      returns (every operation starts by resetting it to the empty string);
    - the engine is modelled twice: by value (module [Value]), and over an
      explicit object store (module [Store]) where a property is about
      aliasing and in-place mutation. *)

From stdpp Require Import base numbers strings list gmap option.

Open Scope Z_scope.

(** ** Data model ([src/shared/types.ts]) *)

(** Free-form auxiliary data, [{ [key: string]: any }]. *)
#[local] Unset Elimination Schemes.
Inductive JSON : Type :=
  | JNull
  | JBool (b : bool)
  | JNum (n : Z)
  | JStr (s : string)
  | JArr (elems : list JSON)
  | JObj (fields : list (string * JSON)).
#[local] Set Elimination Schemes.

Record Position := { pos_x : Z; pos_y : Z }.

Record Rules := {
  noTrading : option bool;
  noStorage : option bool;
  noDropping : option bool
}.

(** The records are written once for the two views of the engine: a field
    that holds a nested JavaScript object ([data], [position], [rules]) has
    the type of the object's content when the engine is read by value
    ([D := JSON], [P := Position], [R := Rules]) and the type of a reference
    when it is read over the object store. *)
Set Implicit Arguments.
Set Maximal Implicit Insertion.

Record BaseItemOf (P R : Type) := {
  id : string;
  name : string;
  desc : string;
  width : Z;
  height : Z;
  position : option P;
  rotation : Z;
  maxStack : Z;
  weight : Z;
  icon : string;
  decay : option Z;
  durability : option Z;
  useEventName : option string;
  rules : option R
}.

(** [Item = { uid; quantity; data? } & BaseItem]. *)
Record ItemOf (D P R : Type) := {
  uid : string;
  quantity : Z;
  data : option D;
  base :> BaseItemOf P R
}.

Record Cells := { cells_width : Z; cells_height : Z }.

Record AddOptionsOf (D : Type) := {
    opt_name : option string;
    opt_maxWeight : option Z;
    opt_maxCells : option Cells;
    opt_data : option D
  }.

(** [Partial<Omit<Item, '_id'>>]: the patch of [update]; [None] is an
    absent key. *)
Record PatchOf (D P R : Type) := {
    p_uid : option string;
    p_quantity : option Z;
    p_data : option D;
    p_id : option string;
    p_name : option string;
    p_desc : option string;
    p_width : option Z;
    p_height : option Z;
    p_position : option P;
    p_rotation : option Z;
    p_maxStack : option Z;
    p_weight : option Z;
    p_icon : option string;
    p_decay : option Z;
    p_durability : option Z;
    p_useEventName : option string;
    p_rules : option R
  }.

Unset Maximal Implicit Insertion.
Unset Implicit Arguments.

(** *** Field updates *)

Section Records.
Context {D P R : Type}.
Implicit Types (it : ItemOf D P R) (b : BaseItemOf P R).

Definition set_quantity (q : Z) it : ItemOf D P R :=
  {| uid := uid it; quantity := q; data := data it; base := base it |}.

Definition set_uid (u : string) it : ItemOf D P R :=
  {| uid := u; quantity := quantity it; data := data it; base := base it |}.

Definition set_data (d : option D) it : ItemOf D P R :=
  {| uid := uid it; quantity := quantity it; data := d; base := base it |}.

Definition base_set_decay (d : option Z) b : BaseItemOf P R :=
  {| id := id b; name := name b; desc := desc b; width := width b;
     height := height b; position := position b; rotation := rotation b;
     maxStack := maxStack b; weight := weight b; icon := icon b; decay := d;
     durability := durability b; useEventName := useEventName b;
     rules := rules b |}.

Definition set_decay (d : option Z) it : ItemOf D P R :=
  {| uid := uid it; quantity := quantity it; data := data it;
     base := base_set_decay d (base it) |}.

Definition set_maxWeight (w : option Z) (o : AddOptionsOf D) : AddOptionsOf D :=
  {| opt_name := opt_name o; opt_maxWeight := w;
     opt_maxCells := opt_maxCells o; opt_data := opt_data o |}.

(** A key of the patch that is present overwrites the field. *)
Definition patched {A} (new : option A) (old : A) : A := default old new.

Definition patched_opt {A} (new : option A) (old : option A) : option A :=
  match new with Some v => Some v | None => old end.

(** [Object.assign(item, data)]. *)
Definition Object_assign it (p : PatchOf D P R) : ItemOf D P R :=
  {| uid := patched (p_uid p) (uid it);
     quantity := patched (p_quantity p) (quantity it);
     data := patched_opt (p_data p) (data it);
     base :=
       {| id := patched (p_id p) (id it);
          name := patched (p_name p) (name it);
          desc := patched (p_desc p) (desc it);
          width := patched (p_width p) (width it);
          height := patched (p_height p) (height it);
          position := patched_opt (p_position p) (position it);
          rotation := patched (p_rotation p) (rotation it);
          maxStack := patched (p_maxStack p) (maxStack it);
          weight := patched (p_weight p) (weight it);
          icon := patched (p_icon p) (icon it);
          decay := patched_opt (p_decay p) (decay it);
          durability := patched_opt (p_durability p) (durability it);
          useEventName := patched_opt (p_useEventName p) (useEventName it);
          rules := patched_opt (p_rules p) (rules it) |} |}.

(** [{ ...baseItem, quantity, uid }]: a catalogue entry has no [data]. *)
Definition spreadBase (baseItem : BaseItemOf P R) (q : Z) (u : string) : ItemOf D P R :=
  {| uid := u; quantity := q; data := None; base := baseItem |}.

(** What the capacity check reads of a collection. *)
Definition totalWeight (items : list (ItemOf D P R)) : Z :=
  foldl (λ sum (item : ItemOf D P R), sum + quantity item * weight item) 0 items.

Definition totalCellsOccupied (items : list (ItemOf D P R)) : Z :=
  foldl (λ sum (item : ItemOf D P R), sum + width item * height item) 0 items.

End Records.

(** The same stack with its nested objects held differently. *)
Definition retargetBase {P R P' R'} (p : option P') (r : option R')
    (b : BaseItemOf P R) : BaseItemOf P' R' :=
  {| id := id b; name := name b; desc := desc b; width := width b;
     height := height b; position := p; rotation := rotation b;
     maxStack := maxStack b; weight := weight b; icon := icon b;
     decay := decay b; durability := durability b;
     useEventName := useEventName b; rules := r |}.

Definition retarget {D P R D' P' R'} (d : option D') (p : option P')
    (r : option R') (it : ItemOf D P R) : ItemOf D' P' R' :=
  {| uid := uid it; quantity := quantity it; data := d;
     base := retargetBase p r (base it) |}.

(** The engine read by value. *)
Abbreviation BaseItem := (BaseItemOf Position Rules).
Abbreviation Item := (ItemOf JSON Position Rules).
Abbreviation AddOptions := (AddOptionsOf JSON).
Abbreviation Patch := (PatchOf JSON Position Rules).

(** The field [quantity] of a stack, under a name that stays available where
    the source calls a parameter [quantity]. *)
Abbreviation stackQuantity := quantity (only parsing).

(** The default [options = {}]. *)
Definition noOptions {D} : AddOptionsOf D :=
  {| opt_name := None; opt_maxWeight := None; opt_maxCells := None; opt_data := None |}.

(** The empty patch [{}]. *)
Definition noPatch {D P R} : PatchOf D P R :=
  {| p_uid := None; p_quantity := None; p_data := None; p_id := None;
     p_name := None; p_desc := None; p_width := None; p_height := None;
     p_position := None; p_rotation := None; p_maxStack := None;
     p_weight := None; p_icon := None; p_decay := None; p_durability := None;
     p_useEventName := None; p_rules := None |}.

(** [ItemManagerConfig] lives in [shared/config.ts], which is not part of the
    sources at hand; the engine reads these four settings of it. *)
Record Config := {
  slots_enabled : bool;
  slots_maxCells : Cells;
  weight_enabled : bool;
  weight_maxWeight : Z
}.

(** What an engine call hands back: the returned collection, or [undefined]
    together with the error message left behind. *)
Inductive result (A : Type) : Type :=
  | Done (a : A)
  | Undefined (errorMessage : string).
Arguments Done {A} a.
Arguments Undefined {A} errorMessage.

(** ** Array helpers *)

Definition uids (items : list Item) : list string := uid <$> items.

(** Total quantity held of one item type (the sum [has] computes). *)
Definition totalQuantity (i : string) (items : list Item) : Z :=
  foldl (λ sum (item : Item),
           if bool_decide (id item = i) then sum + quantity item else sum)
        0 items.

(** ** The messages left by [setErrorMessage] *)

Module Messages.
Definition none : string := "".
Definition noBaseItem : string := "Base item does not exist".
Definition getByUid : string := "Unable to get item by uid, item does not exist".
Definition removeNotFound : string := "Could not find item to remove".
Definition removeQuantity : string :=
  "Quantity provided does not match available item quantity".
Definition notEnough : string := "Not enough quantity of item".
Definition splitNotFound : string :=
  "Could not find given item in inventory during split".
Definition cannotSplit : string := "Item cannot be split".
Definition stackNotFound : string := "Could not find both items in inventory".
Definition notSame : string :=
  "Both items were not the same, and cannot be stacked".
Definition cannotStack : string := "Item cannot be stacked".
Definition alreadyMax : string := "Item is already at max stack".
End Messages.

(** ** Capacity and weight policy *)

Definition isWeightExceeded {D P R} (items : list (ItemOf D P R)) (maxWeight : Z)
    : bool :=
  bool_decide (maxWeight < totalWeight items).

(** [options.maxWeight || default]: a missing limit and a limit of [0] are
    both falsy. *)
Definition orDefaultWeight (w : option Z) (dflt : Z) : Z :=
  match w with
  | Some v => if bool_decide (v = 0) then dflt else v
  | None => dflt
  end.

(** [options.maxCells || default]: an object is truthy. *)
Definition orDefaultCells (c : option Cells) (dflt : Cells) : Cells :=
  match c with
  | Some v => v
  | None => dflt
  end.

Definition verifyStackAndWeight {D P R} (ItemManagerConfig : Config)
    (items : list (ItemOf D P R)) (options : AddOptionsOf D) : bool :=
  let maxCells := orDefaultCells (opt_maxCells options) (slots_maxCells ItemManagerConfig) in
  let maxWeight := orDefaultWeight (opt_maxWeight options) (weight_maxWeight ItemManagerConfig) in
  let totalAvailableCells := cells_width maxCells * cells_height maxCells in
  if (slots_enabled ItemManagerConfig
        && bool_decide (totalAvailableCells < totalCellsOccupied items))
     || bool_decide (totalAvailableCells ≤ 0)
  then false
  else if weight_enabled ItemManagerConfig && isWeightExceeded items maxWeight
  then false
  else true.

(** ** The engine, by value ([useItemArrayManager]) *)

Module Value.

(** [cloneItems] copies the array and every stack in it.  By value a copy is
    the collection itself; what the copy means for object identity is the
    subject of module [Store]. *)
Definition cloneItems (items : list Item) : list Item := items.

Section Engine.

(** The configuration in force. *)
Variable ItemManagerConfig : Config.

(** The catalogue cache of [itemManager.ts]. *)
Variable databaseItems : gmap string BaseItem.

(** [Utility.uid.generate] belongs to the framework the plugin runs in:
    [generate k] is what its [k]-th call within the operation at hand
    returns. *)
Variable generate : nat → string.

(** [getBaseItem]: a copy of the catalogue entry, [undefined] if there is
    none. *)
Definition getBaseItem (i : string) : option BaseItem := databaseItems !! i.

(** The [while (quantity > 0)] loop of [addNewItemStacks].  It need not
    terminate (a catalogue entry with [maxStack <= 0] never makes
    progress), so it runs on fuel: [None] means the loop is still running
    when the fuel is spent.  [k] counts the identifiers drawn so far. *)
Fixpoint addNewItemStacks_loop (fuel : nat) (k : nat) (items : list Item)
    (baseItem : BaseItem) (quantity : Z) (options : AddOptions)
    : option (list Item) :=
  if bool_decide (0 < quantity) then
    match fuel with
    | O => None
    | S fuel' =>
        let uid := generate k in
        let actualQuantity := Z.min quantity (maxStack baseItem) in
        let newItem := spreadBase baseItem actualQuantity uid in
        let newItem :=
          match opt_data options with
          | Some d => set_data (Some d) newItem
          | None => newItem
          end in
        addNewItemStacks_loop fuel' (S k) (items ++ [newItem]) baseItem
          (quantity - actualQuantity) options
    end
  else Some items.

Definition addNewItemStacks (fuel : nat) (items : list Item)
    (baseItem : BaseItem) (quantity : Z) (options : AddOptions)
    : option (result (list Item)) :=
  items' ← addNewItemStacks_loop fuel 0 items baseItem quantity options;
  Some (if verifyStackAndWeight ItemManagerConfig items' options
        then Done items' else Undefined Messages.none).

(** The [for] loop of [handleItemStacking], from index [i] on; [n] bounds
    the iterations left ([items.length - i]).  The result is the array and
    the quantity still to place when the loop is left. *)
Fixpoint handleItemStacking_loop (n : nat) (i : nat) (items : list Item)
    (baseItem : BaseItem) (quantity : Z) : list Item * Z :=
  match n with
  | O => (items, quantity)
  | S n' =>
      match (items !! i : option Item) with
      | None => (items, quantity)
      | Some it =>
          if bool_decide (id it ≠ id baseItem)
             || bool_decide (stackQuantity it = maxStack baseItem)
          then handleItemStacking_loop n' (S i) items baseItem quantity
          else if bool_decide (quantity ≤ 0)
          then (items, quantity)
          else
            let availableSpace := maxStack baseItem - stackQuantity it in
            let quantityToAdd := Z.min availableSpace quantity in
            handleItemStacking_loop n' (S i)
              (<[i := set_quantity (stackQuantity it + quantityToAdd) it]> items)
              baseItem (quantity - quantityToAdd)
      end
  end.

Definition handleItemStacking (fuel : nat) (items : list Item)
    (baseItem : BaseItem) (quantity : Z) (options : AddOptions)
    : option (result (list Item)) :=
  if bool_decide (maxStack baseItem ≤ 1)
  then addNewItemStacks fuel items baseItem quantity options
  else
    let '(items, quantity) :=
      handleItemStacking_loop (length items) 0 items baseItem quantity in
    if bool_decide (0 < quantity)
    then addNewItemStacks fuel items baseItem quantity options
    else Some (Done items).

Definition add (fuel : nat) (i : string) (quantity : Z) (items : list Item)
    (options : AddOptions) : option (result (list Item)) :=
  match getBaseItem i with
  | None => Some (Undefined Messages.noBaseItem)
  | Some baseItem =>
      let items := cloneItems items in
      if bool_decide (maxStack baseItem ≤ 1)
      then addNewItemStacks fuel items baseItem quantity options
      else handleItemStacking fuel items baseItem quantity options
  end.

Definition addSpecificItem (item : Item) (items : list Item)
    (options : AddOptions) : result (list Item) :=
  let items := cloneItems items in
  let items := items ++ [item] in
  if verifyStackAndWeight ItemManagerConfig items options
  then Done items else Undefined Messages.none.

Definition getByUid (u : string) (items : list Item) : result Item :=
  match list_find (λ x : Item, uid x = u) items with
  | Some (_, item) => Done item
  | None => Undefined Messages.getByUid
  end.

Definition getData (u : string) (items : list Item) : result (option JSON) :=
  match getByUid u items with
  | Done item => Done (data item)
  | Undefined msg => Undefined msg
  end.

(** [remove] reads the found stack before it clones the collection. *)
Definition remove (u : string) (quantity : Z) (items : list Item)
    : result (list Item) :=
  match list_find (λ item : Item, uid item = u) items with
  | None => Undefined Messages.none
  | Some (itemIndex, it) =>
      if bool_decide (stackQuantity it < quantity)
      then Undefined Messages.none
      else
        let items := cloneItems items in
        if bool_decide (stackQuantity it ≤ quantity)
        then Done (delete itemIndex items)
        else Done (<[itemIndex := set_quantity (stackQuantity it - quantity) it]> items)
  end.

Definition removeAt (u : string) (items : list Item)
    : result (list Item * list Item) :=
  let items := cloneItems items in
  match list_find (λ x : Item, uid x = u) items with
  | None => Undefined Messages.removeNotFound
  | Some (index, it) => Done (delete index items, [it])
  end.

Definition removeQuantityFrom (u : string) (quantity : Z) (items : list Item)
    : result (list Item) :=
  let items := cloneItems items in
  match list_find (λ x : Item, uid x = u) items with
  | None => Undefined Messages.removeNotFound
  | Some (index, it) =>
      if bool_decide (stackQuantity it < quantity)
      then Undefined Messages.removeQuantity
      else if bool_decide (stackQuantity it = quantity)
      then Done (delete index items)
      else Done (<[index := set_quantity (stackQuantity it - quantity) it]> items)
  end.

(** [has] returns the boolean and leaves a message when it is [false]. *)
Definition has (i : string) (quantity : Z) (items : list Item) : bool * string :=
  let totalQuantityFound := totalQuantity i items in
  if bool_decide (quantity ≤ totalQuantityFound)
  then (true, Messages.none)
  else (false, Messages.notEnough).

Definition split (u : string) (amountToSplit : Z) (items : list Item)
    (options : AddOptions) : result (list Item) :=
  let items := cloneItems items in
  match list_find (λ x : Item, uid x = u) items with
  | None => Undefined Messages.splitNotFound
  | Some (index, it) =>
      match getBaseItem (id it) with
      | None => Undefined Messages.noBaseItem
      | Some _ =>
          if bool_decide (quantity it < amountToSplit)
             || bool_decide (quantity it = amountToSplit)
          then Undefined Messages.cannotSplit
          else
            let it := set_quantity (quantity it - amountToSplit) it in
            let items := <[index := it]> items in
            let clonedItem := it in
            let newItem :=
              set_uid (generate 0) (set_quantity amountToSplit clonedItem) in
            let items := items ++ [newItem] in
            if verifyStackAndWeight ItemManagerConfig items options
            then Done items else Undefined Messages.none
      end
  end.

(** [items[stackIndex]] is read again after the target was written: the
    two indices are the same when both identifiers name one stack.  Both
    indices were found in the array, so the read cannot miss. *)
Definition stack (uidToStackOn uidToStack : string) (items : list Item)
    : result (list Item) :=
  let items := cloneItems items in
  match list_find (λ x : Item, uid x = uidToStackOn) items,
        list_find (λ x : Item, uid x = uidToStack) items with
  | Some (stackableIndex, target), Some (stackIndex, source) =>
      if bool_decide (id target ≠ id source)
      then Undefined Messages.notSame
      else
        match getBaseItem (id source) with
        | None => Undefined Messages.cannotStack
        | Some baseItem =>
            if bool_decide (maxStack baseItem ≤ 1)
            then Undefined Messages.cannotStack
            else
              let diffToMax := maxStack target - quantity target in
              if bool_decide (diffToMax ≤ 0)
              then Undefined Messages.alreadyMax
              else
                let items :=
                  <[stackableIndex := set_quantity (quantity target + diffToMax) target]>
                    items in
                match (items !! stackIndex : option Item) with
                | Some source =>
                    if bool_decide (diffToMax < quantity source)
                    then Done (<[stackIndex := set_quantity (quantity source - diffToMax) source]> items)
                    else Done (delete stackIndex items)
                | None => Undefined Messages.none
                end
        end
  | _, _ => Undefined Messages.stackNotFound
  end.

Definition update (u : string) (data : Patch) (items : list Item)
    : result (list Item) :=
  let items := cloneItems items in
  match list_find (λ x : Item, uid x = u) items with
  | None => Undefined Messages.getByUid
  | Some (index, it) =>
      if match p_decay data with
         | Some d => bool_decide (d ≤ 0)
         | None => false
         end
      then Done (delete index items)
      else Done (<[index := Object_assign it data]> items)
  end.

(** The loop of [invokeDecay], with [n = i + 1] for the index [i] it is
    about to visit; it runs down to index [0].  [i] is always within the
    array. *)
Fixpoint invokeDecay_loop (n : nat) (items : list Item) : list Item :=
  match n with
  | O => items
  | S i =>
      match (items !! i : option Item) with
      | None => invokeDecay_loop i items
      | Some it =>
          match decay it with
          | None => invokeDecay_loop i items
          | Some d =>
              let it := set_decay (Some (d - 1)) it in
              let items := <[i := it]> items in
              if bool_decide (d - 1 ≤ 0)
              then invokeDecay_loop i (delete i items)
              else invokeDecay_loop i items
          end
      end
  end.

Definition invokeDecay (items : list Item) : list Item :=
  let items := cloneItems items in
  invokeDecay_loop (length items) items.

(** *** Calls

    A call of one of the operations that return a collection, with its
    parameters, so that a statement can range over all of them. *)
Inductive Op : Type :=
  | OpAdd (i : string) (quantity : Z) (options : AddOptions)
  | OpAddSpecificItem (item : Item) (options : AddOptions)
  | OpRemove (u : string) (quantity : Z)
  | OpRemoveAt (u : string)
  | OpRemoveQuantityFrom (u : string) (quantity : Z)
  | OpSplit (u : string) (amountToSplit : Z) (options : AddOptions)
  | OpStack (uidToStackOn uidToStack : string)
  | OpUpdate (u : string) (data : Patch)
  | OpInvokeDecay.

(** The collection a call returns ([removeAt] also returns the stack it
    took out).  [None]: [add] did not come back within [fuel] rounds of its
    loop. *)
Definition run (fuel : nat) (op : Op) (items : list Item)
    : option (result (list Item)) :=
  match op with
  | OpAdd i quantity options => add fuel i quantity items options
  | OpAddSpecificItem item options => Some (addSpecificItem item items options)
  | OpRemove u quantity => Some (remove u quantity items)
  | OpRemoveAt u =>
      Some (match removeAt u items with
            | Done (items, _) => Done items
            | Undefined msg => Undefined msg
            end)
  | OpRemoveQuantityFrom u quantity => Some (removeQuantityFrom u quantity items)
  | OpSplit u amountToSplit options => Some (split u amountToSplit items options)
  | OpStack uidToStackOn uidToStack => Some (stack uidToStackOn uidToStack items)
  | OpUpdate u data => Some (update u data items)
  | OpInvokeDecay => Some (Done (invokeDecay items))
  end.

End Engine.

End Value.

Import Value.

(** ** Sample data: the scenarios of the specification *)

Module Sample.

Definition water_bottle : BaseItem :=
  {| id := "water_bottle"; name := "Water Bottle"; desc := "A bottle of water";
     width := 1; height := 1; position := None; rotation := 0; maxStack := 5;
     weight := 1; icon := "icon-water.png"; decay := None; durability := None;
     useEventName := None; rules := None |}.

Definition catalogue : gmap string BaseItem :=
  {[ "water_bottle" := water_bottle ]}.

(** A stack of [q] water bottles with identifier [u]. *)
Definition bottles (u : string) (q : Z) : Item :=
  {| uid := u; quantity := q; data := None; base := water_bottle |}.

(** Both limits enforced; a 10 x 10 grid and 64 units of weight by default. *)
Definition config : Config :=
  {| slots_enabled := true; slots_maxCells := Build_Cells 10 10;
     weight_enabled := true; weight_maxWeight := 64 |}.

(** No limit enforced ("unlimited capacity"). *)
Definition unlimited : Config :=
  {| slots_enabled := false; slots_maxCells := Build_Cells 10 10;
     weight_enabled := false; weight_maxWeight := 64 |}.

(** A generator whose [k]-th identifier is ["uid-"] followed by [k] ticks. *)
Definition generate (k : nat) : string :=
  "uid-" +:+ String.concat "" (replicate k "'").

End Sample.

(** ** The engine over an object store

    JavaScript arrays and objects are references.  Here every array, every
    stack and every nested object of a stack ([data], [position], [rules])
    is an object at a location of a store; a stack holds its nested objects
    by reference and an array holds its stacks by reference.  An operation
    is a state transformer on the store; it is stuck ([None]) where the
    program would dereference something that is not there, and where the
    loop of [addNewItemStacks] outlives its fuel. *)

Module Store.

Abbreviation loc := positive.

Abbreviation BaseObj := (BaseItemOf loc loc).
Abbreviation ItemObj := (ItemOf loc loc loc).
Abbreviation OptionsObj := (AddOptionsOf loc).
Abbreviation PatchObj := (PatchOf loc loc loc).

Inductive object : Type :=
  | OArray (elems : list loc)
  | OItem (it : ItemObj)
  | OData (d : JSON)
  | OPosition (p : Position)
  | ORules (r : Rules).

Abbreviation store := (gmap loc object).

Definition M (A : Type) : Type := store → option (A * store).

Definition ret {A} (a : A) : M A := λ σ, Some (a, σ).

Definition bind {A B} (m : M A) (f : A → M B) : M B := λ σ,
  match m σ with
  | Some (a, σ') => f a σ'
  | None => None
  end.

Notation "'let*' x ':=' m 'in' k" := (bind m (λ x, k))
  (at level 10, x name, m at level 100, k at level 200, only parsing).

Definition stuck {A} : M A := λ _, None.

(** A new object, at a location the store does not use yet. *)
Definition alloc (o : object) : M loc := λ σ,
  let l := fresh (dom σ) in Some (l, <[l := o]> σ).

Definition readArray (a : loc) : M (list loc) := λ σ,
  match σ !! a with
  | Some (OArray ls) => Some (ls, σ)
  | _ => None
  end.

Definition writeArray (a : loc) (ls : list loc) : M unit := λ σ,
  Some ((), <[a := OArray ls]> σ).

Definition readItem (l : loc) : M ItemObj := λ σ,
  match σ !! l with
  | Some (OItem it) => Some (it, σ)
  | _ => None
  end.

Definition writeItem (l : loc) (it : ItemObj) : M unit := λ σ,
  Some ((), <[l := OItem it]> σ).

Definition readData (l : loc) : M JSON := λ σ,
  match σ !! l with
  | Some (OData d) => Some (d, σ)
  | _ => None
  end.

Definition readPosition (l : loc) : M Position := λ σ,
  match σ !! l with
  | Some (OPosition p) => Some (p, σ)
  | _ => None
  end.

Definition readRules (l : loc) : M Rules := λ σ,
  match σ !! l with
  | Some (ORules r) => Some (r, σ)
  | _ => None
  end.

(** [items[i]], about to be dereferenced. *)
Definition element (a : loc) (i : nat) : M loc :=
  let* ls := readArray a in
  match ls !! i with
  | Some l => ret l
  | None => stuck
  end.

(** [items.push(l)]. *)
Definition push (a : loc) (l : loc) : M unit :=
  let* ls := readArray a in
  writeArray a (ls ++ [l]).

(** [items.splice(i, 1)]: the removed elements are returned. *)
Definition splice (a : loc) (i : nat) : M (list loc) :=
  let* ls := readArray a in
  let* _ := writeArray a (delete i ls) in
  ret (option_list (ls !! i)).

Fixpoint readAll (ls : list loc) : M (list ItemObj) :=
  match ls with
  | [] => ret []
  | l :: ls =>
      let* it := readItem l in
      let* its := readAll ls in
      ret (it :: its)
  end.

(** The stacks of an array, as [findIndex] and [reduce] go through them. *)
Definition readItems (a : loc) : M (list ItemObj) :=
  let* ls := readArray a in
  readAll ls.

(** A copy of an optional nested object. *)
Definition cloneNested {A} (read : loc → M A) (mk : A → object)
    (r : option loc) : M (option loc) :=
  match r with
  | None => ret None
  | Some l =>
      let* v := read l in
      let* l' := alloc (mk v) in
      ret (Some l')
  end.

(** [Utility.clone.objectData] on a stack: a new stack with new nested
    objects of the same content. *)
Definition objectData (l : loc) : M loc :=
  let* it := readItem l in
  let* d := cloneNested readData OData (data it) in
  let* p := cloneNested readPosition OPosition (position it) in
  let* r := cloneNested readRules ORules (rules it) in
  alloc (OItem (retarget d p r it)).

Fixpoint cloneElements (ls : list loc) : M (list loc) :=
  match ls with
  | [] => ret []
  | l :: ls =>
      let* l' := objectData l in
      let* ls' := cloneElements ls in
      ret (l' :: ls')
  end.

(** [cloneItems]: [Utility.clone.arrayData], a new array of copies. *)
Definition cloneItems (items : loc) : M loc :=
  let* ls := readArray items in
  let* ls' := cloneElements ls in
  alloc (OArray ls').

(** A nested object built from a value. *)
Definition allocNested {A} (mk : A → object) (v : option A) : M (option loc) :=
  match v with
  | None => ret None
  | Some v =>
      let* l := alloc (mk v) in
      ret (Some l)
  end.

Section Engine.

Variable ItemManagerConfig : Config.
Variable databaseItems : gmap string BaseItem.
Variable generate : nat → string.

(** [getBaseItem] hands out a copy of the catalogue entry: its nested
    objects are new. *)
Definition getBaseItem (i : string) : M (option BaseObj) :=
  match databaseItems !! i with
  | None => ret None
  | Some b =>
      let* p := allocNested OPosition (position b) in
      let* r := allocNested ORules (rules b) in
      ret (Some (retargetBase p r b))
  end.

(** The check reads the stacks of the array; it writes nothing. *)
Definition verified (items : loc) (options : OptionsObj) : M (result loc) :=
  let* its := readItems items in
  ret (if verifyStackAndWeight ItemManagerConfig its options
        then Done items else Undefined Messages.none).

Fixpoint addNewItemStacks_loop (fuel : nat) (k : nat) (items : loc)
    (baseItem : BaseObj) (quantity : Z) (options : OptionsObj) : M unit :=
  if bool_decide (0 < quantity) then
    match fuel with
    | O => stuck
    | S fuel' =>
        let uid := generate k in
        let actualQuantity := Z.min quantity (maxStack baseItem) in
        let newItem := spreadBase baseItem actualQuantity uid in
        let newItem :=
          match opt_data options with
          | Some d => set_data (Some d) newItem
          | None => newItem
          end in
        let* l := alloc (OItem newItem) in
        let* _ := push items l in
        addNewItemStacks_loop fuel' (S k) items baseItem
          (quantity - actualQuantity) options
    end
  else ret ().

Definition addNewItemStacks (fuel : nat) (items : loc) (baseItem : BaseObj)
    (quantity : Z) (options : OptionsObj) : M (result loc) :=
  let* _ := addNewItemStacks_loop fuel 0 items baseItem quantity options in
  verified items options.

Fixpoint handleItemStacking_loop (n : nat) (i : nat) (items : loc)
    (baseItem : BaseObj) (quantity : Z) : M Z :=
  match n with
  | O => ret quantity
  | S n' =>
      let* ls := readArray items in
      match ls !! i with
      | None => ret quantity
      | Some l =>
          let* it := readItem l in
          if bool_decide (id it ≠ id baseItem)
             || bool_decide (stackQuantity it = maxStack baseItem)
          then handleItemStacking_loop n' (S i) items baseItem quantity
          else if bool_decide (quantity ≤ 0)
          then ret quantity
          else
            let availableSpace := maxStack baseItem - stackQuantity it in
            let quantityToAdd := Z.min availableSpace quantity in
            let* _ := writeItem l (set_quantity (stackQuantity it + quantityToAdd) it) in
            handleItemStacking_loop n' (S i) items baseItem
              (quantity - quantityToAdd)
      end
  end.

Definition handleItemStacking (fuel : nat) (items : loc) (baseItem : BaseObj)
    (quantity : Z) (options : OptionsObj) : M (result loc) :=
  if bool_decide (maxStack baseItem ≤ 1)
  then addNewItemStacks fuel items baseItem quantity options
  else
    let* ls := readArray items in
    let* quantity := handleItemStacking_loop (length ls) 0 items baseItem quantity in
    if bool_decide (0 < quantity)
    then addNewItemStacks fuel items baseItem quantity options
    else ret (Done items).

Definition add (fuel : nat) (i : string) (quantity : Z) (items : loc)
    (options : OptionsObj) : M (result loc) :=
  let* baseItem := getBaseItem i in
  match baseItem with
  | None => ret (Undefined Messages.noBaseItem)
  | Some baseItem =>
      let* items := cloneItems items in
      if bool_decide (maxStack baseItem ≤ 1)
      then addNewItemStacks fuel items baseItem quantity options
      else handleItemStacking fuel items baseItem quantity options
  end.

(** [{ ...item }] is a new stack object that holds the nested objects of
    [item]. *)
Definition addSpecificItem (item : loc) (items : loc) (options : OptionsObj)
    : M (result loc) :=
  let* items := cloneItems items in
  let* it := readItem item in
  let* l := alloc (OItem it) in
  let* _ := push items l in
  verified items options.

Definition remove (u : string) (quantity : Z) (items : loc) : M (result loc) :=
  let* its := readItems items in
  match list_find (λ item : ItemObj, uid item = u) its with
  | None => ret (Undefined Messages.none)
  | Some (itemIndex, found) =>
      if bool_decide (stackQuantity found < quantity)
      then ret (Undefined Messages.none)
      else
        let* items := cloneItems items in
        let* l := element items itemIndex in
        let* it := readItem l in
        if bool_decide (stackQuantity it ≤ quantity)
        then
          let* _ := splice items itemIndex in
          ret (Done items)
        else
          let* _ := writeItem l (set_quantity (stackQuantity it - quantity) it) in
          ret (Done items)
  end.

(** [removeAt] returns the collection and the array [splice] took out. *)
Definition removeAt (u : string) (items : loc) : M (result (loc * loc)) :=
  let* items := cloneItems items in
  let* its := readItems items in
  match list_find (λ x : ItemObj, uid x = u) its with
  | None => ret (Undefined Messages.removeNotFound)
  | Some (index, _) =>
      let* removed := splice items index in
      let* item := alloc (OArray removed) in
      ret (Done (items, item))
  end.

Definition removeQuantityFrom (u : string) (quantity : Z) (items : loc)
    : M (result loc) :=
  let* items := cloneItems items in
  let* its := readItems items in
  match list_find (λ x : ItemObj, uid x = u) its with
  | None => ret (Undefined Messages.removeNotFound)
  | Some (index, found) =>
      if bool_decide (stackQuantity found < quantity)
      then ret (Undefined Messages.removeQuantity)
      else if bool_decide (stackQuantity found = quantity)
      then
        let* _ := splice items index in
        ret (Done items)
      else
        let* l := element items index in
        let* it := readItem l in
        let* _ := writeItem l (set_quantity (stackQuantity it - quantity) it) in
        ret (Done items)
  end.

Definition split (u : string) (amountToSplit : Z) (items : loc)
    (options : OptionsObj) : M (result loc) :=
  let* items := cloneItems items in
  let* its := readItems items in
  match list_find (λ x : ItemObj, uid x = u) its with
  | None => ret (Undefined Messages.splitNotFound)
  | Some (index, found) =>
      let* baseItem := getBaseItem (id found) in
      match baseItem with
      | None => ret (Undefined Messages.noBaseItem)
      | Some _ =>
          if bool_decide (quantity found < amountToSplit)
             || bool_decide (quantity found = amountToSplit)
          then ret (Undefined Messages.cannotSplit)
          else
            let* l := element items index in
            let* it := readItem l in
            let* _ := writeItem l (set_quantity (quantity it - amountToSplit) it) in
            let* clonedItem := objectData l in
            let* cloned := readItem clonedItem in
            let* newItem :=
              alloc (OItem (set_uid (generate 0)
                              (set_quantity amountToSplit cloned))) in
            let* _ := push items newItem in
            verified items options
      end
  end.

Definition stack (uidToStackOn uidToStack : string) (items : loc)
    : M (result loc) :=
  let* items := cloneItems items in
  let* its := readItems items in
  match list_find (λ x : ItemObj, uid x = uidToStackOn) its,
        list_find (λ x : ItemObj, uid x = uidToStack) its with
  | Some (stackableIndex, target), Some (stackIndex, source) =>
      if bool_decide (id target ≠ id source)
      then ret (Undefined Messages.notSame)
      else
        let* baseItem := getBaseItem (id source) in
        match baseItem with
        | None => ret (Undefined Messages.cannotStack)
        | Some baseItem =>
            if bool_decide (maxStack baseItem ≤ 1)
            then ret (Undefined Messages.cannotStack)
            else
              let diffToMax := maxStack target - quantity target in
              if bool_decide (diffToMax ≤ 0)
              then ret (Undefined Messages.alreadyMax)
              else
                let* lt := element items stackableIndex in
                let* t := readItem lt in
                let* _ := writeItem lt (set_quantity (quantity t + diffToMax) t) in
                let* ls := element items stackIndex in
                let* s := readItem ls in
                if bool_decide (diffToMax < quantity s)
                then
                  let* _ := writeItem ls (set_quantity (quantity s - diffToMax) s) in
                  ret (Done items)
                else
                  let* _ := splice items stackIndex in
                  ret (Done items)
        end
  | _, _ => ret (Undefined Messages.stackNotFound)
  end.

(** [Object.assign] writes into the stack object that is in the array. *)
Definition update (u : string) (data : PatchObj) (items : loc)
    : M (result loc) :=
  let* items := cloneItems items in
  let* its := readItems items in
  match list_find (λ x : ItemObj, uid x = u) its with
  | None => ret (Undefined Messages.getByUid)
  | Some (index, _) =>
      if match p_decay data with
         | Some d => bool_decide (d ≤ 0)
         | None => false
         end
      then
        let* _ := splice items index in
        ret (Done items)
      else
        let* l := element items index in
        let* it := readItem l in
        let* _ := writeItem l (Object_assign it data) in
        ret (Done items)
  end.

Fixpoint invokeDecay_loop (n : nat) (items : loc) : M unit :=
  match n with
  | O => ret ()
  | S i =>
      let* l := element items i in
      let* it := readItem l in
      match decay it with
      | None => invokeDecay_loop i items
      | Some d =>
          let* _ := writeItem l (set_decay (Some (d - 1)) it) in
          if bool_decide (d - 1 ≤ 0)
          then
            let* _ := splice items i in
            invokeDecay_loop i items
          else invokeDecay_loop i items
      end
  end.

Definition invokeDecay (items : loc) : M loc :=
  let* items := cloneItems items in
  let* ls := readArray items in
  let* _ := invokeDecay_loop (length ls) items in
  ret items.

(** A call, with the objects it is handed by reference. *)
Inductive Op : Type :=
  | OpAdd (i : string) (quantity : Z) (options : OptionsObj)
  | OpAddSpecificItem (item : loc) (options : OptionsObj)
  | OpRemove (u : string) (quantity : Z)
  | OpRemoveAt (u : string)
  | OpRemoveQuantityFrom (u : string) (quantity : Z)
  | OpSplit (u : string) (amountToSplit : Z) (options : OptionsObj)
  | OpStack (uidToStackOn uidToStack : string)
  | OpUpdate (u : string) (data : PatchObj)
  | OpInvokeDecay.

Definition run (fuel : nat) (op : Op) (items : loc) : M (result loc) :=
  match op with
  | OpAdd i quantity options => add fuel i quantity items options
  | OpAddSpecificItem item options => addSpecificItem item items options
  | OpRemove u quantity => remove u quantity items
  | OpRemoveAt u =>
      let* r := removeAt u items in
      ret (match r with
            | Done (items, _) => Done items
            | Undefined msg => Undefined msg
            end)
  | OpRemoveQuantityFrom u quantity => removeQuantityFrom u quantity items
  | OpSplit u amountToSplit options => split u amountToSplit items options
  | OpStack uidToStackOn uidToStack => stack uidToStackOn uidToStack items
  | OpUpdate u data => update u data items
  | OpInvokeDecay =>
      let* items := invokeDecay items in
      ret (Done items)
  end.

End Engine.

(** *** What a collection reaches *)

Definition nestedRefs (it : ItemObj) : list loc :=
  option_list (data it) ++ option_list (position it) ++ option_list (rules it).

Definition itemRefs (σ : store) (l : loc) : list loc :=
  match σ !! l with
  | Some (OItem it) => nestedRefs it
  | _ => []
  end.

(** The objects that make up the collection at [a]: the array, its stacks
    and their nested objects. *)
Definition reach (σ : store) (a : loc) : list loc :=
  a :: match σ !! a with
       | Some (OArray ls) => ls ++ (ls ≫= itemRefs σ)
       | _ => []
       end.

(** The objects a call is handed by reference besides the collection. *)
Definition handedIn (σ : store) (op : Op) : list loc :=
  match op with
  | OpAdd _ _ options => option_list (opt_data options)
  | OpAddSpecificItem item _ => itemRefs σ item
  | OpUpdate _ data =>
      option_list (p_data data) ++ option_list (p_position data)
      ++ option_list (p_rules data)
  | _ => []
  end.

(** *** Ownership

    Relative to the store [σ0] a call starts from and the objects [handed]
    to it by reference: a reference is allowed in the result when it was
    allocated during the call or was handed in; a stack is owned when it was
    allocated during the call and holds allowed references only; a
    collection is owned when nothing of [σ0] has changed, the array was
    allocated during the call and all its stacks are owned. *)

Definition allowed (σ0 : store) (handed : list loc) (r : loc) : Prop :=
  (r ∉ dom σ0) ∨ (r ∈ handed).

Definition ownedItem (σ0 : store) (handed : list loc) (σ : store) (l : loc)
    : Prop :=
  (l ∉ dom σ0)
  ∧ ∃ it, σ !! l = Some (OItem it) ∧ Forall (allowed σ0 handed) (nestedRefs it).

Definition owned (σ0 : store) (handed : list loc) (a : loc) (σ : store)
    : Prop :=
  σ0 ⊆ σ ∧ (a ∉ dom σ0)
  ∧ ∃ ls, σ !! a = Some (OArray ls) ∧ Forall (ownedItem σ0 handed σ) ls.

(** The stack handed to [addSpecificItem] is an object of the store the
    call starts from. *)
Definition inScope (σ0 : store) (op : Op) : Prop :=
  match op with
  | OpAddSpecificItem item _ => item ∈ dom σ0
  | _ => True
  end.

(** What every call guarantees: the objects of the store it started from
    are unchanged, and a returned collection is owned. *)
Definition hands_back (σ0 : store) (handed : list loc) (res : result loc) (σ' : store)
    : Prop :=
  σ0 ⊆ σ' ∧ ∀ a', res = Done a' → owned σ0 handed a' σ'.

End Store.

(** ** Reading the values off the store

    What a stack object, a collection and the parameters of a call are when
    they are read by value: every reference is replaced by the content of
    the object it leads to. *)

Definition asData (o : Store.object) : option JSON :=
  match o with Store.OData d => Some d | _ => None end.

Definition asPosition (o : Store.object) : option Position :=
  match o with Store.OPosition p => Some p | _ => None end.

Definition asRules (o : Store.object) : option Rules :=
  match o with Store.ORules r => Some r | _ => None end.

Definition nestedValue {A} (as_ : Store.object → option A)
    (σ : gmap Store.loc Store.object) (r : option Store.loc) : option (option A) :=
  match r with
  | None => Some None
  | Some l =>
      match σ !! l ≫= as_ with
      | Some v => Some (Some v)
      | None => None
      end
  end.

Definition baseValue (σ : gmap Store.loc Store.object) (b : Store.BaseObj)
    : option BaseItem :=
  p ← nestedValue asPosition σ (position b);
  r ← nestedValue asRules σ (rules b);
  Some (retargetBase p r b).

Definition itemValue (σ : gmap Store.loc Store.object) (o : Store.ItemObj)
    : option Item :=
  d ← nestedValue asData σ (data o);
  p ← nestedValue asPosition σ (position o);
  r ← nestedValue asRules σ (rules o);
  Some (retarget d p r o).

Definition itemAt (σ : gmap Store.loc Store.object) (l : Store.loc) : option Item :=
  match σ !! l with
  | Some (Store.OItem o) => itemValue σ o
  | _ => None
  end.

Definition optionsValue (σ : gmap Store.loc Store.object) (o : Store.OptionsObj)
    : option AddOptions :=
  d ← nestedValue asData σ (opt_data o);
  Some {| opt_name := opt_name o; opt_maxWeight := opt_maxWeight o;
          opt_maxCells := opt_maxCells o; opt_data := d |}.

Definition patchValue (σ : gmap Store.loc Store.object) (p : Store.PatchObj)
    : option Patch :=
  d ← nestedValue asData σ (p_data p);
  pos ← nestedValue asPosition σ (p_position p);
  r ← nestedValue asRules σ (p_rules p);
  Some {| p_uid := p_uid p; p_quantity := p_quantity p; p_data := d;
          p_id := p_id p; p_name := p_name p; p_desc := p_desc p;
          p_width := p_width p; p_height := p_height p; p_position := pos;
          p_rotation := p_rotation p; p_maxStack := p_maxStack p;
          p_weight := p_weight p; p_icon := p_icon p; p_decay := p_decay p;
          p_durability := p_durability p; p_useEventName := p_useEventName p;
          p_rules := r |}.

(** The call by value that a call over the store stands for. *)
Definition opValue (σ : gmap Store.loc Store.object) (op : Store.Op) : option Op :=
  match op with
  | Store.OpAdd i quantity options =>
      o ← optionsValue σ options; Some (OpAdd i quantity o)
  | Store.OpAddSpecificItem item options =>
      v ← itemAt σ item; o ← optionsValue σ options; Some (OpAddSpecificItem v o)
  | Store.OpRemove u quantity => Some (OpRemove u quantity)
  | Store.OpRemoveAt u => Some (OpRemoveAt u)
  | Store.OpRemoveQuantityFrom u quantity => Some (OpRemoveQuantityFrom u quantity)
  | Store.OpSplit u amountToSplit options =>
      o ← optionsValue σ options; Some (OpSplit u amountToSplit o)
  | Store.OpStack uidToStackOn uidToStack => Some (OpStack uidToStackOn uidToStack)
  | Store.OpUpdate u data => p ← patchValue σ data; Some (OpUpdate u p)
  | Store.OpInvokeDecay => Some OpInvokeDecay
  end.

(** Overwriting an array or a stack does not change what a nested reference
    leads to: nested objects are of another kind. *)
Definition notNested (x : Store.object) : Prop :=
  asData x = None ∧ asPosition x = None ∧ asRules x = None.

(** Every nested object of [σ] is in [σ'] as it was. *)
Definition nestedKept (σ σ' : gmap Store.loc Store.object) : Prop :=
  ∀ l x, σ !! l = Some x → ¬ notNested x → σ' !! l = Some x.

(** The array at [a] holds the stacks at [ls], which read as [items]. *)
Definition arrayOf (σ : gmap Store.loc Store.object) (a : Store.loc)
    (ls : list Store.loc) (items : list Item) : Prop :=
  σ !! a = Some (Store.OArray ls) ∧ Forall2 (λ l v, itemAt σ l = Some v) ls items.

(** The collection at [a] reads as [items]. *)
Definition represents (σ : gmap Store.loc Store.object) (a : Store.loc)
    (items : list Item) : Prop :=
  ∃ ls, arrayOf σ a ls items.

(** A working copy: no stack object occurs twice in the array. *)
Definition workingCopy (σ : gmap Store.loc Store.object) (a : Store.loc)
    (ls : list Store.loc) (items : list Item) : Prop :=
  arrayOf σ a ls items ∧ NoDup ls.

(** The outcome of a call over the store reads as the outcome by value. *)
Definition resultReads (σ : gmap Store.loc Store.object) (res : result Store.loc)
    (r : result (list Item)) : Prop :=
  match r, res with
  | Done items, Done a => represents σ a items
  | Undefined msg, Undefined msg' => msg' = msg
  | _, _ => False
  end.

(** A store for the scenarios: the collection at location 1 holds a stack
    ["a"] of one water bottle with auxiliary data (the object at location 3)
    and a stack ["b"] of two. *)
Module StoreSample.

Definition bottlesObj (u : string) (q : Z) (d : option Store.loc) : Store.object :=
  Store.OItem (retarget d None None (Sample.bottles u q)).

Definition collection : Store.loc := 1%positive.

Definition σ0 : gmap Store.loc Store.object :=
  {[ 1%positive := Store.OArray [2%positive; 4%positive];
     2%positive := bottlesObj "a" 1 (Some 3%positive);
     3%positive := Store.OData (JObj [("label", JStr "mine")]);
     4%positive := bottlesObj "b" 2 None ]}.

End StoreSample.

(** ** The specification's wording of the operations, and the conditions
    the properties rest on *)

(** One tick on one stack, as the specification words it: a stack without a
    counter is kept as it is, a counter is decremented by one, and the stack
    goes when the decremented counter is zero or below. *)
Definition decayTick (it : Item) : option Item :=
  match decay it with
  | None => Some it
  | Some d => if bool_decide (d - 1 ≤ 0) then None else Some (set_decay (Some (d - 1)) it)
  end.

(** Step 3 of the specification's [add], in its words: going through the
    collection in order, every stack of the item type that is not at max
    capacity receives [min (its remaining capacity) (quantity still to
    place)], as long as something remains to place.  The result is the
    collection and what is left to place. *)
Fixpoint greedyFill (baseItem : BaseItem) (toPlace : Z) (items : list Item)
    : list Item * Z :=
  match items with
  | [] => ([], toPlace)
  | it :: rest =>
      if bool_decide (id it = id baseItem ∧ quantity it ≠ maxStack baseItem)
         && bool_decide (0 < toPlace)
      then
        let placed := Z.min (maxStack baseItem - quantity it) toPlace in
        let '(rest', remaining) := greedyFill baseItem (toPlace - placed) rest in
        (set_quantity (quantity it + placed) it :: rest', remaining)
      else
        let '(rest', remaining) := greedyFill baseItem toPlace rest in
        (it :: rest', remaining)
  end.

(** Stack creation in the specification's words: as many stacks as needed to
    hold [toPlace] units, each capped at [maxStack]: the full stacks, then
    the remainder if there is one. *)
Definition newStackQuantities (maxStack toPlace : Z) : list Z :=
  if bool_decide (0 < toPlace)
  then replicate (Z.to_nat (toPlace / maxStack)) maxStack
       ++ (if bool_decide (toPlace mod maxStack = 0) then [] else [toPlace mod maxStack])
  else [].

(** The stack created for the [j]-th quantity, the generator having been
    called [k] times before. *)
Definition newStack (generate : nat → string) (baseItem : BaseItem)
    (options : AddOptions) (k : nat) (j : nat) (q : Z) : Item :=
  match opt_data options with
  | Some d => set_data (Some d) (spreadBase baseItem q (generate (k + j)%nat))
  | None => spreadBase baseItem q (generate (k + j)%nat)
  end.

Definition newStacks (generate : nat → string) (baseItem : BaseItem)
    (options : AddOptions) (k : nat) (toPlace : Z) : list Item :=
  imap (newStack generate baseItem options k)
       (newStackQuantities (maxStack baseItem) toPlace).

(** A stack is within bounds when it holds a positive quantity that does
    not exceed its max-stack; for quantities that are whole numbers this is
    [1 <= quantity <= maxStack].  Stated with [0 <], the bound does not rest
    on the quantities being whole. *)
Definition stackOk (it : Item) : Prop := 0 < quantity it ≤ maxStack it.


(** What uniqueness relies on, none of it checked by the engine:
    - [add] draws at most [fuel] identifiers from the generator; they are
      pairwise distinct and none is in the collection;
    - [split] draws one identifier, which is not in the collection;
    - [addSpecificItem]: the identifier of the stack handed in is not in the
      collection;
    - [update]: a patch that sets the identifier sets it to the one the
      stack has or to one that is not in the collection. *)
Definition freshCall (gen : nat → string) (fuel : nat) (op : Op) (items : list Item)
    : Prop :=
  match op with
  | OpAdd _ _ _ => NoDup (uids items ++ (gen <$> seq 0 fuel))
  | OpAddSpecificItem item _ => uid item ∉ uids items
  | OpSplit _ _ _ => gen 0%nat ∉ uids items
  | OpUpdate u data => ∀ v, p_uid data = Some v → v = u ∨ v ∉ uids items
  | OpRemove _ _ | OpRemoveAt _ | OpRemoveQuantityFrom _ _ | OpStack _ _
  | OpInvokeDecay => True
  end.

(** ** More conditions and wordings, for the properties beyond the
    specification *)

(** Whether a patch makes [update] take the stack out instead of patching
    it: it sets [decay] to zero or below
    ([typeof data.decay !== 'undefined' && data.decay <= 0]). *)
Definition spentDecay (data : Patch) : bool :=
  match p_decay data with
  | Some d => bool_decide (d ≤ 0)
  | None => false
  end.

(** [n] ticks on one stack, in one go. *)
Definition decayTicks (n : nat) (it : Item) : option Item :=
  match decay it with
  | None => Some it
  | Some d =>
      if bool_decide (d - Z.of_nat n ≤ 0) then None
      else Some (set_decay (Some (d - Z.of_nat n)) it)
  end.

(** A stack that the capacity check adds up without surprise: no negative
    quantity, weight or footprint. *)
Definition measurable (it : Item) : Prop :=
  0 ≤ quantity it ∧ 0 ≤ weight it ∧ 0 ≤ width it * height it.

(** The calls that only take units or stacks out (of a quantity that is not
    negative). *)
Definition takesOut (op : Op) : Prop :=
  match op with
  | OpRemove _ toRemove | OpRemoveQuantityFrom _ toRemove => 0 ≤ toRemove
  | OpRemoveAt _ | OpInvokeDecay => True
  | _ => False
  end.

(** The same stack, the quantity apart. *)
Definition sameButQuantity (it it' : Item) : Prop :=
  uid it' = uid it ∧ data it' = data it ∧ base it' = base it.

(** [Number.MAX_SAFE_INTEGER].  The program's numbers are double-precision
    floats: a sum of whole numbers is the exact one as long as the
    magnitudes of what is added up stay within this bound. *)
Definition MAX_SAFE_INTEGER : Z := 2 ^ 53 - 1.

(** The magnitudes of the quantities of a collection, added up. *)
Definition magnitude (items : list Item) : Z :=
  foldr (λ (it : Item) sum, Z.abs (quantity it) + sum) 0 items.

(** The quantities of the collection are whole numbers (as every quantity
    here is) whose magnitudes, with that of [extra], add up to no more than
    [MAX_SAFE_INTEGER]: whatever sums the program forms of them, in whatever
    order, are exact. *)
Definition exactQuantities (extra : Z) (items : list Item) : Prop :=
  magnitude items + Z.abs extra ≤ MAX_SAFE_INTEGER.

(** ** The catalogue ([src/server/itemManager.ts])

    [useItemManager] keeps the catalogue in the module variable
    [databaseItems], an object keyed by item type.  The engine reads it
    through [getBaseItem], which hands out a copy of the entry without its
    [_id]; what is modelled here is that view: the entry of a type is the
    [BaseItem] that [getBaseItem] returns for it ([Value.getBaseItem]).  A
    key is an item type: [databaseItems[id]] also finds what every
    JavaScript object inherits, so the view is that of the identifiers
    outside [inheritedNames], in a catalogue no entry of which was filed
    under ["__proto__"].  The calls to the database, the [_id] it assigns and
    the type file written after a change have no bearing on that view and
    are left out; [create] is followed from the point where the catalogue
    has been loaded. *)

Module ItemManager.

(** The property names that an object literal inherits from
    [Object.prototype]: [databaseItems[id]] is not undefined for them in an
    empty catalogue, and an assignment to ["__proto__"] files no entry. *)
Definition inheritedNames : list string :=
  ["constructor"; "__defineGetter__"; "__defineSetter__"; "hasOwnProperty";
   "__lookupGetter__"; "__lookupSetter__"; "isPrototypeOf";
   "propertyIsEnumerable"; "toString"; "valueOf"; "__proto__";
   "toLocaleString"].

Definition base_set_weight (w : Z) (b : BaseItem) : BaseItem :=
  {| id := id b; name := name b; desc := desc b; width := width b;
     height := height b; position := position b; rotation := rotation b;
     maxStack := maxStack b; weight := w; icon := icon b; decay := decay b;
     durability := durability b; useEventName := useEventName b;
     rules := rules b |}.

Definition base_set_maxStack (m : Z) (b : BaseItem) : BaseItem :=
  {| id := id b; name := name b; desc := desc b; width := width b;
     height := height b; position := position b; rotation := rotation b;
     maxStack := m; weight := weight b; icon := icon b; decay := decay b;
     durability := durability b; useEventName := useEventName b;
     rules := rules b |}.

(** [init]: the rows of the collection are entered one after the other
    under their item type, as they are. *)
Definition init (items : list BaseItem) : gmap string BaseItem :=
  foldl (λ databaseItems (item : BaseItem), <[id item := item]> databaseItems) ∅ items.

(** [create]: a negative weight becomes [0] and a max-stack of zero or
    below becomes [1]; a copy of the item replaces the entry of its type. *)
Definition create (item : BaseItem) (databaseItems : gmap string BaseItem)
    : gmap string BaseItem :=
  let item := if bool_decide (weight item < 0) then base_set_weight 0 item else item in
  let item := if bool_decide (maxStack item ≤ 0) then base_set_maxStack 1 item else item in
  let clonedItem := item in
  <[id item := clonedItem]> databaseItems.

(** [remove] returns whether there was an entry to remove. *)
Definition remove (i : string) (databaseItems : gmap string BaseItem)
    : bool * gmap string BaseItem :=
  match databaseItems !! i with
  | None => (false, databaseItems)
  | Some _ => (true, delete i databaseItems)
  end.

Definition has (i : string) (databaseItems : gmap string BaseItem) : bool :=
  match databaseItems !! i with
  | Some _ => true
  | None => false
  end.

(** A change of the catalogue. *)
Inductive Change : Type :=
  | Create (item : BaseItem)
  | Remove (i : string).

Definition change (databaseItems : gmap string BaseItem) (c : Change)
    : gmap string BaseItem :=
  match c with
  | Create item => create item databaseItems
  | Remove i => (remove i databaseItems).2
  end.

End ItemManager.


(** ** The managers that keep a collection
    ([src/server/storageItemManager.ts], [src/server/vehicleItemManager.ts])

    A manager reads the collection of its document, hands it to the engine
    and writes the outcome back.  A call is modelled as a function of the
    collection it reads ([None]: there is none to read) to what it returns
    together with what it does besides, in order: the write-back
    ([updateItems] of the storage manager, [document.set('items', ...)] of
    the vehicle manager) and the events it raises.  The database, the
    document store and the event invokers belong to the framework; a call
    of them is taken to return.  The options a storage manager is set up
    with go into the document it creates and into nothing else, and are
    left out. *)

Module Manager.

(** A JavaScript value, as far as a manager passes one on. *)
Inductive value : Type :=
  | VUndefined
  | VNull
  | VBool (b : bool)
  | VItem (item : Item)
  | VItems (items : list Item).

Definition truthy (v : value) : bool :=
  match v with
  | VUndefined | VNull => false
  | VBool b => b
  | VItem _ | VItems _ => true
  end.

(** [result.key], where [result] is what an engine call returned: an array
    or [undefined].  The managers read the keys [success], [items],
    [newItem] and [oldItem]; an array has no property of these names and the
    read gives [undefined].  Reading a property of [undefined] throws a
    [TypeError] ([None]). *)
Definition property (result : result (list Item)) (key : string) : option value :=
  match result with
  | Done _ => Some VUndefined
  | Undefined _ => None
  end.

Inductive effect : Type :=
  | UpdateItems (items : value)
  | OnItemAdded (i : string) (quantity : Z)
  | OnItemRemoved (i : string) (quantity : Z)
  | OnItemsUpdated (items : value).

(** What a call returns: a boolean, [{ success, item }], [{ success,
    oldItem, newItem }], or nothing. *)
Inductive reply : Type :=
  | RBool (b : bool)
  | RStack (success : bool) (item : value)
  | RSplit (success : bool) (oldItem newItem : value)
  | RVoid.

(** A call returns after its effects, or throws (the promise of an [async]
    function is rejected); no call throws after an effect. *)
Inductive outcome : Type :=
  | Returns (r : reply) (effects : list effect)
  | Throws.

Definition effects (o : outcome) : list effect :=
  match o with
  | Returns _ effects => effects
  | Throws => []
  end.

(** A call has failed when it throws or reports [false]. *)
Definition failed (o : outcome) : bool :=
  match o with
  | Throws => true
  | Returns (RBool b) _ | Returns (RStack b _) _ | Returns (RSplit b _ _) _ => negb b
  | Returns RVoid _ => false
  end.

Inductive Call : Type :=
  | Add (i : string) (quantity : Z) (addOptions : AddOptions)
  | AddSpecificItem (item : Item) (addOptions : AddOptions)
  | Remove (i : string) (quantity : Z)
  | RemoveQuantityFrom (u : string) (quantity : Z)
  | Stack (uidToStackOn uidToStack : string)
  | Split (u : string) (amountToSplit : Z) (options : AddOptions)
  | Update (u : string) (data : Patch)
  | InvokeDecay
  | Has (i : string) (quantity : Z).

(** An effect that may follow the write-back of [written]: no second
    write, and an update event carries the collection that was written. *)
Definition announces (written : list Item) (e : effect) : Prop :=
  match e with
  | UpdateItems _ => False
  | OnItemsUpdated v => v = VItems written
  | OnItemAdded _ _ | OnItemRemoved _ _ => True
  end.

(** The calls that only read. *)
Definition reads (c : Call) : bool :=
  match c with
  | Has _ _ => true
  | _ => false
  end.

End Manager.

(** *** [useStorageItemManager] *)

Module StorageItemManager.

Import Manager.

Section Calls.

Variable ItemManagerConfig : Config.
Variable databaseItems : gmap string BaseItem.
Variable generate : nat → string.
Variable fuel : nat.

(** [document.noDecay], of the document the manager was set up with. *)
Variable noDecay : bool.

(** [getInternal]: a copy of the items of the storage's document as the
    database has it now, the empty collection when there is no document
    ([stored = None]).  The manager creates its document with [items: []];
    a document without an [items] array is left out, what the framework's
    clone makes of [undefined] not being in the sources. *)
Definition getInternal (stored : option (list Item)) : list Item :=
  match stored with
  | None => []
  | Some items => cloneItems items
  end.

Definition add (i : string) (quantity : Z) (addOptions : AddOptions)
    (stored : option (list Item)) : option outcome :=
  let currentItems := getInternal stored in
  items ← Value.add ItemManagerConfig databaseItems generate fuel i quantity
            currentItems addOptions;
  Some match items with
       | Undefined _ => Returns (RBool false) []
       | Done items =>
           Returns (RBool true)
             [UpdateItems (VItems items); OnItemAdded i quantity;
              OnItemsUpdated (VItems items)]
       end.

Definition addSpecificItem (item : Item) (addOptions : AddOptions)
    (stored : option (list Item)) : outcome :=
  let currentItems := getInternal stored in
  match Value.addSpecificItem ItemManagerConfig item currentItems addOptions with
  | Undefined _ => Returns (RBool false) []
  | Done items =>
      Returns (RBool true)
        [UpdateItems (VItems items); OnItemAdded (id item) (stackQuantity item);
         OnItemsUpdated (VItems items)]
  end.

(** The item type goes to the engine as it is. *)
Definition remove (i : string) (quantity : Z) (stored : option (list Item))
    : outcome :=
  let currentItems := getInternal stored in
  let initialQuantity := quantity in
  match Value.remove i quantity currentItems with
  | Undefined _ => Returns (RBool false) []
  | Done items =>
      Returns (RBool true)
        [UpdateItems (VItems items); OnItemRemoved i initialQuantity;
         OnItemsUpdated (VItems items)]
  end.

Definition get (stored : option (list Item)) : list Item :=
  match stored with
  | None => []
  | Some items => cloneItems items
  end.

Definition getByUid (u : string) (stored : option (list Item)) : result Item :=
  Value.getByUid u (get stored).

Definition getData (u : string) (stored : option (list Item))
    : result (option JSON) :=
  Value.getData u (getInternal stored).

Definition has (i : string) (quantity : Z) (stored : option (list Item)) : bool :=
  (Value.has i quantity (getInternal stored)).1.

(** [updateItems(currentItems)]: what is written back is the collection
    that was read. *)
Definition removeQuantityFrom (u : string) (quantity : Z)
    (stored : option (list Item)) : outcome :=
  let currentItems := getInternal stored in
  match Value.removeQuantityFrom u quantity currentItems with
  | Undefined _ => Returns (RBool false) []
  | Done items => Returns (RBool true) [UpdateItems (VItems currentItems)]
  end.

Definition stack (uidToStackOn uidToStack : string) (stored : option (list Item))
    : outcome :=
  let currentItems := getInternal stored in
  let result := Value.stack databaseItems uidToStackOn uidToStack currentItems in
  match property result "success" with
  | None => Throws
  | Some success =>
      if negb (truthy success)
      then Returns (RStack false VNull) []
      else
        match property result "items", property result "newItem" with
        | Some items, Some newItem =>
            Returns (RStack true newItem) [UpdateItems items; OnItemsUpdated items]
        | _, _ => Throws
        end
  end.

Definition split (u : string) (amountToSplit : Z) (options : AddOptions)
    (stored : option (list Item)) : outcome :=
  let currentItems := getInternal stored in
  let result :=
    Value.split ItemManagerConfig databaseItems generate u amountToSplit
      currentItems options in
  match property result "success" with
  | None => Throws
  | Some success =>
      if negb (truthy success)
      then Returns (RSplit false VNull VNull) []
      else
        match property result "items", property result "oldItem",
              property result "newItem" with
        | Some items, Some oldItem, Some newItem =>
            Returns (RSplit true oldItem newItem) [UpdateItems items; OnItemsUpdated items]
        | _, _, _ => Throws
        end
  end.

Definition update (u : string) (data : Patch) (stored : option (list Item))
    : outcome :=
  let currentItems := getInternal stored in
  match Value.update u data currentItems with
  | Undefined _ => Returns (RBool false) []
  | Done items =>
      Returns (RBool true) [UpdateItems (VItems items); OnItemsUpdated (VItems items)]
  end.

Definition invokeDecay (stored : option (list Item)) : outcome :=
  if noDecay then Returns RVoid []
  else
    let currentItems := getInternal stored in
    if bool_decide (length currentItems ≤ 0)%nat then Returns RVoid []
    else
      let items := Value.invokeDecay currentItems in
      Returns RVoid [UpdateItems (VItems items)].

Definition run (c : Call) (stored : option (list Item)) : option outcome :=
  match c with
  | Add i quantity addOptions => add i quantity addOptions stored
  | AddSpecificItem item addOptions => Some (addSpecificItem item addOptions stored)
  | Remove i quantity => Some (remove i quantity stored)
  | RemoveQuantityFrom u quantity => Some (removeQuantityFrom u quantity stored)
  | Stack uidToStackOn uidToStack => Some (stack uidToStackOn uidToStack stored)
  | Split u amountToSplit options => Some (split u amountToSplit options stored)
  | Update u data => Some (update u data stored)
  | InvokeDecay => Some (invokeDecay stored)
  | Has i quantity => Some (Returns (RBool (has i quantity stored)) [])
  end.

End Calls.

End StorageItemManager.

(** *** [useVehicleItemManager]

    The collection is the [items] of the vehicle's document, [None] when
    the document has none. *)

Module VehicleItemManager.

Import Manager.

Section Calls.

Variable ItemManagerConfig : Config.
Variable databaseItems : gmap string BaseItem.
Variable generate : nat → string.
Variable fuel : nat.

(** [if (!data.items) data.items = []]. *)
Definition orEmpty (items : option (list Item)) : list Item :=
  match items with
  | None => []
  | Some items => items
  end.

Definition add (i : string) (quantity : Z) (addOptions : AddOptions)
    (data_items : option (list Item)) : option outcome :=
  let data_items := orEmpty data_items in
  items ← Value.add ItemManagerConfig databaseItems generate fuel i quantity
            data_items addOptions;
  Some match items with
       | Undefined _ => Returns (RBool false) []
       | Done items =>
           Returns (RBool true)
             [UpdateItems (VItems items); OnItemAdded i quantity;
              OnItemsUpdated (VItems items)]
       end.

Definition addSpecificItem (item : Item) (addOptions : AddOptions)
    (data_items : option (list Item)) : outcome :=
  let data_items := orEmpty data_items in
  match Value.addSpecificItem ItemManagerConfig item data_items addOptions with
  | Undefined _ => Returns (RBool false) []
  | Done items =>
      Returns (RBool true)
        [UpdateItems (VItems items); OnItemAdded (id item) (stackQuantity item);
         OnItemsUpdated (VItems items)]
  end.

Definition remove (i : string) (quantity : Z) (data_items : option (list Item))
    : outcome :=
  match data_items with
  | None => Returns (RBool false) []
  | Some data_items =>
      let initialQuantity := quantity in
      match Value.remove i quantity data_items with
      | Undefined _ => Returns (RBool false) []
      | Done items =>
          Returns (RBool true)
            [UpdateItems (VItems items); OnItemRemoved i initialQuantity;
             OnItemsUpdated (VItems items)]
      end
  end.

Definition removeQuantityFrom (u : string) (quantity : Z)
    (data_items : option (list Item)) : outcome :=
  let data_items := orEmpty data_items in
  match Value.removeQuantityFrom u quantity data_items with
  | Undefined _ => Returns (RBool false) []
  | Done items =>
      Returns (RBool true) [UpdateItems (VItems items); OnItemsUpdated (VItems items)]
  end.

(** [document.get().items ?? []]. *)
Definition get (data_items : option (list Item)) : list Item :=
  match data_items with
  | None => []
  | Some items => items
  end.

Definition getAt (u : string) (data_items : option (list Item)) : option Item :=
  let items := get data_items in
  snd <$> list_find (λ x : Item, uid x = u) items.

Definition getData (u : string) (data_items : option (list Item))
    : result (option JSON) :=
  let items := get data_items in
  Value.getData u items.

Definition has (i : string) (quantity : Z) (data_items : option (list Item))
    : bool :=
  match data_items with
  | None => false
  | Some data_items => (Value.has i quantity data_items).1
  end.

Definition stack (uidToStackOn uidToStack : string)
    (data_items : option (list Item)) : outcome :=
  match data_items with
  | None => Returns (RStack false VNull) []
  | Some data_items =>
      let result := Value.stack databaseItems uidToStackOn uidToStack data_items in
      match property result "success" with
      | None => Throws
      | Some success =>
          if negb (truthy success)
          then Returns (RStack false VNull) []
          else
            match property result "items", property result "newItem" with
            | Some items, Some newItem =>
                Returns (RStack true newItem) [UpdateItems items; OnItemsUpdated items]
            | _, _ => Throws
            end
      end
  end.

Definition split (u : string) (amountToSplit : Z) (options : AddOptions)
    (data_items : option (list Item)) : outcome :=
  match data_items with
  | None => Returns (RSplit false VNull VNull) []
  | Some data_items =>
      let result :=
        Value.split ItemManagerConfig databaseItems generate u amountToSplit
          data_items options in
      match property result "success" with
      | None => Throws
      | Some success =>
          if negb (truthy success)
          then Returns (RSplit false VNull VNull) []
          else
            match property result "items", property result "oldItem",
                  property result "newItem" with
            | Some items, Some oldItem, Some newItem =>
                Returns (RSplit true oldItem newItem)
                  [UpdateItems items; OnItemsUpdated items]
            | _, _, _ => Throws
            end
      end
  end.

Definition update (u : string) (data : Patch) (data_items : option (list Item))
    : outcome :=
  match data_items with
  | None => Returns (RBool false) []
  | Some data_items =>
      match Value.update u data data_items with
      | Undefined _ => Returns (RBool false) []
      | Done items =>
          Returns (RBool true) [UpdateItems (VItems items); OnItemsUpdated (VItems items)]
      end
  end.

Definition invokeDecay (data_items : option (list Item)) : outcome :=
  match data_items with
  | None => Returns RVoid []
  | Some data_items =>
      let items := Value.invokeDecay data_items in
      Returns RVoid [UpdateItems (VItems items)]
  end.

Definition run (c : Call) (data_items : option (list Item)) : option outcome :=
  match c with
  | Add i quantity addOptions => add i quantity addOptions data_items
  | AddSpecificItem item addOptions => Some (addSpecificItem item addOptions data_items)
  | Remove i quantity => Some (remove i quantity data_items)
  | RemoveQuantityFrom u quantity => Some (removeQuantityFrom u quantity data_items)
  | Stack uidToStackOn uidToStack => Some (stack uidToStackOn uidToStack data_items)
  | Split u amountToSplit options => Some (split u amountToSplit options data_items)
  | Update u data => Some (update u data data_items)
  | InvokeDecay => Some (invokeDecay data_items)
  | Has i quantity => Some (Returns (RBool (has i quantity data_items)) [])
  end.

End Calls.

End VehicleItemManager.

(** Where the two managers part: the calls, and the collections read, on
    which the storage manager and the vehicle manager do not do the same.
    - [removeQuantityFrom] (what is written back, and the event);
    - [invokeDecay] on an empty collection (the storage manager writes
      nothing);
    - with nothing to read: [has] of a quantity of zero or below, [stack]
      and [split]. *)
Definition managersPart (c : Manager.Call) (stored : option (list Item)) : Prop :=
  match c, stored with
  | Manager.RemoveQuantityFrom _ _, _ => True
  | Manager.InvokeDecay, Some [] => True
  | Manager.Has _ quantity, None => quantity ≤ 0
  | Manager.Stack _ _, None | Manager.Split _ _ _, None => True
  | _, _ => False
  end.

(** ** The reading operations of the engine over the object store *)

Module StoreAccess.

Import Store.

(** [getByUid]: [items.find] gives the element of the caller's array. *)
Definition getByUid (u : string) (items : loc) : M (result loc) :=
  let* its := readItems items in
  match list_find (λ x : ItemObj, uid x = u) its with
  | Some (index, _) =>
      let* item := element items index in
      ret (Done item)
  | None => ret (Undefined Messages.getByUid)
  end.

(** [getData]: the [data] property of the stack that was found. *)
Definition getData (u : string) (items : loc) : M (result (option loc)) :=
  let* item := getByUid u items in
  match item with
  | Done item =>
      let* it := readItem item in
      ret (Done (data it))
  | Undefined msg => ret (Undefined msg)
  end.

End StoreAccess.

(** ** More sample data *)

Module Scenarios.

(** A row as the database may hold it: nothing has normalised its
    max-stack. *)
Definition crate : BaseItem :=
  {| id := "crate"; name := "Crate"; desc := "A wooden crate";
     width := 2; height := 2; position := None; rotation := 0; maxStack := 0;
     weight := 4; icon := "icon-crate.png"; decay := None; durability := None;
     useEventName := None; rules := None |}.

(** A per-call grid of no area. *)
Definition noRoom : AddOptions :=
  {| opt_name := None; opt_maxWeight := None;
     opt_maxCells := Some (Build_Cells 0 5); opt_data := None |}.

(** The stack ["a"] of the store scenario, read by value. *)
Definition labelled : Item :=
  set_data (Some (JObj [("label", JStr "mine")])) (Sample.bottles "a" 1).

End Scenarios.

(** * Properties *)

(** ** Capacity and weight policy *)

Section PolicyFacts.
Context {D P R : Type}.
Implicit Types (items : list (ItemOf D P R)) (item : ItemOf D P R).

Lemma foldl_add_shift {A} (f : A → Z) (l : list A) (a : Z) :
  foldl (λ sum x, sum + f x) a l = a + foldl (λ sum x, sum + f x) 0 l.
Proof.
  revert a. induction l as [|x l IH]; intros a; simpl; [lia|].
  rewrite (IH (a + f x)), (IH (0 + f x)). lia.
Qed.

Lemma totalWeight_cons item items :
  totalWeight (item :: items) = quantity item * weight item + totalWeight items.
Proof. unfold totalWeight. simpl. rewrite foldl_add_shift. lia. Qed.

Lemma totalWeight_app items1 items2 :
  totalWeight (items1 ++ items2) = totalWeight items1 + totalWeight items2.
Proof.
  induction items1 as [|x l IH]; [reflexivity|].
  rewrite <- app_comm_cons, !totalWeight_cons, IH. lia.
Qed.

Lemma totalCellsOccupied_cons item items :
  totalCellsOccupied (item :: items)
  = width item * height item + totalCellsOccupied items.
Proof. unfold totalCellsOccupied. simpl. rewrite foldl_add_shift. lia. Qed.

End PolicyFacts.

Lemma orDefaultWeight_zero dflt : orDefaultWeight (Some 0) dflt = dflt.
Proof. reflexivity. Qed.

Lemma verifyStackAndWeight_falsy_weight {D P R} cfg (items : list (ItemOf D P R))
    (options : AddOptionsOf D) :
  verifyStackAndWeight cfg items (set_maxWeight (Some 0) options)
  = verifyStackAndWeight cfg items (set_maxWeight None options).
Proof. reflexivity. Qed.

(** C10.  A per-call [maxWeight] of [0] is falsy, so [options.maxWeight ||
    default] replaces it by the configured default: the check of a
    collection under [maxWeight: 0] is the check under no [maxWeight] at
    all, the weight it compares against is the configured maximum, and
    [add], [addSpecificItem] and [split] return the same under both
    options.  A missing [maxCells] is replaced by the default grid in the
    same way. *)
Theorem zero_maxWeight_is_replaced_by_default
    (cfg : Config) (cat : gmap string BaseItem) (gen : nat → string)
    (items : list Item) (options : AddOptions) :
  orDefaultWeight (opt_maxWeight (set_maxWeight (Some 0) options))
                  (weight_maxWeight cfg) = weight_maxWeight cfg
  ∧ orDefaultWeight None (weight_maxWeight cfg) = weight_maxWeight cfg
  ∧ orDefaultCells None (slots_maxCells cfg) = slots_maxCells cfg
  ∧ verifyStackAndWeight cfg items (set_maxWeight (Some 0) options)
    = verifyStackAndWeight cfg items (set_maxWeight None options)
  ∧ verifyStackAndWeight cfg items (set_maxWeight (Some 0) options)
    = negb ((slots_enabled cfg
               && bool_decide
                    (cells_width (orDefaultCells (opt_maxCells options) (slots_maxCells cfg))
                     * cells_height (orDefaultCells (opt_maxCells options) (slots_maxCells cfg))
                     < totalCellsOccupied items))
            || bool_decide
                 (cells_width (orDefaultCells (opt_maxCells options) (slots_maxCells cfg))
                  * cells_height (orDefaultCells (opt_maxCells options) (slots_maxCells cfg))
                  ≤ 0))
      && negb (weight_enabled cfg && isWeightExceeded items (weight_maxWeight cfg))
  ∧ (∀ fuel i quantity,
       add cfg cat gen fuel i quantity items (set_maxWeight (Some 0) options)
       = add cfg cat gen fuel i quantity items (set_maxWeight None options))
  ∧ (∀ item,
       addSpecificItem cfg item items (set_maxWeight (Some 0) options)
       = addSpecificItem cfg item items (set_maxWeight None options))
  ∧ (∀ u amountToSplit,
       split cfg cat gen u amountToSplit items (set_maxWeight (Some 0) options)
       = split cfg cat gen u amountToSplit items (set_maxWeight None options)).
Proof.
  split_and!; try reflexivity.
  - unfold verifyStackAndWeight. simpl.
    destruct (_ || _); simpl; [reflexivity|].
    destruct (_ && _); reflexivity.
  - intros fuel i quantity. unfold add, handleItemStacking, addNewItemStacks.
    assert (Hloop : ∀ f k l b q,
      addNewItemStacks_loop gen f k l b q (set_maxWeight (Some 0) options)
      = addNewItemStacks_loop gen f k l b q (set_maxWeight None options)).
    { induction f as [|f IH]; intros k l b q; simpl; [reflexivity|].
      case_bool_decide; [|reflexivity]. apply IH. }
    destruct (getBaseItem cat i) as [b|]; [|reflexivity].
    repeat case_bool_decide; try destruct (handleItemStacking_loop _ _ _ _ _);
      repeat case_bool_decide; rewrite ?Hloop; reflexivity.
Qed.

(** ** Decay *)

Lemma invokeDecay_loop_prefix (pre suf : list Item) :
  invokeDecay_loop (length pre) (pre ++ suf) = omap decayTick pre ++ suf.
Proof.
  revert suf. induction pre as [|x pre IH] using rev_ind; intros suf; [reflexivity|].
  rewrite length_app, Nat.add_1_r. cbn [invokeDecay_loop].
  rewrite <- app_assoc. cbn [app].
  rewrite list_lookup_middle by reflexivity.
  rewrite omap_app. cbn [omap list_omap]. unfold decayTick at 2.
  destruct (decay x) as [d|] eqn:Hd.
  - assert (Hins : <[length pre := set_decay (Some (d - 1)) x]> (pre ++ x :: suf)
                   = pre ++ set_decay (Some (d - 1)) x :: suf).
    { rewrite insert_app_r_alt by lia. by rewrite Nat.sub_diag. }
    rewrite Hins. case_bool_decide.
    + assert (Hdel : delete (length pre) (pre ++ set_decay (Some (d - 1)) x :: suf)
                     = pre ++ suf).
      { rewrite delete_middle. reflexivity. }
      rewrite Hdel, IH. by rewrite app_nil_r.
    + rewrite IH. by rewrite <- app_assoc.
  - rewrite IH. by rewrite <- app_assoc.
Qed.

Lemma invokeDecay_omap (items : list Item) :
  invokeDecay items = omap decayTick items.
Proof.
  unfold invokeDecay, cloneItems.
  rewrite <- (app_nil_r items) at 2.
  rewrite invokeDecay_loop_prefix. apply app_nil_r.
Qed.

Lemma omap_decayTick_no_decay (items : list Item) :
  Forall (λ it : Item, decay it = None) items → omap decayTick items = items.
Proof.
  induction 1 as [|x l Hx _ IH]; [reflexivity|].
  cbn [omap list_omap]. unfold decayTick at 1. rewrite Hx. by rewrite IH.
Qed.

(** C8.  [invokeDecay] is a total function of the collection (it has no
    failure result), and what it returns is the collection, in order, with
    one tick applied to every stack: a stack with a decay counter has the
    counter decremented by exactly one and is dropped when the decremented
    counter is zero or below, a stack without a counter is unchanged.  On a
    collection in which no stack has a decay counter the result is the
    input. *)
Theorem invokeDecay_ticks_every_counter (items : list Item) :
  invokeDecay items = omap decayTick items
  ∧ (∀ it : Item, decay it = None → decayTick it = Some it)
  ∧ (∀ (it : Item) d, decay it = Some d → 0 < d - 1 →
       decayTick it = Some (set_decay (Some (d - 1)) it))
  ∧ (∀ (it : Item) d, decay it = Some d → d - 1 ≤ 0 → decayTick it = None)
  ∧ (Forall (λ it : Item, decay it = None) items → invokeDecay items = items).
Proof.
  split_and!.
  - apply invokeDecay_omap.
  - intros it Hit. unfold decayTick. by rewrite Hit.
  - intros it d Hit Hd. unfold decayTick. rewrite Hit.
    case_bool_decide; [lia|reflexivity].
  - intros it d Hit Hd. unfold decayTick. rewrite Hit.
    case_bool_decide; [reflexivity|lia].
  - intros Hall. rewrite invokeDecay_omap. by apply omap_decayTick_no_decay.
Qed.

Lemma invokeDecay_ticks_every_counter_witness :
  let items := [Sample.bottles "a" 1; Sample.bottles "b" 2] in
  Forall (λ it : Item, decay it = None) items ∧ invokeDecay items = items.
Proof.
  intros items. assert (H : Forall (λ it : Item, decay it = None) items).
  { repeat constructor. }
  split; [exact H|].
  exact (proj2 (proj2 (proj2 (proj2 (invokeDecay_ticks_every_counter items)))) H).
Defined.

(** ** Add: greedy filling and stack creation *)

Lemma greedyFill_nothing_to_place baseItem toPlace items :
  toPlace ≤ 0 → greedyFill baseItem toPlace items = (items, toPlace).
Proof.
  intros Hq. induction items as [|it rest IH]; [reflexivity|].
  cbn [greedyFill]. rewrite (bool_decide_eq_false_2 (0 < toPlace)) by lia.
  rewrite andb_false_r, IH. reflexivity.
Qed.

Lemma handleItemStacking_loop_greedyFill baseItem (pre suf : list Item) toPlace :
  handleItemStacking_loop (length suf) (length pre) (pre ++ suf) baseItem toPlace
  = (pre ++ (greedyFill baseItem toPlace suf).1, (greedyFill baseItem toPlace suf).2).
Proof.
  revert pre toPlace. induction suf as [|it suf IH]; intros pre toPlace.
  { reflexivity. }
  cbn [length handleItemStacking_loop greedyFill].
  rewrite list_lookup_middle by reflexivity.
  assert (Hshift : ∀ x : Item, pre ++ x :: suf = (pre ++ [x]) ++ suf).
  { intros x. by rewrite <- app_assoc. }
  assert (Hlen : ∀ x : Item, S (length pre) = length (pre ++ [x])).
  { intros x. rewrite length_app. simpl. lia. }
  destruct (decide (id it = id baseItem ∧ quantity it ≠ maxStack baseItem)) as [[Hid Hq]|Hno].
  - rewrite (bool_decide_eq_false_2 (id it ≠ id baseItem)) by tauto.
    rewrite (bool_decide_eq_false_2 (quantity it = maxStack baseItem)) by tauto.
    rewrite (bool_decide_eq_true_2 (_ ∧ _)) by tauto.
    cbn [orb andb]. case_bool_decide as Hle.
    + rewrite (bool_decide_eq_false_2 (0 < toPlace)) by lia.
      rewrite greedyFill_nothing_to_place by lia. reflexivity.
    + rewrite (bool_decide_eq_true_2 (0 < toPlace)) by lia.
      rewrite insert_app_r_alt by lia. rewrite Nat.sub_diag. cbn [insert list_insert].
      set (it' := set_quantity _ it).
      rewrite (Hshift it'), (Hlen it'), IH.
      destruct (greedyFill baseItem _ suf) as [rest' remaining]. cbn [fst snd].
      by rewrite <- app_assoc.
  - rewrite (bool_decide_eq_false_2 (_ ∧ _)) by tauto. cbn [andb].
    assert (Hskip : bool_decide (id it ≠ id baseItem)
                    || bool_decide (quantity it = maxStack baseItem) = true).
    { apply orb_true_iff. rewrite !bool_decide_eq_true.
      destruct (decide (id it = id baseItem)); [right|left]; [|done].
      destruct (decide (quantity it = maxStack baseItem)); [done|]. tauto. }
    rewrite Hskip, (Hshift it), (Hlen it), IH.
    destruct (greedyFill baseItem toPlace suf) as [rest' remaining]. cbn [fst snd].
    by rewrite <- app_assoc.
Qed.

Lemma newStackQuantities_done maxS toPlace :
  toPlace ≤ 0 → newStackQuantities maxS toPlace = [].
Proof. intros. unfold newStackQuantities. by rewrite bool_decide_eq_false_2 by lia. Qed.

Lemma newStackQuantities_last maxS toPlace :
  0 < toPlace ≤ maxS → newStackQuantities maxS toPlace = [toPlace].
Proof.
  intros [Hpos Hle]. unfold newStackQuantities.
  rewrite bool_decide_eq_true_2 by lia.
  destruct (decide (toPlace = maxS)) as [->|Hne].
  - rewrite Z.div_same, Z.mod_same by lia.
    rewrite bool_decide_eq_true_2 by reflexivity. reflexivity.
  - rewrite Z.div_small, Z.mod_small by lia.
    rewrite bool_decide_eq_false_2 by lia. reflexivity.
Qed.

Lemma newStackQuantities_full maxS toPlace :
  0 < maxS < toPlace →
  newStackQuantities maxS toPlace = maxS :: newStackQuantities maxS (toPlace - maxS).
Proof.
  intros [Hpos Hlt]. unfold newStackQuantities.
  rewrite (bool_decide_eq_true_2 (0 < toPlace)) by lia.
  rewrite (bool_decide_eq_true_2 (0 < toPlace - maxS)) by lia.
  assert (Hdiv : toPlace / maxS = (toPlace - maxS) / maxS + 1).
  { replace toPlace with ((toPlace - maxS) + 1 * maxS) at 1 by lia.
    rewrite Z.div_add by lia. reflexivity. }
  assert (Hmod : toPlace mod maxS = (toPlace - maxS) mod maxS).
  { replace toPlace with ((toPlace - maxS) + 1 * maxS) at 1 by lia.
    rewrite Z.mod_add by lia. reflexivity. }
  rewrite Hdiv, Hmod.
  assert (0 ≤ (toPlace - maxS) / maxS) by (apply Z.div_pos; lia).
  rewrite Z2Nat.inj_add by lia. rewrite Nat.add_1_r. reflexivity.
Qed.

Lemma addNewItemStacks_loop_newStacks generate baseItem options fuel k items quantity :
  1 ≤ maxStack baseItem → (Z.to_nat quantity ≤ fuel)%nat →
  addNewItemStacks_loop generate fuel k items baseItem quantity options
  = Some (items ++ newStacks generate baseItem options k quantity).
Proof.
  intros Hmax. revert k items quantity.
  induction fuel as [|fuel IH]; intros k items quantity Hfuel.
  - cbn [addNewItemStacks_loop]. rewrite bool_decide_eq_false_2 by lia.
    unfold newStacks. rewrite newStackQuantities_done by lia.
    by rewrite app_nil_r.
  - cbn [addNewItemStacks_loop]. case_bool_decide as Hpos.
    2:{ unfold newStacks. rewrite newStackQuantities_done by lia. by rewrite app_nil_r. }
    rewrite IH by lia. f_equal. rewrite <- app_assoc. f_equal.
    unfold newStacks.
    destruct (decide (quantity ≤ maxStack baseItem)) as [Hle|Hgt].
    + rewrite Z.min_l by lia. rewrite Z.sub_diag.
      rewrite (newStackQuantities_last (maxStack baseItem) quantity) by lia.
      rewrite (newStackQuantities_done (maxStack baseItem) 0) by lia.
      cbn. unfold newStack. rewrite Nat.add_0_r. reflexivity.
    + rewrite Z.min_r by lia. rewrite (newStackQuantities_full (maxStack baseItem) quantity) by lia.
      cbn [imap app]. f_equal.
      * unfold newStack. rewrite Nat.add_0_r. reflexivity.
      * apply imap_ext. intros j q _. unfold newStack, compose.
        replace (S k + j)%nat with (k + S j)%nat by lia. reflexivity.
Qed.

Lemma sum_replicate (n : nat) (m : Z) :
  foldr Z.add 0 (replicate n m) = Z.of_nat n * m.
Proof. induction n as [|n IH]; [reflexivity|]. cbn [replicate foldr]. rewrite IH. lia. Qed.

(** The created stacks hold what was left to place, none is empty and none
    exceeds the max-stack. *)
Lemma newStackQuantities_sound maxS toPlace :
  1 ≤ maxS → 0 ≤ toPlace →
  foldr Z.add 0 (newStackQuantities maxS toPlace) = toPlace
  ∧ Forall (λ q, 1 ≤ q ≤ maxS) (newStackQuantities maxS toPlace).
Proof.
  intros Hm Hq. unfold newStackQuantities. case_bool_decide as Hpos.
  2:{ split; [cbn; lia|constructor]. }
  pose proof (Z.div_mod toPlace maxS ltac:(lia)) as Hdm.
  pose proof (Z.mod_pos_bound toPlace maxS ltac:(lia)) as Hmod.
  assert (0 ≤ toPlace / maxS) by (apply Z.div_pos; lia).
  split.
  - rewrite foldr_app. case_bool_decide as Hr; cbn [foldr].
    + rewrite sum_replicate, Z2Nat.id by lia. lia.
    + assert (Hshift : ∀ l a, foldr Z.add a l = a + foldr Z.add 0 l).
      { induction l as [|x l IH]; intros a; cbn [foldr]; [lia|]. rewrite IH. lia. }
      rewrite Hshift, sum_replicate, Z2Nat.id by lia. lia.
  - apply Forall_app. split.
    + apply Forall_replicate. lia.
    + case_bool_decide; repeat constructor; lia.
Qed.

(** A catalogue entry with a max-stack of zero or below keeps the loop of
    [addNewItemStacks] running for ever. *)
Lemma addNewItemStacks_loop_diverges generate baseItem options fuel k items quantity :
  maxStack baseItem ≤ 0 → 0 < quantity →
  addNewItemStacks_loop generate fuel k items baseItem quantity options = None.
Proof.
  intros Hmax. revert k items quantity.
  induction fuel as [|fuel IH]; intros k items quantity Hpos;
    cbn [addNewItemStacks_loop]; rewrite bool_decide_eq_true_2 by lia; [reflexivity|].
  apply IH. lia.
Qed.

Lemma add_unfold_stackable cfg cat gen fuel i quantity items options baseItem :
  cat !! i = Some baseItem → 1 < maxStack baseItem →
  add cfg cat gen fuel i quantity items options
  = if bool_decide (0 < (greedyFill baseItem quantity items).2)
    then addNewItemStacks cfg gen fuel (greedyFill baseItem quantity items).1
           baseItem (greedyFill baseItem quantity items).2 options
    else Some (Done (greedyFill baseItem quantity items).1).
Proof.
  intros Hcat Hmax. unfold add, getBaseItem. rewrite Hcat.
  rewrite bool_decide_eq_false_2 by lia.
  unfold handleItemStacking. rewrite bool_decide_eq_false_2 by lia.
  unfold cloneItems.
  pose proof (handleItemStacking_loop_greedyFill baseItem [] items quantity) as Hloop.
  cbn [length app] in Hloop. rewrite Hloop. reflexivity.
Qed.


(** C6.  For a stackable item type [add] is the greedy filling of the
    specification followed by stack creation: the existing stacks of the
    type that are not full receive, in collection order,
    [min (remaining capacity) (quantity still to place)] while something
    remains to place; what is left goes into new stacks, each capped at the
    max-stack, and the result is then checked against the limits.  With
    enough fuel the call returns.  Adding 12 water bottles (max-stack 5) to
    the empty collection without limits gives three stacks of 5, 5 and 2. *)
Theorem add_fills_greedily_then_creates_stacks :
  (∀ cfg cat gen i quantity items options baseItem,
     cat !! i = Some baseItem → 1 < maxStack baseItem →
     ∃ fuel0 : nat, ∀ fuel : nat, (fuel0 ≤ fuel)%nat →
       add cfg cat gen fuel i quantity items options
       = let '(filled, remaining) := greedyFill baseItem quantity items in
         if bool_decide (0 < remaining)
         then
           let items' := filled ++ newStacks gen baseItem options 0 remaining in
           Some (if verifyStackAndWeight cfg items' options
                 then Done items' else Undefined Messages.none)
         else Some (Done filled))
  ∧ (∀ maxS toPlace, 1 ≤ maxS → 0 ≤ toPlace →
       foldr Z.add 0 (newStackQuantities maxS toPlace) = toPlace
       ∧ Forall (λ q, 1 ≤ q ≤ maxS) (newStackQuantities maxS toPlace))
  ∧ (∃ u1 u2 u3,
       add Sample.unlimited Sample.catalogue Sample.generate 3 "water_bottle" 12 [] noOptions
       = Some (Done [Sample.bottles u1 5; Sample.bottles u2 5; Sample.bottles u3 2])).
Proof.
  split_and!.
  - intros cfg cat gen i quantity items options baseItem Hcat Hmax.
    exists (Z.to_nat (greedyFill baseItem quantity items).2). intros fuel Hfuel.
    rewrite (add_unfold_stackable cfg cat gen fuel i quantity items options baseItem Hcat Hmax).
    destruct (greedyFill baseItem quantity items) as [filled remaining].
    cbn [fst snd] in *. case_bool_decide; [|reflexivity].
    unfold addNewItemStacks.
    rewrite addNewItemStacks_loop_newStacks by lia. reflexivity.
  - apply newStackQuantities_sound.
  - by eexists _, _, _.
Qed.

Lemma add_fills_greedily_then_creates_stacks_witness :
  ∃ fuel0 : nat, ∀ fuel : nat, (fuel0 ≤ fuel)%nat →
    add Sample.config Sample.catalogue Sample.generate fuel "water_bottle" 4
        [Sample.bottles "a" 3] noOptions
    = Some (Done [Sample.bottles "a" 5; Sample.bottles (Sample.generate 0) 2]).
Proof.
  destruct add_fills_greedily_then_creates_stacks as [Hadd _].
  destruct (Hadd Sample.config Sample.catalogue Sample.generate "water_bottle" 4
              [Sample.bottles "a" 3] noOptions Sample.water_bottle
              eq_refl ltac:(reflexivity)) as [fuel0 Hfuel0].
  exists fuel0. intros fuel Hfuel. rewrite (Hfuel0 fuel Hfuel). reflexivity.
Defined.

(** ** Split *)

Lemma split_found cfg cat gen u amountToSplit (items : list Item) options i it baseItem :
  list_find (λ x : Item, uid x = u) items = Some (i, it) →
  cat !! id it = Some baseItem →
  split cfg cat gen u amountToSplit items options
  = if bool_decide (quantity it ≤ amountToSplit)
    then Undefined Messages.cannotSplit
    else
      let items' :=
        <[i := set_quantity (quantity it - amountToSplit) it]> items
        ++ [set_uid (gen 0%nat) (set_quantity amountToSplit it)] in
      if verifyStackAndWeight cfg items' options
      then Done items' else Undefined Messages.none.
Proof.
  intros Hfind Hcat. unfold split, cloneItems, getBaseItem. rewrite Hfind, Hcat.
  destruct (decide (quantity it ≤ amountToSplit)) as [Hle|Hgt].
  - rewrite (bool_decide_eq_true_2 (quantity it ≤ amountToSplit)) by done.
    destruct (decide (quantity it = amountToSplit)).
    + rewrite (bool_decide_eq_true_2 (quantity it = amountToSplit)) by done.
      by rewrite orb_true_r.
    + rewrite (bool_decide_eq_true_2 (quantity it < amountToSplit)) by lia.
      reflexivity.
  - rewrite (bool_decide_eq_false_2 (quantity it ≤ amountToSplit)) by done.
    rewrite (bool_decide_eq_false_2 (quantity it < amountToSplit)) by lia.
    rewrite (bool_decide_eq_false_2 (quantity it = amountToSplit)) by lia.
    reflexivity.
Qed.


(** ** Invariants of the collection under the operations *)

Lemma list_find_lookup {A} (P : A → Prop) `{!∀ x, Decision (P x)} (l : list A) i x :
  list_find P l = Some (i, x) → l !! i = Some x ∧ P x.
Proof. intros Hfind%list_find_Some. tauto. Qed.

Lemma Forall_lookup_Some {A} (P : A → Prop) (l : list A) i x :
  Forall P l → l !! i = Some x → P x.
Proof. intros H Hl. by eapply Forall_lookup_1. Qed.






(** For the whole-number quantities of this development the bounds are
    those of the specification, [1 <= quantity <= maxStack]. *)
Lemma stackOk_whole (it : Item) : stackOk it ↔ 1 ≤ quantity it ≤ maxStack it.
Proof. unfold stackOk. lia. Qed.




(** ** Uniqueness of the stack identifiers *)

Lemma uids_set_quantity (items : list Item) i (it : Item) q :
  items !! i = Some it → uids (<[i := set_quantity q it]> items) = uids items.
Proof.
  intros Hit. unfold uids. rewrite list_fmap_insert. apply list_insert_id.
  rewrite list_lookup_fmap, Hit. reflexivity.
Qed.

Lemma NoDup_uids_delete (items : list Item) i :
  NoDup (uids items) → NoDup (uids (delete i items)).
Proof.
  intros Hnd. unfold uids. rewrite list_fmap_delete.
  eapply sublist_NoDup; [exact Hnd|apply sublist_delete].
Qed.

Lemma handleItemStacking_loop_uids baseItem n i (items : list Item) toPlace :
  uids (handleItemStacking_loop n i items baseItem toPlace).1 = uids items.
Proof.
  revert i items toPlace. induction n as [|n IH]; intros i items toPlace; [done|].
  cbn [handleItemStacking_loop].
  destruct (items !! i) as [it|] eqn:Hit; [|done].
  destruct (_ || _); [apply IH|].
  case_bool_decide; [done|]. rewrite IH. by apply uids_set_quantity.
Qed.

Lemma addNewItemStacks_loop_uids gen baseItem options fuel k (items items' : list Item) toPlace :
  addNewItemStacks_loop gen fuel k items baseItem toPlace options = Some items' →
  ∃ n : nat, (n ≤ fuel)%nat ∧ uids items' = uids items ++ (gen <$> seq k n).
Proof.
  revert k items toPlace.
  induction fuel as [|fuel IH]; intros k items toPlace; cbn [addNewItemStacks_loop];
    case_bool_decide as Hpos; try done.
  - intros [= <-]. exists 0%nat. split; [lia|]. cbn. by rewrite app_nil_r.
  - intros Hloop. apply IH in Hloop as (n & Hn & Hu).
    exists (S n). split; [lia|]. rewrite Hu. unfold uids.
    rewrite fmap_app, <- app_assoc. cbn. by destruct (opt_data options).
  - intros [= <-]. exists 0%nat. split; [lia|]. cbn. by rewrite app_nil_r.
Qed.

Lemma NoDup_app_seq_prefix (l : list string) (gen : nat → string) (n fuel : nat) :
  (n ≤ fuel)%nat → NoDup (l ++ (gen <$> seq 0 fuel)) → NoDup (l ++ (gen <$> seq 0 n)).
Proof.
  intros Hn Hnd. replace fuel with (n + (fuel - n))%nat in Hnd by lia.
  rewrite seq_app, fmap_app, app_assoc in Hnd.
  by apply list.NoDup_app in Hnd as [Hnd _].
Qed.

Lemma add_uids cfg cat gen fuel i toPlace (items items' : list Item) options :
  add cfg cat gen fuel i toPlace items options = Some (Done items') →
  ∃ n : nat, (n ≤ fuel)%nat ∧ uids items' = uids items ++ (gen <$> seq 0 n).
Proof.
  unfold add, getBaseItem, cloneItems.
  destruct (cat !! i) as [baseItem|]; [|done].
  assert (Hnew : ∀ l q,
            addNewItemStacks cfg gen fuel l baseItem q options = Some (Done items') →
            ∃ n : nat, (n ≤ fuel)%nat ∧ uids items' = uids l ++ (gen <$> seq 0 n)).
  { intros l q. unfold addNewItemStacks.
    destruct (addNewItemStacks_loop gen fuel 0 l baseItem q options) as [l'|] eqn:Hloop;
      [|done]. cbn.
    destruct (verifyStackAndWeight cfg l' options); [|done].
    intros [= <-]. by eapply addNewItemStacks_loop_uids. }
  case_bool_decide; [by apply Hnew|].
  unfold handleItemStacking. rewrite bool_decide_eq_false_2 by done.
  pose proof (handleItemStacking_loop_uids baseItem (length items) 0 items toPlace) as Hfill.
  destruct (handleItemStacking_loop _ _ _ _ _) as [filled remaining]. cbn [fst] in Hfill.
  case_bool_decide.
  - intros Hres%Hnew. by rewrite Hfill in Hres.
  - intros [= <-]. exists 0%nat. split; [lia|]. cbn. by rewrite app_nil_r.
Qed.

Lemma stack_uids cat uidToStackOn uidToStack (items items' : list Item) :
  NoDup (uids items) →
  stack cat uidToStackOn uidToStack items = Done items' →
  NoDup (uids items').
Proof.
  intros Hnd. unfold stack, cloneItems, getBaseItem.
  destruct (list_find (λ x : Item, uid x = uidToStackOn) items) as [[ti target]|] eqn:Ht;
    [|done].
  destruct (list_find (λ x : Item, uid x = uidToStack) items) as [[si source]|] eqn:Hs;
    [|done].
  apply list_find_lookup in Ht as [Ht _].
  case_bool_decide; [done|].
  destruct (cat !! id source) as [baseItem|]; [|done].
  case_bool_decide; [done|]. case_bool_decide; [done|].
  set (items1 := <[ti := _]> items).
  assert (Hu1 : uids items1 = uids items) by by apply uids_set_quantity.
  destruct (items1 !! si) as [source'|] eqn:Hs'; [|done].
  case_bool_decide; intros [= <-].
  - rewrite uids_set_quantity by done. by rewrite Hu1.
  - apply NoDup_uids_delete. by rewrite Hu1.
Qed.

Lemma NoDup_insert_fresh (l : list string) i (u v : string) :
  NoDup l → l !! i = Some u → v = u ∨ v ∉ l → NoDup (<[i := v]> l).
Proof.
  intros Hnd Hi [->|Hv]; [by rewrite list_insert_id|].
  rewrite insert_take_drop by (by eapply lookup_lt_Some).
  rewrite <- (take_drop_middle l i u Hi) in Hnd, Hv.
  apply list.NoDup_app in Hnd as (Hnd1 & Hdisj & Hnd2).
  apply list.NoDup_cons in Hnd2 as [Hu Hnd2].
  apply list.NoDup_app. split_and!; [done| |].
  - intros x Hx [->|Hx']%elem_of_cons.
    + apply Hv. apply elem_of_app. by left.
    + apply (Hdisj x Hx). by right.
  - apply list.NoDup_cons. split; [|done].
    intros Hv'. apply Hv. apply elem_of_app. right. by right.
Qed.

(** C9, as the code has it.  When the identifiers a call brings in are
    fresh ([freshCall]) and the identifiers of the collection are pairwise
    distinct, so are those of the collection a successful operation
    returns.  The stacks that [add] creates carry the identifiers drawn
    from the generator, in order, after those of the collection; [split]
    appends the one it draws. *)
Theorem operations_keep_identifiers_unique
    cfg cat gen fuel (op : Op) (items items' : list Item) :
  freshCall gen fuel op items →
  NoDup (uids items) →
  run cfg cat gen fuel op items = Some (Done items') →
  NoDup (uids items')
  ∧ match op with
    | OpAdd _ _ _ =>
        ∃ n : nat, (n ≤ fuel)%nat ∧ uids items' = uids items ++ (gen <$> seq 0 n)
    | OpSplit _ _ _ => uids items' = uids items ++ [gen 0%nat]
    | _ => True
    end.
Proof.
  intros Hcall Hnd. destruct op as [i q o|item o|u q|u|u q|u a o|u1 u2|u p|];
    cbn [run freshCall] in *.
  - intros (n & Hn & Hu)%add_uids. split; [|by exists n].
    rewrite Hu. by eapply NoDup_app_seq_prefix.
  - unfold addSpecificItem, cloneItems.
    destruct (@verifyStackAndWeight _ _ _ _ _ _); [|done]. intros [= <-]. split; [|done].
    unfold uids in *. rewrite fmap_app. apply list.NoDup_app. split_and!; [done| |].
    + intros x Hx ->%list_elem_of_singleton. done.
    + apply NoDup_singleton.
  - unfold remove, cloneItems.
    destruct (list_find _ items) as [[idx it]|] eqn:Hf; [|done].
    apply list_find_lookup in Hf as [Hf _].
    repeat case_bool_decide; try done; intros [= <-]; (split; [|done]).
    + by apply NoDup_uids_delete.
    + by rewrite uids_set_quantity.
  - unfold removeAt, cloneItems.
    destruct (list_find _ items) as [[idx it]|] eqn:Hf; [|done].
    intros [= <-]. split; [|done]. by apply NoDup_uids_delete.
  - unfold removeQuantityFrom, cloneItems.
    destruct (list_find _ items) as [[idx it]|] eqn:Hf; [|done].
    apply list_find_lookup in Hf as [Hf _].
    repeat case_bool_decide; try done; intros [= <-]; (split; [|done]).
    + by apply NoDup_uids_delete.
    + by rewrite uids_set_quantity.
  - unfold split, cloneItems.
    destruct (list_find _ items) as [[idx it]|] eqn:Hf; [|done].
    apply list_find_lookup in Hf as [Hf _].
    destruct (getBaseItem cat (id it)); [|done].
    destruct (_ || _); [done|].
    destruct (@verifyStackAndWeight _ _ _ _ _ _); [|done]. intros [= <-].
    assert (Hu : uids (<[idx := set_quantity (quantity it - a) it]> items ++
                       [set_uid (gen 0%nat) (set_quantity a (set_quantity (quantity it - a) it))])
                 = uids items ++ [gen 0%nat]).
    { unfold uids at 1. rewrite fmap_app. fold (uids (<[idx := set_quantity (quantity it - a) it]> items)).
      by rewrite uids_set_quantity. }
    rewrite Hu. split; [|done].
    apply list.NoDup_app. split_and!; [done| |apply NoDup_singleton].
    intros x Hx ->%list_elem_of_singleton. done.
  - intros [= H]. split; [|done]. by eapply stack_uids.
  - unfold update, cloneItems.
    destruct (list_find _ items) as [[idx it]|] eqn:Hf; [|done].
    apply list_find_lookup in Hf as [Hf Hu].
    destruct (match p_decay p with Some d => _ | None => _ end); intros [= <-];
      (split; [|done]).
    + by apply NoDup_uids_delete.
    + unfold uids in *. rewrite list_fmap_insert.
      apply (NoDup_insert_fresh _ _ (uid it)); [done|by rewrite list_lookup_fmap, Hf|].
      cbn. destruct (p_uid p) as [v|] eqn:Hv; cbn; [|by left].
      destruct (Hcall v eq_refl) as [->|Hfresh]; [by left|by right].
  - intros [= <-]. split; [|done]. rewrite invokeDecay_omap.
    unfold uids. clear Hcall. induction items as [|it l IH]; [constructor|].
    cbn in Hnd. apply list.NoDup_cons in Hnd as [Hit Hl]. cbn [omap list_omap].
    assert (Hsub : ∀ x, x ∈ uid <$> omap decayTick l → x ∈ uid <$> l).
    { clear. intros x. induction l as [|y l IH]; [done|]. cbn [omap list_omap].
      unfold decayTick at 1. destruct (decay y) as [d|].
      - case_bool_decide; cbn; rewrite ?elem_of_cons; tauto.
      - cbn. rewrite !elem_of_cons. tauto. }
    unfold decayTick at 1. destruct (decay it) as [d|].
    + case_bool_decide; [by apply IH|]. cbn. apply list.NoDup_cons. split; [|by apply IH].
      intros Hin. by apply Hit, Hsub.
    + cbn. apply list.NoDup_cons. split; [|by apply IH]. intros Hin. by apply Hit, Hsub.
Qed.

Lemma operations_keep_identifiers_unique_witness :
  NoDup (uids [Sample.bottles "a" 5; Sample.bottles (Sample.generate 0) 2]).
Proof.
  refine (proj1 (operations_keep_identifiers_unique Sample.config Sample.catalogue
           Sample.generate 2 (OpAdd "water_bottle" 4 noOptions) [Sample.bottles "a" 3]
           _ _ _ _)).
  - cbn. apply (bool_decide_unpack _). vm_compute. exact I.
  - cbn. apply (bool_decide_unpack _). vm_compute. exact I.
  - reflexivity.
Defined.

(** [addSpecificItem] appends a stack whose identifier is already in the
    collection. *)
Lemma addSpecificItem_duplicate_counterexample :
  ¬ (∀ cfg cat gen fuel (op : Op) (items items' : list Item),
       NoDup (uids items) →
       run cfg cat gen fuel op items = Some (Done items') →
       NoDup (uids items')).
Proof.
  intros H.
  specialize (H Sample.config Sample.catalogue Sample.generate 0%nat
                (OpAddSpecificItem (Sample.bottles "a" 1) noOptions)
                [Sample.bottles "a" 3]
                [Sample.bottles "a" 3; Sample.bottles "a" 1]).
  assert (Hin : NoDup (uids [Sample.bottles "a" 3])) by apply NoDup_singleton.
  specialize (H Hin eq_refl). cbn in H.
  apply list.NoDup_cons in H as [H _]. apply H. by left.
Qed.

(** ** Stack-merge *)

Lemma totalQuantity_shift i (l : list Item) (a : Z) :
  foldl (λ sum (item : Item),
           if bool_decide (id item = i) then sum + quantity item else sum) a l
  = a + totalQuantity i l.
Proof.
  unfold totalQuantity. revert a.
  induction l as [|x l IH]; intros a; cbn [foldl]; [lia|].
  case_bool_decide; rewrite IH; [rewrite (IH (0 + _))|]; lia.
Qed.

Lemma totalQuantity_cons i (it : Item) (items : list Item) :
  totalQuantity i (it :: items)
  = (if bool_decide (id it = i) then quantity it else 0) + totalQuantity i items.
Proof.
  unfold totalQuantity at 1. cbn [foldl].
  case_bool_decide; rewrite totalQuantity_shift; lia.
Qed.

Lemma totalQuantity_app i (l1 l2 : list Item) :
  totalQuantity i (l1 ++ l2) = totalQuantity i l1 + totalQuantity i l2.
Proof.
  induction l1 as [|x l1 IH]; [reflexivity|].
  rewrite <- app_comm_cons, !totalQuantity_cons, IH. lia.
Qed.

Lemma totalQuantity_insert i (items : list Item) k (it : Item) q :
  items !! k = Some it → id it = i →
  totalQuantity i (<[k := set_quantity q it]> items)
  = totalQuantity i items - quantity it + q.
Proof.
  intros Hk Hid. rewrite insert_take_drop by (by eapply lookup_lt_Some).
  rewrite <- (take_drop_middle items k it Hk) at 3.
  rewrite !totalQuantity_app, !totalQuantity_cons. cbn.
  rewrite !bool_decide_eq_true_2 by done. lia.
Qed.

Lemma totalQuantity_delete i (items : list Item) k (it : Item) :
  items !! k = Some it → id it = i →
  totalQuantity i (delete k items) = totalQuantity i items - quantity it.
Proof.
  intros Hk Hid. rewrite <- (take_drop_middle items k it Hk) at 2.
  rewrite delete_take_drop, !totalQuantity_app, !totalQuantity_cons.
  rewrite bool_decide_eq_true_2 by done. lia.
Qed.

(** What a merge of two different stacks does: the target is always filled
    up to its max-stack, whatever the source holds.  The units are conserved
    when the source holds at least the target's remaining capacity; a
    smaller source is deleted and the total of the item type grows by the
    difference. *)
Lemma stack_fills_target cat uidToStackOn uidToStack (items : list Item)
    ti si (target source : Item) baseItem :
  list_find (λ x : Item, uid x = uidToStackOn) items = Some (ti, target) →
  list_find (λ x : Item, uid x = uidToStack) items = Some (si, source) →
  ti ≠ si → id target = id source →
  cat !! id source = Some baseItem → 1 < maxStack baseItem →
  0 < maxStack target - quantity target →
  let diffToMax := maxStack target - quantity target in
  stack cat uidToStackOn uidToStack items
  = Done (if bool_decide (diffToMax < quantity source)
          then <[si := set_quantity (quantity source - diffToMax) source]>
                 (<[ti := set_quantity (maxStack target) target]> items)
          else delete si (<[ti := set_quantity (maxStack target) target]> items))
  ∧ ∀ items', stack cat uidToStackOn uidToStack items = Done items' →
      totalQuantity (id source) items'
      = totalQuantity (id source) items
        + (if bool_decide (diffToMax < quantity source) then 0
           else diffToMax - quantity source).
Proof.
  intros Ht Hs Hne Hid Hcat Hmax Hdiff diffToMax.
  unfold stack, cloneItems, getBaseItem. rewrite Ht, Hs.
  apply list_find_lookup in Ht as [Ht _]. apply list_find_lookup in Hs as [Hs _].
  rewrite bool_decide_eq_false_2 by (intros ?; done).
  rewrite Hcat. rewrite bool_decide_eq_false_2 by lia.
  rewrite bool_decide_eq_false_2 by lia.
  replace (quantity target + (maxStack target - quantity target))
    with (maxStack target) by lia.
  rewrite list_lookup_insert_ne by done. rewrite Hs. fold diffToMax.
  assert (Htot1 : totalQuantity (id source) (<[ti := set_quantity (maxStack target) target]> items)
                  = totalQuantity (id source) items + diffToMax).
  { rewrite totalQuantity_insert by done. unfold diffToMax. lia. }
  case_bool_decide; (split; [reflexivity|]); intros items' [= <-].
  - rewrite totalQuantity_insert; [|by rewrite list_lookup_insert_ne|done].
    rewrite Htot1. lia.
  - rewrite (totalQuantity_delete _ _ _ source); [|by rewrite list_lookup_insert_ne|done].
    rewrite Htot1. lia.
Qed.

(** C1 at a concrete collection.  A stack of one water bottle (max-stack 5)
    is merged with a stack of two: the call succeeds, the target comes back
    full with five bottles and the source is gone.  The collection held
    three bottles before the merge and holds five after it, where moving
    [min 4 2 = 2] units would have left a target of three. *)
Theorem stack_small_source_creates_units :
  let items := [Sample.bottles "a" 1; Sample.bottles "b" 2] in
  stack Sample.catalogue "a" "b" items = Done [Sample.bottles "a" 5]
  ∧ totalQuantity "water_bottle" items = 3
  ∧ totalQuantity "water_bottle" [Sample.bottles "a" 5] = 5
  ∧ Z.min (maxStack (Sample.bottles "a" 1) - quantity (Sample.bottles "a" 1))
          (quantity (Sample.bottles "b" 2)) = 2.
Proof. cbn zeta. split_and!; reflexivity. Qed.

(** ** Add and the capacity check *)

(** When the existing stacks take up the whole quantity, [handleItemStacking]
    returns the filled collection as it is: [verifyStackAndWeight] is called
    only by [addNewItemStacks]. *)
Lemma add_absorbed_is_not_checked cfg cat gen fuel i quantity (items : list Item)
    options baseItem :
  cat !! i = Some baseItem → 1 < maxStack baseItem →
  (greedyFill baseItem quantity items).2 ≤ 0 →
  add cfg cat gen fuel i quantity items options
  = Some (Done (greedyFill baseItem quantity items).1).
Proof.
  intros Hcat Hmax Hrest.
  rewrite (add_unfold_stackable cfg cat gen fuel i quantity items options baseItem Hcat Hmax).
  by rewrite bool_decide_eq_false_2 by lia.
Qed.

(** C2 at a concrete collection.  Weight is enforced and the call allows 3
    units of weight.  Adding four water bottles (weight 1 each) to a stack
    of one fills that stack to five: [add] returns the collection although
    the check rejects it.  Adding five makes a new stack, and that call is
    rejected. *)
Theorem add_absorbed_exceeds_weight_limit :
  let options := set_maxWeight (Some 3) noOptions in
  weight_enabled Sample.config = true
  ∧ (∀ fuel,
       add Sample.config Sample.catalogue Sample.generate fuel "water_bottle" 4
           [Sample.bottles "a" 1] options
       = Some (Done [Sample.bottles "a" 5]))
  ∧ totalWeight [Sample.bottles "a" 5] = 5
  ∧ verifyStackAndWeight Sample.config [Sample.bottles "a" 5] options = false
  ∧ add Sample.config Sample.catalogue Sample.generate 1 "water_bottle" 5
        [Sample.bottles "a" 1] options
    = Some (Undefined Messages.none).
Proof.
  cbn zeta. split_and!; [reflexivity| |reflexivity..].
  intros fuel.
  exact (add_absorbed_is_not_checked Sample.config Sample.catalogue Sample.generate
           fuel "water_bottle" 4 [Sample.bottles "a" 1]
           (set_maxWeight (Some 3) noOptions) Sample.water_bottle
           eq_refl eq_refl ltac:(by vm_compute)).
Qed.

(** ** Remove *)

(** [remove] looks the stack up by its stack identifier. *)
Lemma remove_found u quantity (items : list Item) i it :
  list_find (λ item : Item, uid item = u) items = Some (i, it) →
  remove u quantity items
  = if bool_decide (stackQuantity it < quantity) then Undefined Messages.none
    else if bool_decide (stackQuantity it = quantity) then Done (delete i items)
    else Done (<[i := set_quantity (stackQuantity it - quantity) it]> items).
Proof.
  intros Hfind. unfold remove, cloneItems. rewrite Hfind.
  repeat case_bool_decide; try reflexivity; lia.
Qed.

Lemma remove_not_found u quantity (items : list Item) :
  Forall (λ item : Item, uid item ≠ u) items →
  remove u quantity items = Undefined Messages.none.
Proof.
  intros Hall. unfold remove.
  by rewrite (proj2 (list_find_None (λ item : Item, uid item = u) items) Hall).
Qed.

(** C4 at a concrete collection.  The collection holds one stack of five
    water bottles.  Removing two by the item type ["water_bottle"] fails:
    no stack has that stack identifier.  The same removal by the stack's
    identifier succeeds and leaves three. *)
Theorem remove_by_item_type_finds_nothing :
  let items := [Sample.bottles "u1" 5] in
  id (Sample.bottles "u1" 5) = "water_bottle"
  ∧ remove "water_bottle" 2 items = Undefined Messages.none
  ∧ remove "u1" 2 items = Done [Sample.bottles "u1" 3].
Proof. cbn zeta. split_and!; reflexivity. Qed.


(** ** The object store: what a call leaves alone and what it hands back *)

Section StoreFacts.
Import Store.
Implicit Types (σ : store) (l a : loc) (it : ItemObj).

Lemma bind_Some {A B} (m : M A) (f : A → M B) σ b σ' :
  bind m f σ = Some (b, σ') ↔ ∃ x σ1, m σ = Some (x, σ1) ∧ f x σ1 = Some (b, σ').
Proof.
  unfold bind. destruct (m σ) as [[x σ1]|]; split.
  - intros H. by exists x, σ1.
  - by intros (? & ? & [= <- <-] & H).
  - done.
  - by intros (? & ? & ? & _).
Qed.

Lemma ret_Some {A} (x y : A) σ σ' : ret x σ = Some (y, σ') ↔ y = x ∧ σ' = σ.
Proof. unfold ret. split; [by intros [= <- <-]|by intros [-> ->]]. Qed.

Lemma alloc_Some o σ l σ' :
  alloc o σ = Some (l, σ') → (l ∉ dom σ) ∧ σ' = <[l := o]> σ ∧ σ ⊆ σ'.
Proof.
  unfold alloc. intros [= <- <-].
  pose proof (is_fresh (dom σ)) as Hfresh. split_and!; [done..|].
  apply insert_subseteq. by apply not_elem_of_dom.
Qed.

Lemma readArray_Some a σ ls σ' :
  readArray a σ = Some (ls, σ') → σ' = σ ∧ σ !! a = Some (OArray ls).
Proof.
  unfold readArray. destruct (σ !! a) as [[]|]; try done. by intros [= <- <-].
Qed.

Lemma readItem_Some l σ it σ' :
  readItem l σ = Some (it, σ') → σ' = σ ∧ σ !! l = Some (OItem it).
Proof.
  unfold readItem. destruct (σ !! l) as [[]|]; try done. by intros [= <- <-].
Qed.

Lemma readAll_Some ls σ its σ' : readAll ls σ = Some (its, σ') → σ' = σ.
Proof.
  revert its. induction ls as [|l ls IH]; intros its; cbn [readAll].
  - by intros [_ ->]%ret_Some.
  - intros (it & σ1 & [-> _]%readItem_Some & H)%bind_Some.
    apply bind_Some in H as (its' & σ2 & Hrest & [_ ->]%ret_Some).
    by apply IH in Hrest.
Qed.

Lemma readItems_Some a σ its σ' : readItems a σ = Some (its, σ') → σ' = σ.
Proof.
  unfold readItems.
  by intros (ls & σ1 & [-> _]%readArray_Some & ->%readAll_Some)%bind_Some.
Qed.

Lemma element_Some a i σ l σ' :
  element a i σ = Some (l, σ') →
  σ' = σ ∧ ∃ ls, σ !! a = Some (OArray ls) ∧ ls !! i = Some l.
Proof.
  unfold element. intros (ls & σ1 & [-> Ha]%readArray_Some & H)%bind_Some.
  destruct (ls !! i) as [l'|] eqn:Hi; [|done].
  apply ret_Some in H as [-> ->]. eauto.
Qed.

Lemma push_Some a l σ u σ' :
  push a l σ = Some (u, σ') →
  ∃ ls, σ !! a = Some (OArray ls) ∧ σ' = <[a := OArray (ls ++ [l])]> σ.
Proof.
  unfold push. intros (ls & σ1 & [-> Ha]%readArray_Some & H)%bind_Some.
  unfold writeArray in H. injection H as _ <-. eauto.
Qed.

Lemma splice_Some a i σ removed σ' :
  splice a i σ = Some (removed, σ') →
  ∃ ls, σ !! a = Some (OArray ls) ∧ σ' = <[a := OArray (delete i ls)]> σ
        ∧ removed = option_list (ls !! i).
Proof.
  unfold splice. intros (ls & σ1 & [-> Ha]%readArray_Some & H)%bind_Some.
  apply bind_Some in H as ([] & σ2 & Hw & [-> ->]%ret_Some).
  unfold writeArray in Hw. injection Hw as <-. eauto.
Qed.

(** Ownership survives everything that only adds objects. *)
Lemma ownedItem_mono σ0 handed σ σ' l :
  σ ⊆ σ' → ownedItem σ0 handed σ l → ownedItem σ0 handed σ' l.
Proof.
  intros Hsub (Hl & it & Hit & Hrefs). split; [done|]. exists it. split; [|done].
  by eapply lookup_weaken.
Qed.

Lemma owned_mono σ0 handed a σ σ' :
  σ ⊆ σ' → owned σ0 handed a σ → owned σ0 handed a σ'.
Proof.
  intros Hsub (H0 & Ha & ls & Hls & Hall). split_and!; [by etrans|done|].
  exists ls. split; [by eapply lookup_weaken|].
  eapply Forall_impl; [|exact Hall]. intros l. by apply ownedItem_mono.
Qed.

Lemma not_elem_of_dom_weaken σ0 σ l : σ0 ⊆ σ → l ∉ dom σ → l ∉ dom σ0.
Proof. intros Hsub Hl Hl0. apply Hl. by eapply (subseteq_dom σ0 σ). Qed.

Lemma allowed_weaken σ0 σ1 handed handed' r :
  σ0 ⊆ σ1 → handed ⊆ handed' → allowed σ1 handed r → allowed σ0 handed' r.
Proof.
  intros Hsub Hh [Hr|Hr]; [left; by eapply not_elem_of_dom_weaken|right; by apply Hh].
Qed.

Lemma ownedItem_weaken σ0 σ1 handed handed' σ l :
  σ0 ⊆ σ1 → handed ⊆ handed' → ownedItem σ1 handed σ l → ownedItem σ0 handed' σ l.
Proof.
  intros Hsub Hh (Hl & it & Hit & Hrefs). split; [by eapply not_elem_of_dom_weaken|].
  exists it. split; [done|]. eapply Forall_impl; [|exact Hrefs].
  intros r. by apply allowed_weaken.
Qed.

Lemma owned_weaken σ0 σ1 handed handed' a σ :
  σ0 ⊆ σ1 → handed ⊆ handed' → owned σ1 handed a σ → owned σ0 handed' a σ.
Proof.
  intros Hsub Hh (H1 & Ha & ls & Hls & Hall).
  split_and!; [by etrans|by eapply not_elem_of_dom_weaken|].
  exists ls. split; [done|]. eapply Forall_impl; [|exact Hall].
  intros l. by apply ownedItem_weaken.
Qed.

(** Writing the array of an owned collection. *)
Lemma owned_writeArray σ0 handed a σ ls' :
  owned σ0 handed a σ → Forall (ownedItem σ0 handed σ) ls' →
  owned σ0 handed a (<[a := OArray ls']> σ).
Proof.
  intros (H0 & Ha & ls & Hls & Hall) Hall'. split_and!.
  - apply insert_subseteq_r; [by apply not_elem_of_dom|done].
  - done.
  - exists ls'. split; [by rewrite lookup_insert_eq|].
    eapply Forall_impl; [|exact Hall']. intros l (Hl & it & Hit & Hrefs).
    split; [done|]. exists it. split; [|done].
    rewrite lookup_insert_ne; [done|]. intros ->. congruence.
Qed.

(** Writing a stack of an owned collection. *)
Lemma owned_writeItem σ0 handed a σ l it' :
  owned σ0 handed a σ → ownedItem σ0 handed σ l →
  Forall (allowed σ0 handed) (nestedRefs it') →
  owned σ0 handed a (<[l := OItem it']> σ).
Proof.
  intros (H0 & Ha & ls & Hls & Hall) (Hl & it & Hit & Hrefs) Hrefs'. split_and!.
  - apply insert_subseteq_r; [by apply not_elem_of_dom|done].
  - done.
  - exists ls. split.
    { rewrite lookup_insert_ne; [done|]. intros ->. congruence. }
    eapply Forall_impl; [|exact Hall]. intros l2 (Hl2 & it2 & Hit2 & Hrefs2).
    split; [done|]. destruct (decide (l = l2)) as [<-|Hne].
    + exists it'. by rewrite lookup_insert_eq.
    + exists it2. by rewrite lookup_insert_ne.
Qed.

Lemma ownedItem_writeItem σ0 handed σ l l2 it' :
  ownedItem σ0 handed σ l → ownedItem σ0 handed σ l2 →
  Forall (allowed σ0 handed) (nestedRefs it') →
  ownedItem σ0 handed (<[l := OItem it']> σ) l2.
Proof.
  intros (Hl & it & Hit & Hrefs) (Hl2 & it2 & Hit2 & Hrefs2) Hrefs'.
  split; [done|]. destruct (decide (l = l2)) as [<-|Hne].
  - exists it'. by rewrite lookup_insert_eq.
  - exists it2. by rewrite lookup_insert_ne.
Qed.

Lemma owned_element σ0 handed a σ ls i l :
  owned σ0 handed a σ → σ !! a = Some (OArray ls) → ls !! i = Some l →
  ownedItem σ0 handed σ l.
Proof.
  intros (_ & _ & ls' & Hls' & Hall) Hls Hi.
  assert (ls' = ls) as -> by congruence.
  by eapply Forall_lookup_1.
Qed.

Lemma owned_push σ0 handed a σ ls l :
  owned σ0 handed a σ → σ !! a = Some (OArray ls) → ownedItem σ0 handed σ l →
  owned σ0 handed a (<[a := OArray (ls ++ [l])]> σ).
Proof.
  intros Hown Hls Hl. apply owned_writeArray; [done|].
  destruct Hown as (_ & _ & ls' & Hls' & Hall).
  assert (ls' = ls) as -> by congruence.
  apply Forall_app. split; [done|]. by constructor.
Qed.

Lemma owned_splice σ0 handed a σ ls i :
  owned σ0 handed a σ → σ !! a = Some (OArray ls) →
  owned σ0 handed a (<[a := OArray (delete i ls)]> σ).
Proof.
  intros Hown Hls. apply owned_writeArray; [done|].
  destruct Hown as (_ & _ & ls' & Hls' & Hall).
  assert (ls' = ls) as -> by congruence.
  by apply Forall_delete.
Qed.

Lemma readData_Some l σ d σ' : readData l σ = Some (d, σ') → σ' = σ.
Proof.
  unfold readData. destruct (σ !! l) as [[]|]; try done. by intros [= <- <-].
Qed.

Lemma readPosition_Some l σ p σ' : readPosition l σ = Some (p, σ') → σ' = σ.
Proof.
  unfold readPosition. destruct (σ !! l) as [[]|]; try done. by intros [= <- <-].
Qed.

Lemma readRules_Some l σ r σ' : readRules l σ = Some (r, σ') → σ' = σ.
Proof.
  unfold readRules. destruct (σ !! l) as [[]|]; try done. by intros [= <- <-].
Qed.

Lemma cloneNested_Some {A} (read : loc → M A) (mk : A → object) r σ r' σ' :
  (∀ l σ v σ1, read l σ = Some (v, σ1) → σ1 = σ) →
  cloneNested read mk r σ = Some (r', σ') →
  σ ⊆ σ' ∧ Forall (λ x, x ∉ dom σ) (option_list r').
Proof.
  intros Hread. unfold cloneNested. destruct r as [l|].
  - intros (v & σ1 & ->%Hread & H)%bind_Some.
    apply bind_Some in H as (l' & σ2 & (Hl' & _ & Hsub)%alloc_Some & [-> ->]%ret_Some).
    split; [done|]. by repeat constructor.
  - intros [-> ->]%ret_Some. split; [done|constructor].
Qed.

Lemma allocNested_Some {A} (mk : A → object) (v : option A) σ r' σ' :
  allocNested mk v σ = Some (r', σ') →
  σ ⊆ σ' ∧ Forall (λ x, x ∉ dom σ) (option_list r').
Proof.
  unfold allocNested. destruct v as [v|].
  - intros (l' & σ2 & (Hl' & _ & Hsub)%alloc_Some & [-> ->]%ret_Some)%bind_Some.
    split; [done|]. by repeat constructor.
  - intros [-> ->]%ret_Some. split; [done|constructor].
Qed.

Lemma Forall_fresh_weaken σ σ1 (rs : list loc) :
  σ ⊆ σ1 → Forall (λ x, x ∉ dom σ1) rs → Forall (λ x, x ∉ dom σ) rs.
Proof.
  intros Hsub Hrs. eapply Forall_impl; [|exact Hrs].
  intros x. by apply not_elem_of_dom_weaken.
Qed.

Lemma Forall_fresh_allowed σ handed (rs : list loc) :
  Forall (λ x, x ∉ dom σ) rs → Forall (allowed σ handed) rs.
Proof. intros Hrs. eapply Forall_impl; [|exact Hrs]. intros x Hx. by left. Qed.

(** A copy of a stack is a new stack and its nested objects are new. *)
Lemma objectData_Some l σ l' σ' :
  objectData l σ = Some (l', σ') →
  σ ⊆ σ'
  ∧ (l' ∉ dom σ)
  ∧ ∃ it it', σ !! l = Some (OItem it)
      ∧ σ' !! l' = Some (OItem it')
      ∧ it' = retarget (data it') (position it') (rules it') it
      ∧ Forall (λ x, x ∉ dom σ) (nestedRefs it').
Proof.
  unfold objectData. intros (it & σ1 & [-> Hit]%readItem_Some & H)%bind_Some.
  apply bind_Some in H as (d & σ2 & [Hs2 Hd]%(cloneNested_Some _ _ _ _ _ _ readData_Some) & H).
  apply bind_Some in H as (p & σ3 & [Hs3 Hp]%(cloneNested_Some _ _ _ _ _ _ readPosition_Some) & H).
  apply bind_Some in H as (r & σ4 & [Hs4 Hr]%(cloneNested_Some _ _ _ _ _ _ readRules_Some) & H).
  apply alloc_Some in H as (Hl' & -> & Hs5).
  assert (Hs14 : σ ⊆ σ4) by (etrans; [exact Hs2|]; by etrans).
  split_and!.
  - by etrans.
  - by eapply not_elem_of_dom_weaken.
  - exists it, (retarget d p r it). split_and!; [done|by rewrite lookup_insert_eq|done|].
    unfold nestedRefs. cbn. rewrite !Forall_app. split_and!; [done| |].
    + eapply Forall_fresh_weaken; [exact Hs2|exact Hp].
    + eapply Forall_fresh_weaken; [|exact Hr]. etrans; [exact Hs2|exact Hs3].
Qed.

Lemma objectData_owned l σ l' σ' :
  objectData l σ = Some (l', σ') → σ ⊆ σ' ∧ ownedItem σ [] σ' l'.
Proof.
  intros (Hsub & Hl' & it & it' & _ & Hit' & _ & Hrefs)%objectData_Some.
  split; [done|]. split; [done|]. exists it'. split; [done|].
  by apply Forall_fresh_allowed.
Qed.

Lemma cloneElements_Some ls σ ls' σ' :
  cloneElements ls σ = Some (ls', σ') →
  σ ⊆ σ' ∧ Forall (ownedItem σ [] σ') ls'.
Proof.
  revert σ ls' σ'. induction ls as [|l ls IH]; intros σ ls' σ'; cbn [cloneElements].
  - intros [-> ->]%ret_Some. split; [done|constructor].
  - intros (l' & σ1 & [Hs1 Hl']%objectData_owned & H)%bind_Some.
    apply bind_Some in H as (ls1 & σ2 & [Hs2 Hls1]%IH & [-> ->]%ret_Some).
    split; [by etrans|]. constructor.
    + by eapply ownedItem_mono.
    + eapply Forall_impl; [|exact Hls1]. intros x.
      by apply ownedItem_weaken.
Qed.

(** The copy [cloneItems] makes is an owned collection. *)
Lemma cloneItems_Some a σ a' σ' :
  Store.cloneItems a σ = Some (a', σ') → σ ⊆ σ' ∧ owned σ [] a' σ'.
Proof.
  unfold Store.cloneItems. intros (ls & σ1 & [-> Ha]%readArray_Some & H)%bind_Some.
  apply bind_Some in H as (ls' & σ2 & [Hs2 Hls']%cloneElements_Some & H).
  apply alloc_Some in H as (Ha' & -> & Hs3).
  split; [by etrans|]. split_and!; [by etrans|by eapply not_elem_of_dom_weaken|].
  exists ls'. split; [by rewrite lookup_insert_eq|].
  eapply Forall_impl; [|exact Hls']. intros x. by apply ownedItem_mono.
Qed.

Lemma getBaseItem_Some cat i σ ob σ' :
  Store.getBaseItem cat i σ = Some (ob, σ') →
  σ ⊆ σ'
  ∧ ∀ b, ob = Some b →
      Forall (λ x, x ∉ dom σ) (option_list (position b) ++ option_list (rules b)).
Proof.
  unfold Store.getBaseItem. destruct (cat !! i) as [b|].
  - intros (p & σ1 & [Hs1 Hp]%allocNested_Some & H)%bind_Some.
    apply bind_Some in H as (r & σ2 & [Hs2 Hr]%allocNested_Some & [-> ->]%ret_Some).
    split; [by etrans|]. intros ? [= <-]. cbn. apply Forall_app. split; [done|].
    eapply Forall_fresh_weaken; [exact Hs1|exact Hr].
  - intros [-> ->]%ret_Some. split; [done|]. by intros.
Qed.

Lemma verified_hands_back cfg σ0 handed a options σ res σ' :
  owned σ0 handed a σ →
  verified cfg a options σ = Some (res, σ') →
  hands_back σ0 handed res σ'.
Proof.
  intros Hown. unfold verified.
  intros (its & σ1 & ->%readItems_Some & [-> ->]%ret_Some)%bind_Some.
  split; [by destruct Hown|].
  intros a'. destruct (verifyStackAndWeight cfg its options); [|done].
  by intros [= <-].
Qed.

Lemma ownedItem_refs σ0 handed σ l it :
  ownedItem σ0 handed σ l → σ !! l = Some (OItem it) →
  Forall (allowed σ0 handed) (nestedRefs it).
Proof. intros (_ & it' & Hit' & Hrefs) Hit. congruence. Qed.

(** [items[i].field = v]: a write into a stack of the owned collection that
    keeps to allowed references. *)
Lemma owned_update_element σ0 handed a σ ls i l it' :
  owned σ0 handed a σ → σ !! a = Some (OArray ls) → ls !! i = Some l →
  Forall (allowed σ0 handed) (nestedRefs it') →
  owned σ0 handed a (<[l := OItem it']> σ).
Proof.
  intros Hown Hls Hi Hrefs. apply owned_writeItem; [done| |done].
  by eapply owned_element.
Qed.

Lemma element_refs σ0 handed a σ ls i l it :
  owned σ0 handed a σ → σ !! a = Some (OArray ls) → ls !! i = Some l →
  σ !! l = Some (OItem it) → Forall (allowed σ0 handed) (nestedRefs it).
Proof.
  intros Hown Hls Hi Hit. eapply ownedItem_refs; [|exact Hit].
  by eapply owned_element.
Qed.

Lemma handleItemStacking_loop_owned σ0 handed (b : BaseObj) n i a q σ q' σ' :
  owned σ0 handed a σ →
  Store.handleItemStacking_loop n i a b q σ = Some (q', σ') →
  owned σ0 handed a σ'.
Proof.
  revert i q σ. induction n as [|n IH]; intros i q σ Hown;
    cbn [Store.handleItemStacking_loop].
  { by intros [_ ->]%ret_Some. }
  intros (ls & σ1 & [-> Hls]%readArray_Some & H)%bind_Some.
  destruct (ls !! i) as [l|] eqn:Hi; [|by apply ret_Some in H as [_ ->]].
  apply bind_Some in H as (it & σ1 & [-> Hit]%readItem_Some & H).
  destruct (_ || _); [by eapply IH|].
  case_bool_decide; [by apply ret_Some in H as [_ ->]|].
  apply bind_Some in H as ([] & σ1 & Hw & H).
  unfold writeItem in Hw. injection Hw as <-.
  eapply IH; [|exact H].
  eapply owned_update_element; [done..|].
  by eapply (element_refs σ0 handed a σ ls i l it).
Qed.

Lemma addNewItemStacks_loop_owned gen σ0 handed (b : BaseObj) (o : OptionsObj)
    fuel k a q σ u σ' :
  Forall (allowed σ0 handed) (option_list (position b) ++ option_list (rules b)) →
  Forall (allowed σ0 handed) (option_list (opt_data o)) →
  owned σ0 handed a σ →
  Store.addNewItemStacks_loop gen fuel k a b q o σ = Some (u, σ') →
  owned σ0 handed a σ'.
Proof.
  intros Hb Ho. revert k q σ. induction fuel as [|fuel IH]; intros k q σ Hown;
    cbn [Store.addNewItemStacks_loop]; case_bool_decide as Hq;
    try done; try (by intros [_ ->]%ret_Some).
  intros (l & σ1 & (Hl & -> & Hsub)%alloc_Some & H)%bind_Some.
  apply bind_Some in H as ([] & σ2 & (ls & Hls & ->)%push_Some & H).
  eapply IH; [|exact H].
  rewrite lookup_insert_ne in Hls.
  2:{ intros ->. destruct Hown as (_ & _ & ls' & Hls' & _).
      apply Hl. apply elem_of_dom. by eexists. }
  apply owned_push.
  - by eapply owned_mono.
  - rewrite lookup_insert_ne; [done|].
    intros ->. apply Hl. apply elem_of_dom. by eexists.
  - split.
    + eapply not_elem_of_dom_weaken; [|exact Hl]. by destruct Hown.
    + eexists. split; [by rewrite lookup_insert_eq|].
      destruct (opt_data o) as [d|]; unfold nestedRefs; cbn.
      * constructor; [|done]. by inversion Ho.
      * done.
Qed.

Lemma addNewItemStacks_hands_back cfg gen σ0 handed (b : BaseObj) (o : OptionsObj)
    fuel a q σ res σ' :
  Forall (allowed σ0 handed) (option_list (position b) ++ option_list (rules b)) →
  Forall (allowed σ0 handed) (option_list (opt_data o)) →
  owned σ0 handed a σ →
  Store.addNewItemStacks cfg gen fuel a b q o σ = Some (res, σ') →
  hands_back σ0 handed res σ'.
Proof.
  intros Hb Ho Hown. unfold Store.addNewItemStacks.
  intros ([] & σ1 & Hloop & H)%bind_Some.
  eapply verified_hands_back; [|exact H].
  by eapply addNewItemStacks_loop_owned.
Qed.

Lemma add_hands_back cfg cat gen fuel i q o a σ0 res σ' :
  Store.add cfg cat gen fuel i q a o σ0 = Some (res, σ') →
  hands_back σ0 (option_list (opt_data o)) res σ'.
Proof.
  unfold Store.add. intros (ob & σ1 & [Hs1 Hrefs]%getBaseItem_Some & H)%bind_Some.
  destruct ob as [b|].
  2:{ apply ret_Some in H as [-> ->]. split; [done|]. by intros. }
  specialize (Hrefs b eq_refl).
  apply bind_Some in H as (a' & σ2 & [Hs2 Hown]%cloneItems_Some & H).
  assert (Hown' : owned σ0 (option_list (opt_data o)) a' σ2).
  { eapply owned_weaken; [exact Hs1| |exact Hown]. set_solver. }
  assert (Hb : Forall (allowed σ0 (option_list (opt_data o)))
                 (option_list (position b) ++ option_list (rules b))).
  { by apply Forall_fresh_allowed. }
  assert (Ho : Forall (allowed σ0 (option_list (opt_data o))) (option_list (opt_data o))).
  { apply list.Forall_forall. intros x Hx. by right. }
  assert (Hnew : ∀ q σ res σ',
            owned σ0 (option_list (opt_data o)) a' σ →
            Store.addNewItemStacks cfg gen fuel a' b q o σ = Some (res, σ') →
            hands_back σ0 (option_list (opt_data o)) res σ').
  { intros. by eapply addNewItemStacks_hands_back. }
  case_bool_decide; [by eapply Hnew|].
  unfold Store.handleItemStacking in H. rewrite bool_decide_eq_false_2 in H by done.
  apply bind_Some in H as (ls & σ3 & [-> Hls]%readArray_Some & H).
  apply bind_Some in H as (q' & σ3 & Hloop & H).
  apply handleItemStacking_loop_owned with (σ0 := σ0) (handed := option_list (opt_data o))
    in Hloop; [|done].
  case_bool_decide; [eapply Hnew; [exact Hloop|exact H]|].
  apply ret_Some in H as [-> ->]. split; [by destruct Hloop|]. by intros ? [= <-].
Qed.

Lemma splice_owned σ0 handed a i σ removed σ' :
  owned σ0 handed a σ → splice a i σ = Some (removed, σ') →
  owned σ0 handed a σ'
  ∧ Forall (λ l, l ∉ dom σ0) removed.
Proof.
  intros Hown (ls & Hls & -> & ->)%splice_Some. split; [by apply owned_splice|].
  destruct (ls !! i) as [l|] eqn:Hi; [|constructor].
  repeat constructor. by destruct (owned_element _ _ _ _ _ _ _ Hown Hls Hi).
Qed.

Lemma element_read_owned σ0 handed a i σ l σ1 it σ2 :
  owned σ0 handed a σ → element a i σ = Some (l, σ1) →
  readItem l σ1 = Some (it, σ2) →
  σ2 = σ ∧ ownedItem σ0 handed σ l ∧ Forall (allowed σ0 handed) (nestedRefs it).
Proof.
  intros Hown (-> & ls & Hls & Hi)%element_Some [-> Hit]%readItem_Some.
  split; [done|]. split; [by eapply owned_element|by eapply element_refs].
Qed.

Lemma writeItem_owned σ0 handed a σ l it' u σ' :
  owned σ0 handed a σ → ownedItem σ0 handed σ l →
  Forall (allowed σ0 handed) (nestedRefs it') →
  writeItem l it' σ = Some (u, σ') →
  owned σ0 handed a σ'.
Proof.
  intros Hown Hl Hrefs. unfold writeItem. intros [= <- <-]. by apply owned_writeItem.
Qed.

Lemma Done_hands_back σ0 handed a σ :
  owned σ0 handed a σ → hands_back σ0 handed (Done a) σ.
Proof. intros Hown. split; [by destruct Hown|]. by intros ? [= <-]. Qed.

Lemma Undefined_hands_back σ0 handed msg σ :
  σ0 ⊆ σ → hands_back σ0 handed (Undefined msg) σ.
Proof. intros Hsub. split; [done|]. by intros. Qed.

Lemma owned_subseteq σ0 handed a σ : owned σ0 handed a σ → σ0 ⊆ σ.
Proof. by intros [? _]. Qed.

Lemma addSpecificItem_hands_back cfg item o a σ0 res σ' :
  Store.addSpecificItem cfg item a o σ0 = Some (res, σ') →
  σ0 ⊆ σ' ∧ (item ∈ dom σ0 → hands_back σ0 (itemRefs σ0 item) res σ').
Proof.
  unfold Store.addSpecificItem.
  intros (a' & σ1 & [Hs1 Hown]%cloneItems_Some & H)%bind_Some.
  apply bind_Some in H as (it & σ2 & [-> Hit]%readItem_Some & H).
  apply bind_Some in H as (l & σ2 & (Hl & -> & Hs2)%alloc_Some & H).
  apply bind_Some in H as ([] & σ3 & (ls & Hls & ->)%push_Some & H).
  apply bind_Some in H as (its & σ4 & ->%readItems_Some & [-> ->]%ret_Some).
  assert (Hne : l ≠ a').
  { intros ->. destruct Hown as (_ & _ & ls' & Hls' & _).
    apply Hl. apply elem_of_dom. by eexists. }
  rewrite lookup_insert_ne in Hls by done.
  assert (Hsub : σ0 ⊆ <[a' := OArray (ls ++ [l])]> (<[l := OItem it]> σ1)).
  { apply insert_subseteq_r; [apply not_elem_of_dom; by destruct Hown as (_ & ? & _)|].
    by etrans. }
  split; [done|]. intros Hitem.
  destruct (verifyStackAndWeight cfg its o); [|by apply Undefined_hands_back].
  apply Done_hands_back. apply owned_push.
  - eapply owned_mono; [exact Hs2|].
    eapply (owned_weaken σ0 σ0 []); [done| |exact Hown]. set_solver.
  - by rewrite lookup_insert_ne.
  - split; [eapply not_elem_of_dom_weaken; [exact Hs1|exact Hl]|].
    exists it. split; [by rewrite lookup_insert_eq|].
    apply elem_of_dom in Hitem as [o0 Ho0].
    pose proof (lookup_weaken _ _ _ _ Ho0 Hs1) as Ho1.
    assert (o0 = OItem it) as -> by congruence.
    unfold itemRefs. rewrite Ho0. apply list.Forall_forall. intros x Hx. by right.
Qed.

Lemma remove_hands_back u q a σ0 res σ' :
  Store.remove u q a σ0 = Some (res, σ') → hands_back σ0 [] res σ'.
Proof.
  unfold Store.remove. intros (its & σ1 & ->%readItems_Some & H)%bind_Some.
  destruct (list_find _ its) as [[idx found]|];
    [|apply ret_Some in H as [-> ->]; by apply Undefined_hands_back].
  case_bool_decide; [apply ret_Some in H as [-> ->]; by apply Undefined_hands_back|].
  apply bind_Some in H as (a' & σ1 & [Hs1 Hown]%cloneItems_Some & H).
  apply bind_Some in H as (l & σ2 & Hel & H).
  apply bind_Some in H as (it & σ3 & Hrd & H).
  destruct (element_read_owned _ _ _ _ _ _ _ _ _ Hown Hel Hrd) as (-> & Hl & Hrefs).
  case_bool_decide.
  - apply bind_Some in H as (removed & σ4 & [Hown' _]%(splice_owned _ _ _ _ _ _ _ Hown)
                             & [-> ->]%ret_Some).
    by apply Done_hands_back.
  - apply bind_Some in H as ([] & σ4 & Hw & [-> ->]%ret_Some).
    apply Done_hands_back.
    eapply writeItem_owned; [exact Hown|exact Hl| |exact Hw]. exact Hrefs.
Qed.

Lemma removeAt_hands_back u a σ0 res σ' :
  Store.removeAt u a σ0 = Some (res, σ') →
  σ0 ⊆ σ'
  ∧ ∀ a' item, res = Done (a', item) → owned σ0 [] a' σ' ∧ (item ∉ dom σ0).
Proof.
  unfold Store.removeAt. intros (a' & σ1 & [Hs1 Hown]%cloneItems_Some & H)%bind_Some.
  apply bind_Some in H as (its & σ2 & ->%readItems_Some & H).
  destruct (list_find _ its) as [[idx found]|];
    [|apply ret_Some in H as [-> ->]; split; [done|by intros]].
  apply bind_Some in H as (removed & σ2 & [Hown' _]%(splice_owned _ _ _ _ _ _ _ Hown) & H).
  apply bind_Some in H as (item & σ3 & (Hitem & -> & Hs3)%alloc_Some & [-> ->]%ret_Some).
  pose proof (owned_subseteq _ _ _ _ Hown') as Hs2.
  split; [by etrans|]. intros ? ? [= <- <-]. split; [by eapply owned_mono|].
  by eapply not_elem_of_dom_weaken.
Qed.

Lemma removeQuantityFrom_hands_back u q a σ0 res σ' :
  Store.removeQuantityFrom u q a σ0 = Some (res, σ') → hands_back σ0 [] res σ'.
Proof.
  unfold Store.removeQuantityFrom.
  intros (a' & σ1 & [Hs1 Hown]%cloneItems_Some & H)%bind_Some.
  apply bind_Some in H as (its & σ2 & ->%readItems_Some & H).
  destruct (list_find _ its) as [[idx found]|];
    [|apply ret_Some in H as [-> ->]; by apply Undefined_hands_back].
  case_bool_decide; [apply ret_Some in H as [-> ->]; by apply Undefined_hands_back|].
  case_bool_decide.
  - apply bind_Some in H as (removed & σ4 & [Hown' _]%(splice_owned _ _ _ _ _ _ _ Hown)
                             & [-> ->]%ret_Some).
    by apply Done_hands_back.
  - apply bind_Some in H as (l & σ2 & Hel & H).
    apply bind_Some in H as (it & σ3 & Hrd & H).
    destruct (element_read_owned _ _ _ _ _ _ _ _ _ Hown Hel Hrd) as (-> & Hl & Hrefs).
    apply bind_Some in H as ([] & σ4 & Hw & [-> ->]%ret_Some).
    apply Done_hands_back.
    eapply writeItem_owned; [exact Hown|exact Hl| |exact Hw]. exact Hrefs.
Qed.

Lemma split_hands_back cfg cat gen u amount o a σ0 res σ' :
  Store.split cfg cat gen u amount a o σ0 = Some (res, σ') →
  hands_back σ0 [] res σ'.
Proof.
  unfold Store.split. intros (a' & σ1 & [Hs1 Hown]%cloneItems_Some & H)%bind_Some.
  apply bind_Some in H as (its & σ2 & ->%readItems_Some & H).
  destruct (list_find _ its) as [[idx found]|];
    [|apply ret_Some in H as [-> ->]; by apply Undefined_hands_back].
  apply bind_Some in H as (ob & σ2 & [Hs2 _]%getBaseItem_Some & H).
  assert (Hs02 : σ0 ⊆ σ2) by (by etrans).
  destruct ob as [b|]; [|apply ret_Some in H as [-> ->]; by apply Undefined_hands_back].
  destruct (_ || _); [apply ret_Some in H as [-> ->]; by apply Undefined_hands_back|].
  pose proof (owned_mono _ _ _ _ _ Hs2 Hown) as Hown2.
  apply bind_Some in H as (l & σ3 & Hel & H).
  apply bind_Some in H as (it & σ4 & Hrd & H).
  destruct (element_read_owned _ _ _ _ _ _ _ _ _ Hown2 Hel Hrd) as (-> & Hl & Hrefs).
  apply bind_Some in H as ([] & σ5 & Hw & H).
  assert (Hown5 : owned σ0 [] a' σ5).
  { eapply writeItem_owned; [exact Hown2|exact Hl| |exact Hw]. exact Hrefs. }
  apply bind_Some in H as (cl & σ6 & [Hs6 Hcl]%objectData_owned & H).
  apply bind_Some in H as (cloned & σ7 & [-> Hcloned]%readItem_Some & H).
  apply bind_Some in H as (n & σ7 & (Hn & -> & Hs7)%alloc_Some & H).
  apply bind_Some in H as ([] & σ8 & (ls & Hls & ->)%push_Some & H).
  eapply verified_hands_back; [|exact H].
  pose proof (owned_subseteq _ _ _ _ Hown5) as Hs05.
  pose proof (owned_mono _ _ _ _ _ Hs6 Hown5) as Hown6.
  assert (Hna : n ≠ a').
  { intros ->. destruct Hown6 as (_ & _ & ls' & Hls' & _).
    apply Hn. apply elem_of_dom. by eexists. }
  rewrite lookup_insert_ne in Hls by done.
  apply owned_push.
  - by eapply owned_mono.
  - by rewrite lookup_insert_ne.
  - split.
    + eapply not_elem_of_dom_weaken; [|exact Hn]. by etrans.
    + eexists. split; [by rewrite lookup_insert_eq|].
      apply (ownedItem_weaken σ0 σ5 [] []) in Hcl; [|done..].
      exact (ownedItem_refs _ _ _ _ _ Hcl Hcloned).
Qed.

Lemma stack_hands_back cat u1 u2 a σ0 res σ' :
  Store.stack cat u1 u2 a σ0 = Some (res, σ') → hands_back σ0 [] res σ'.
Proof.
  unfold Store.stack. intros (a' & σ1 & [Hs1 Hown]%cloneItems_Some & H)%bind_Some.
  apply bind_Some in H as (its & σ2 & ->%readItems_Some & H).
  destruct (list_find _ its) as [[ti target]|];
    [|apply ret_Some in H as [-> ->]; by apply Undefined_hands_back].
  destruct (list_find _ its) as [[si source]|];
    [|apply ret_Some in H as [-> ->]; by apply Undefined_hands_back].
  case_bool_decide; [apply ret_Some in H as [-> ->]; by apply Undefined_hands_back|].
  apply bind_Some in H as (ob & σ2 & [Hs2 _]%getBaseItem_Some & H).
  assert (Hs02 : σ0 ⊆ σ2) by (by etrans).
  destruct ob as [b|]; [|apply ret_Some in H as [-> ->]; by apply Undefined_hands_back].
  case_bool_decide; [apply ret_Some in H as [-> ->]; by apply Undefined_hands_back|].
  case_bool_decide; [apply ret_Some in H as [-> ->]; by apply Undefined_hands_back|].
  pose proof (owned_mono _ _ _ _ _ Hs2 Hown) as Hown2.
  apply bind_Some in H as (lt & σ3 & Hel & H).
  apply bind_Some in H as (t & σ4 & Hrd & H).
  destruct (element_read_owned _ _ _ _ _ _ _ _ _ Hown2 Hel Hrd) as (-> & Hl & Hrefs).
  apply bind_Some in H as ([] & σ5 & Hw & H).
  assert (Hown5 : owned σ0 [] a' σ5).
  { eapply writeItem_owned; [exact Hown2|exact Hl| |exact Hw]. exact Hrefs. }
  apply bind_Some in H as (ls & σ6 & Hel' & H).
  apply bind_Some in H as (s & σ7 & Hrd' & H).
  destruct (element_read_owned _ _ _ _ _ _ _ _ _ Hown5 Hel' Hrd') as (-> & Hl' & Hrefs').
  case_bool_decide.
  - apply bind_Some in H as ([] & σ8 & Hw' & [-> ->]%ret_Some).
    apply Done_hands_back.
    eapply writeItem_owned; [exact Hown5|exact Hl'| |exact Hw']. exact Hrefs'.
  - apply bind_Some in H as (removed & σ8 & [Hown8 _]%(splice_owned _ _ _ _ _ _ _ Hown5)
                             & [-> ->]%ret_Some).
    by apply Done_hands_back.
Qed.

Lemma Object_assign_refs σ0 (it : ItemObj) (data : PatchObj) :
  let handed := option_list (p_data data) ++ option_list (p_position data)
                ++ option_list (p_rules data) in
  Forall (allowed σ0 []) (nestedRefs it) →
  Forall (allowed σ0 handed) (nestedRefs (Object_assign it data)).
Proof.
  intros handed Hrefs. unfold nestedRefs in *. cbn.
  apply Forall_app in Hrefs as [Hd Hrefs]. apply Forall_app in Hrefs as [Hp Hr].
  assert (Hw : ∀ rs, Forall (allowed σ0 []) rs → Forall (allowed σ0 handed) rs).
  { intros rs Hrs. eapply Forall_impl; [|exact Hrs].
    intros x. apply allowed_weaken; [done|set_solver]. }
  assert (Hin : ∀ x, x ∈ handed → allowed σ0 handed x) by (intros x Hx; by right).
  rewrite !Forall_app. subst handed. split_and!.
  - destruct (p_data data); cbn; [|by apply Hw].
    constructor; [apply Hin; set_solver|constructor].
  - destruct (p_position data); cbn; [|by apply Hw].
    constructor; [apply Hin; set_solver|constructor].
  - destruct (p_rules data); cbn; [|by apply Hw].
    constructor; [apply Hin; set_solver|constructor].
Qed.

Lemma update_hands_back u (data : PatchObj) a σ0 res σ' :
  Store.update u data a σ0 = Some (res, σ') →
  hands_back σ0 (option_list (p_data data) ++ option_list (p_position data)
                 ++ option_list (p_rules data)) res σ'.
Proof.
  unfold Store.update. intros (a' & σ1 & [Hs1 Hown]%cloneItems_Some & H)%bind_Some.
  apply bind_Some in H as (its & σ2 & ->%readItems_Some & H).
  destruct (list_find _ its) as [[idx found]|];
    [|apply ret_Some in H as [-> ->]; by apply Undefined_hands_back].
  set (handed := option_list (p_data data) ++ _).
  assert (Hown' : owned σ0 handed a' σ1).
  { eapply (owned_weaken σ0 σ0 []); [done| |exact Hown]. set_solver. }
  destruct (match p_decay data with Some d => _ | None => _ end).
  - apply bind_Some in H as (removed & σ4 & Hsp & [-> ->]%ret_Some).
    apply Done_hands_back. by destruct (splice_owned _ _ _ _ _ _ _ Hown' Hsp).
  - apply bind_Some in H as (l & σ2 & Hel & H).
    apply bind_Some in H as (it & σ3 & Hrd & H).
    destruct (element_read_owned _ _ _ _ _ _ _ _ _ Hown Hel Hrd) as (-> & Hl & Hrefs).
    apply bind_Some in H as ([] & σ4 & Hw & [-> ->]%ret_Some).
    apply Done_hands_back.
    eapply writeItem_owned; [exact Hown'| | |exact Hw].
    + eapply (ownedItem_weaken σ0 σ0 []); [done| |exact Hl]. set_solver.
    + by apply Object_assign_refs.
Qed.

Lemma invokeDecay_loop_owned σ0 handed n a σ u σ' :
  owned σ0 handed a σ →
  Store.invokeDecay_loop n a σ = Some (u, σ') →
  owned σ0 handed a σ'.
Proof.
  revert σ. induction n as [|n IH]; intros σ Hown; cbn [Store.invokeDecay_loop].
  { by intros [_ ->]%ret_Some. }
  intros (l & σ1 & Hel & H)%bind_Some.
  apply bind_Some in H as (it & σ2 & Hrd & H).
  destruct (element_read_owned _ _ _ _ _ _ _ _ _ Hown Hel Hrd) as (-> & Hl & Hrefs).
  destruct (decay it) as [d|]; [|by eapply IH].
  apply bind_Some in H as ([] & σ3 & Hw & H).
  assert (Hown3 : owned σ0 handed a σ3).
  { eapply writeItem_owned; [exact Hown|exact Hl| |exact Hw]. exact Hrefs. }
  case_bool_decide; [|eapply IH; [exact Hown3|exact H]].
  apply bind_Some in H as (removed & σ4 & [Hown4 _]%(splice_owned _ _ _ _ _ _ _ Hown3) & H).
  eapply IH; [exact Hown4|exact H].
Qed.

Lemma invokeDecay_hands_back a σ0 a' σ' :
  Store.invokeDecay a σ0 = Some (a', σ') → owned σ0 [] a' σ'.
Proof.
  unfold Store.invokeDecay. intros (a1 & σ1 & [Hs1 Hown]%cloneItems_Some & H)%bind_Some.
  apply bind_Some in H as (ls & σ2 & [-> Hls]%readArray_Some & H).
  apply bind_Some in H as ([] & σ3 & Hloop & [-> ->]%ret_Some).
  by eapply invokeDecay_loop_owned.
Qed.

(** Every call leaves the objects of the store it started from as they
    were, and a collection it returns is owned: it consists of objects
    allocated during the call, apart from the nested objects the caller
    handed in. *)
Lemma run_hands_back cfg cat gen fuel (op : Store.Op) a σ0 res σ' :
  Store.run cfg cat gen fuel op a σ0 = Some (res, σ') →
  σ0 ⊆ σ' ∧ (inScope σ0 op → hands_back σ0 (handedIn σ0 op) res σ').
Proof.
  destruct op as [i q o|item o|u q|u|u q|u am o|u1 u2|u p|];
    cbn [Store.run inScope handedIn]; intros H.
  - apply add_hands_back in H. split; [by destruct H|done].
  - by apply addSpecificItem_hands_back in H.
  - apply remove_hands_back in H. split; [by destruct H|done].
  - apply bind_Some in H as (r & σ1 & [Hsub Hr]%removeAt_hands_back & [-> ->]%ret_Some).
    split; [done|]. intros _. split; [done|].
    destruct r as [[a1 item]|msg]; [|done]. intros ? [= <-].
    by destruct (Hr a1 item eq_refl).
  - apply removeQuantityFrom_hands_back in H. split; [by destruct H|done].
  - apply split_hands_back in H. split; [by destruct H|done].
  - apply stack_hands_back in H. split; [by destruct H|done].
  - apply update_hands_back in H. split; [by destruct H|done].
  - apply bind_Some in H as (a' & σ1 & Hown%invokeDecay_hands_back & [-> ->]%ret_Some).
    split; [by destruct Hown|]. intros _. by apply Done_hands_back.
Qed.

Lemma owned_reach σ0 handed a' σ' l :
  owned σ0 handed a' σ' → l ∈ reach σ' a' → l ∈ dom σ0 → l ∈ handed.
Proof.
  intros (_ & Ha' & ls & Hls & Hall) Hl Hdom. unfold reach in Hl. rewrite Hls in Hl.
  apply elem_of_cons in Hl as [->|Hl]; [done|].
  rewrite list.Forall_forall in Hall.
  apply elem_of_app in Hl as [Hl|Hl].
  - by destruct (Hall l Hl).
  - apply list_elem_of_bind in Hl as (l1 & Hl & Hl1).
    destruct (Hall l1 Hl1) as (_ & it & Hit & Hrefs).
    unfold itemRefs in Hl. rewrite Hit in Hl.
    rewrite list.Forall_forall in Hrefs. by destruct (Hrefs l Hl).
Qed.

End StoreFacts.

(** ** The store-level engine computes what the engine computes by value *)

Section Refinement.
Import Store.
Implicit Types (σ : store) (l a : loc) (o : ItemObj) (v : Item).

Lemma bind_run {A B} (m : M A) (f : A → M B) σ x σ1 :
  m σ = Some (x, σ1) → bind m f σ = f x σ1.
Proof. intros Hm. unfold bind. by rewrite Hm. Qed.

(** *** Values are stable under allocation and under writes elsewhere *)

Lemma nestedValue_mono {A} (as_ : object → option A) σ σ' r w :
  σ ⊆ σ' → nestedValue as_ σ r = Some w → nestedValue as_ σ' r = Some w.
Proof.
  intros Hsub. destruct r as [l|]; cbn; [|done].
  destruct (σ !! l) as [x|] eqn:Hl; cbn; [|done].
  by rewrite (lookup_weaken _ _ _ _ Hl Hsub).
Qed.

Lemma option_bind_Some {A B} (m : option A) (f : A → option B) y :
  m ≫= f = Some y ↔ ∃ x, m = Some x ∧ f x = Some y.
Proof.
  destruct m as [x|]; cbn; split.
  - intros Hf. by exists x.
  - by intros (? & [= <-] & Hf).
  - done.
  - by intros (? & ? & _).
Qed.

Lemma itemValue_Some σ o v :
  itemValue σ o = Some v ↔
  ∃ d p r, nestedValue asData σ (data o) = Some d
           ∧ nestedValue asPosition σ (position o) = Some p
           ∧ nestedValue asRules σ (rules o) = Some r
           ∧ v = retarget d p r o.
Proof.
  unfold itemValue. split.
  - intros (d & Hd & (p & Hp & (r & Hr & [= <-])%option_bind_Some)%option_bind_Some)%option_bind_Some.
    by exists d, p, r.
  - intros (d & p & r & Hd & Hp & Hr & ->). rewrite Hd. cbn. rewrite Hp. cbn.
    rewrite Hr. done.
Qed.

Lemma baseValue_Some σ (b : BaseObj) (bv : BaseItem) :
  baseValue σ b = Some bv ↔
  ∃ p r, nestedValue asPosition σ (position b) = Some p
         ∧ nestedValue asRules σ (rules b) = Some r
         ∧ bv = retargetBase p r b.
Proof.
  unfold baseValue. split.
  - intros (p & Hp & (r & Hr & [= <-])%option_bind_Some)%option_bind_Some.
    by exists p, r.
  - intros (p & r & Hp & Hr & ->). rewrite Hp. cbn. rewrite Hr. done.
Qed.

Lemma itemValue_mono σ σ' o v :
  σ ⊆ σ' → itemValue σ o = Some v → itemValue σ' o = Some v.
Proof.
  intros Hsub (d & p & r & Hd & Hp & Hr & ->)%itemValue_Some.
  apply itemValue_Some. exists d, p, r.
  split_and!; [by eapply nestedValue_mono..|done].
Qed.

Lemma baseValue_mono σ σ' (b : BaseObj) bv :
  σ ⊆ σ' → baseValue σ b = Some bv → baseValue σ' b = Some bv.
Proof.
  intros Hsub (p & r & Hp & Hr & ->)%baseValue_Some.
  apply baseValue_Some. exists p, r.
  split_and!; [by eapply nestedValue_mono..|done].
Qed.

Lemma itemAt_Some σ l v :
  itemAt σ l = Some v ↔ ∃ o, σ !! l = Some (OItem o) ∧ itemValue σ o = Some v.
Proof.
  unfold itemAt. destruct (σ !! l) as [[]|]; split;
    try done; try (by intros (? & [= <-] & ?)); try (by intros (? & ? & _)).
  intros Hv. by eexists.
Qed.

Lemma itemAt_mono σ σ' l v : σ ⊆ σ' → itemAt σ l = Some v → itemAt σ' l = Some v.
Proof.
  intros Hsub (o & Hl & Hv)%itemAt_Some. apply itemAt_Some. exists o.
  split; [by eapply lookup_weaken|by eapply itemValue_mono].
Qed.

Lemma arrayOf_mono σ σ' a ls items :
  σ ⊆ σ' → arrayOf σ a ls items → arrayOf σ' a ls items.
Proof.
  intros Hsub [Ha Hall]. split; [by eapply lookup_weaken|].
  eapply Forall2_impl; [|exact Hall]. intros l v. by apply itemAt_mono.
Qed.

Lemma workingCopy_mono σ σ' a ls items :
  σ ⊆ σ' → workingCopy σ a ls items → workingCopy σ' a ls items.
Proof. intros Hsub [Harr Hnd]. split; [by eapply arrayOf_mono|done]. Qed.

Lemma nestedValue_insert {A} (as_ : object → option A) σ l old new r w :
  σ !! l = Some old → as_ old = None →
  nestedValue as_ σ r = Some w → nestedValue as_ (<[l := new]> σ) r = Some w.
Proof.
  intros Hl Hold. destruct r as [l'|]; cbn; [|done].
  destruct (decide (l = l')) as [<-|Hne].
  - rewrite Hl. cbn. by rewrite Hold.
  - by rewrite lookup_insert_ne.
Qed.

Lemma itemValue_insert σ l old new o v :
  σ !! l = Some old → notNested old →
  itemValue σ o = Some v → itemValue (<[l := new]> σ) o = Some v.
Proof.
  intros Hl (H1 & H2 & H3) (d & p & r & Hd & Hp & Hr & ->)%itemValue_Some.
  apply itemValue_Some. exists d, p, r.
  split_and!; [by eapply nestedValue_insert..|done].
Qed.

Lemma baseValue_insert σ l old new (b : BaseObj) bv :
  σ !! l = Some old → notNested old →
  baseValue σ b = Some bv → baseValue (<[l := new]> σ) b = Some bv.
Proof.
  intros Hl (H1 & H2 & H3) (p & r & Hp & Hr & ->)%baseValue_Some.
  apply baseValue_Some. exists p, r.
  split_and!; [by eapply nestedValue_insert..|done].
Qed.

Lemma itemAt_insert_ne σ l old new l' v :
  σ !! l = Some old → notNested old → l ≠ l' →
  itemAt σ l' = Some v → itemAt (<[l := new]> σ) l' = Some v.
Proof.
  intros Hl Hold Hne (o & Hl' & Hv)%itemAt_Some. apply itemAt_Some. exists o.
  split; [by rewrite lookup_insert_ne|by eapply itemValue_insert].
Qed.

Lemma notNested_array ls : notNested (OArray ls).
Proof. done. Qed.

Lemma notNested_item o : notNested (OItem o).
Proof. done. Qed.

Lemma arrayOf_length σ a ls items : arrayOf σ a ls items → length ls = length items.
Proof. intros [_ Hall]. by eapply Forall2_length. Qed.

Lemma arrayOf_lookup σ a ls items i l :
  arrayOf σ a ls items → ls !! i = Some l →
  ∃ o v, items !! i = Some v ∧ σ !! l = Some (OItem o) ∧ itemValue σ o = Some v.
Proof.
  intros [_ Hall] Hi.
  destruct (Forall2_lookup_l _ _ _ _ _ Hall Hi) as (v & Hv & Hat).
  apply itemAt_Some in Hat as (o & Hl & Ho). eauto.
Qed.

Lemma arrayOf_lookup_value σ a ls items i v :
  arrayOf σ a ls items → items !! i = Some v →
  ∃ l o, ls !! i = Some l ∧ σ !! l = Some (OItem o) ∧ itemValue σ o = Some v.
Proof.
  intros [_ Hall] Hi.
  destruct (Forall2_lookup_r _ _ _ _ _ Hall Hi) as (l & Hl & Hat).
  apply itemAt_Some in Hat as (o & Hlo & Ho). eauto.
Qed.

Lemma arrayOf_ne σ a ls items l : arrayOf σ a ls items → l ∈ ls → l ≠ a.
Proof.
  intros Harr (i & Hi)%list_elem_of_lookup_1 ->.
  destruct (arrayOf_lookup _ _ _ _ _ _ Harr Hi) as (o & v & _ & Hl & _).
  destruct Harr as [Ha _]. congruence.
Qed.

(** [items[i] = ...]: the stack at position [i] of a working copy is
    overwritten. *)
Lemma workingCopy_writeItem σ a ls items i l o' v' :
  workingCopy σ a ls items → ls !! i = Some l →
  itemValue σ o' = Some v' →
  workingCopy (<[l := OItem o']> σ) a ls (<[i := v']> items).
Proof.
  intros [Harr Hnd] Hi Hv'.
  destruct (arrayOf_lookup _ _ _ _ _ _ Harr Hi) as (o & v & Hiv & Hl & Hv).
  split; [|done]. split.
  - rewrite lookup_insert_ne; [by destruct Harr|].
    eapply arrayOf_ne; [exact Harr|by eapply list_elem_of_lookup_2].
  - destruct Harr as [_ Hall].
    apply Forall2_same_length_lookup. split.
    { rewrite length_insert. by eapply Forall2_length. }
    intros j lj vj Hj Hvj. destruct (decide (i = j)) as [<-|Hne].
    + assert (lj = l) as -> by congruence.
      rewrite list_lookup_insert_eq in Hvj by (by eapply lookup_lt_Some).
      injection Hvj as <-. apply itemAt_Some. exists o'.
      split; [by rewrite lookup_insert_eq|].
      eapply itemValue_insert; [exact Hl|apply notNested_item|done].
    + rewrite list_lookup_insert_ne in Hvj by done.
      eapply itemAt_insert_ne; [exact Hl|apply notNested_item| |].
      * intros ->. by apply Hne, (NoDup_lookup ls i j lj).
      * exact (Forall2_lookup_lr _ _ _ _ _ _ Hall Hj Hvj).
Qed.

Lemma arrayOf_writeArray σ a ls items ls' items' :
  arrayOf σ a ls items →
  Forall2 (λ l v, itemAt σ l = Some v) ls' items' →
  arrayOf (<[a := OArray ls']> σ) a ls' items'.
Proof.
  intros [Ha Hall] Hall'. split; [by rewrite lookup_insert_eq|].
  eapply Forall2_impl; [|exact Hall']. intros l v Hat.
  eapply itemAt_insert_ne; [exact Ha|apply notNested_array| |done].
  intros <-. apply itemAt_Some in Hat as (o & Hl & _). congruence.
Qed.

(** [items.push(l)] on a working copy, for a stack object that is not in
    the array yet. *)
Lemma workingCopy_push σ a ls items l v :
  workingCopy σ a ls items → l ∉ ls → itemAt σ l = Some v →
  workingCopy (<[a := OArray (ls ++ [l])]> σ) a (ls ++ [l]) (items ++ [v]).
Proof.
  intros [Harr Hnd] Hl Hv. split.
  - eapply arrayOf_writeArray; [exact Harr|].
    apply Forall2_app; [by destruct Harr|]. by repeat constructor.
  - apply list.NoDup_app. split_and!; [done| |apply NoDup_singleton].
    intros x Hx ->%list_elem_of_singleton. done.
Qed.

(** [items.splice(i, 1)] on a working copy. *)
Lemma workingCopy_splice σ a ls items i :
  workingCopy σ a ls items →
  workingCopy (<[a := OArray (delete i ls)]> σ) a (delete i ls) (delete i items).
Proof.
  intros [Harr Hnd]. split.
  - eapply arrayOf_writeArray; [exact Harr|].
    apply Forall2_delete. by destruct Harr.
  - eapply sublist_NoDup; [exact Hnd|apply sublist_delete].
Qed.

(** *** Reading *)

Lemma itemValue_scalars σ o v :
  itemValue σ o = Some v →
  uid v = uid o ∧ quantity v = quantity o ∧ id v = id o
  ∧ maxStack v = maxStack o ∧ weight v = weight o ∧ width v = width o
  ∧ height v = height o ∧ decay v = decay o.
Proof. intros (d & p & r & _ & _ & _ & ->)%itemValue_Some. done. Qed.

Lemma readAll_run σ ls items :
  Forall2 (λ l v, itemAt σ l = Some v) ls items →
  ∃ os, readAll ls σ = Some (os, σ)
        ∧ Forall2 (λ o v, itemValue σ o = Some v) os items.
Proof.
  induction 1 as [|l v ls items (o & Hl & Hv)%itemAt_Some _ (os & Hos & Hall)].
  - exists []. by split; [|constructor].
  - exists (o :: os). split; [|by constructor].
    cbn [readAll]. unfold readItem, bind. rewrite Hl, Hos. done.
Qed.

Lemma readItems_run σ a ls items :
  arrayOf σ a ls items →
  ∃ os, readItems a σ = Some (os, σ)
        ∧ Forall2 (λ o v, itemValue σ o = Some v) os items.
Proof.
  intros [Ha Hall]. destruct (readAll_run _ _ _ Hall) as (os & Hos & Hvs).
  exists os. split; [|done]. unfold readItems, readArray, bind. by rewrite Ha.
Qed.

(** [findIndex] finds the same index in the objects and in their values. *)
Lemma list_find_related {A B} (R : A → B → Prop) (P : A → Prop) (Q : B → Prop)
    `{!∀ x, Decision (P x)} `{!∀ y, Decision (Q y)} (xs : list A) (ys : list B) :
  Forall2 R xs ys → (∀ x y, R x y → (P x ↔ Q y)) →
  match list_find Q ys with
  | None => list_find P xs = None
  | Some (i, y) => ∃ x, list_find P xs = Some (i, x) ∧ R x y
  end.
Proof.
  intros Hall HPQ. induction Hall as [|x y xs ys Hxy _ IH]; [done|].
  cbn [list_find]. destruct (decide (Q y)) as [Hq|Hq].
  - rewrite decide_True by (by apply (HPQ x y)). by exists x.
  - rewrite decide_False by (by rewrite (HPQ x y)).
    destruct (list_find Q ys) as [[i y']|]; cbn.
    + destruct IH as (x' & -> & Hx'). by exists x'.
    + by rewrite IH.
Qed.

Lemma list_find_uid σ (os : list ItemObj) (items : list Item) u :
  Forall2 (λ o v, itemValue σ o = Some v) os items →
  match list_find (λ x : Item, uid x = u) items with
  | None => list_find (λ x : ItemObj, uid x = u) os = None
  | Some (i, v) =>
      ∃ o, list_find (λ x : ItemObj, uid x = u) os = Some (i, o)
           ∧ itemValue σ o = Some v
  end.
Proof.
  intros Hall. apply (list_find_related _ _ _ _ _ Hall).
  intros o v (Hu & _)%itemValue_scalars. by rewrite Hu.
Qed.

Lemma element_run σ a ls items i v :
  arrayOf σ a ls items → items !! i = Some v →
  ∃ l o, element a i σ = Some (l, σ) ∧ readItem l σ = Some (o, σ)
         ∧ ls !! i = Some l ∧ itemValue σ o = Some v.
Proof.
  intros Harr Hi.
  destruct (arrayOf_lookup_value _ _ _ _ _ _ Harr Hi) as (l & o & Hl & Hlo & Hv).
  exists l, o. destruct Harr as [Ha _]. split_and!; [| |done..].
  - unfold element, readArray, bind. by rewrite Ha, Hl.
  - unfold readItem. by rewrite Hlo.
Qed.

(** *** Copying *)

Lemma alloc_run x σ : alloc x σ = Some (fresh (dom σ), <[fresh (dom σ) := x]> σ).
Proof. reflexivity. Qed.

Lemma insert_fresh_subseteq σ x : σ ⊆ <[fresh (dom σ) := x]> σ.
Proof. apply insert_subseteq, not_elem_of_dom, is_fresh. Qed.

Lemma cloneNested_run {A} (as_ : object → option A) (read : loc → M A)
    (mk : A → object) σ r w :
  (∀ σ l x, σ !! l ≫= as_ = Some x → read l σ = Some (x, σ)) →
  (∀ x, as_ (mk x) = Some x) →
  nestedValue as_ σ r = Some w →
  ∃ r' σ', cloneNested read mk r σ = Some (r', σ') ∧ σ ⊆ σ'
           ∧ nestedValue as_ σ' r' = Some w.
Proof.
  intros Hread Hmk. destruct r as [l|]; cbn.
  - destruct (σ !! l ≫= as_) as [x|] eqn:Hl; [|done]. intros [= <-].
    eexists _, _. split; [|split].
    + unfold bind. rewrite (Hread _ _ _ Hl). rewrite alloc_run. reflexivity.
    + apply insert_fresh_subseteq.
    + cbn. rewrite lookup_insert_eq. cbn. by rewrite Hmk.
  - intros [= <-]. by exists None, σ.
Qed.

Lemma readData_run σ l x : σ !! l ≫= asData = Some x → readData l σ = Some (x, σ).
Proof.
  unfold readData. destruct (σ !! l) as [[]|]; cbn; try done. by intros [= <-].
Qed.

Lemma readPosition_run σ l x :
  σ !! l ≫= asPosition = Some x → readPosition l σ = Some (x, σ).
Proof.
  unfold readPosition. destruct (σ !! l) as [[]|]; cbn; try done. by intros [= <-].
Qed.

Lemma readRules_run σ l x : σ !! l ≫= asRules = Some x → readRules l σ = Some (x, σ).
Proof.
  unfold readRules. destruct (σ !! l) as [[]|]; cbn; try done. by intros [= <-].
Qed.

Lemma retarget_retarget {D P R D' P' R' D2 P2 R2 : Type}
    (d : option D2) (p : option P2) (r : option R2)
    (d' : option D') (p' : option P') (r' : option R') (it : ItemOf D P R) :
  retarget d p r (retarget d' p' r' it) = retarget d p r it.
Proof. reflexivity. Qed.

(** [Utility.clone.objectData] succeeds on a stack that reads as a value;
    the copy is a new object that reads as the same value. *)
Lemma objectData_run σ l v :
  itemAt σ l = Some v →
  ∃ l' σ', objectData l σ = Some (l', σ') ∧ σ ⊆ σ' ∧ (l' ∉ dom σ)
           ∧ itemAt σ' l' = Some v.
Proof.
  intros (o & Hl & (d & p & r & Hd & Hp & Hr & ->)%itemValue_Some)%itemAt_Some.
  destruct (cloneNested_run asData readData OData σ _ _ readData_run
              (λ _, eq_refl) Hd) as (d' & σ1 & Hrun1 & Hs1 & Hd').
  destruct (cloneNested_run asPosition readPosition OPosition σ1 _ _ readPosition_run
              (λ _, eq_refl) (nestedValue_mono _ _ _ _ _ Hs1 Hp))
    as (p' & σ2 & Hrun2 & Hs2 & Hp').
  destruct (cloneNested_run asRules readRules ORules σ2 _ _ readRules_run
              (λ _, eq_refl)
              (nestedValue_mono _ _ _ _ _ Hs2 (nestedValue_mono _ _ _ _ _ Hs1 Hr)))
    as (r' & σ3 & Hrun3 & Hs3 & Hr').
  eexists _, _. split_and!.
  - unfold objectData, readItem, bind at 1. rewrite Hl.
    rewrite (bind_run _ _ _ _ _ Hrun1), (bind_run _ _ _ _ _ Hrun2),
      (bind_run _ _ _ _ _ Hrun3). apply alloc_run.
  - etrans; [exact Hs1|]. etrans; [exact Hs2|]. etrans; [exact Hs3|].
    apply insert_fresh_subseteq.
  - eapply not_elem_of_dom_weaken; [|apply is_fresh].
    etrans; [exact Hs1|]. etrans; [exact Hs2|exact Hs3].
  - apply itemAt_Some. eexists. split; [by rewrite lookup_insert_eq|].
    pose proof (insert_fresh_subseteq σ3 (OItem (retarget d' p' r' o))) as Hs4.
    apply itemValue_Some. exists d, p, r. cbn. split_and!.
    + eapply nestedValue_mono; [exact Hs4|]. eapply nestedValue_mono; [exact Hs3|].
      by eapply nestedValue_mono.
    + eapply nestedValue_mono; [exact Hs4|]. by eapply nestedValue_mono.
    + by eapply nestedValue_mono.
    + reflexivity.
Qed.

Lemma itemAt_dom σ l v : itemAt σ l = Some v → l ∈ dom σ.
Proof. intros (o & Hl & _)%itemAt_Some. apply elem_of_dom. by eexists. Qed.

Lemma cloneElements_run σ ls items :
  Forall2 (λ l v, itemAt σ l = Some v) ls items →
  ∃ ls' σ', cloneElements ls σ = Some (ls', σ') ∧ σ ⊆ σ' ∧ NoDup ls'
            ∧ Forall (λ x, x ∉ dom σ) ls'
            ∧ Forall2 (λ l v, itemAt σ' l = Some v) ls' items.
Proof.
  intros Hall. revert σ Hall. induction ls as [|l ls IH] in items |- *; intros σ Hall.
  - inversion Hall; subst. exists [], σ. split_and!; by try constructor.
  - inversion Hall as [|? v ? items' Hl Hall']; subst.
    destruct (objectData_run _ _ _ Hl) as (l' & σ1 & Hrun1 & Hs1 & Hl' & Hv').
    destruct (IH items' σ1) as (ls' & σ2 & Hrun2 & Hs2 & Hnd & Hfresh & Hvs).
    { eapply Forall2_impl; [|exact Hall']. intros x y. by apply itemAt_mono. }
    exists (l' :: ls'), σ2. split_and!.
    + cbn [cloneElements]. rewrite (bind_run _ _ _ _ _ Hrun1), (bind_run _ _ _ _ _ Hrun2).
      reflexivity.
    + by etrans.
    + apply list.NoDup_cons. split; [|done]. intros Hin.
      rewrite list.Forall_forall in Hfresh. apply (Hfresh l' Hin).
      by eapply itemAt_dom.
    + constructor; [done|]. by eapply Forall_fresh_weaken.
    + constructor; [by eapply itemAt_mono|done].
Qed.

(** [cloneItems] succeeds on a collection that reads as [items]; what it
    returns is a working copy that reads as [items]. *)
Lemma cloneItems_run σ a items :
  represents σ a items →
  ∃ a' ls' σ', Store.cloneItems a σ = Some (a', σ') ∧ σ ⊆ σ'
               ∧ workingCopy σ' a' ls' items.
Proof.
  intros (ls & Ha & Hall).
  destruct (cloneElements_run _ _ _ Hall) as (ls' & σ1 & Hrun & Hs1 & Hnd & _ & Hvs).
  eexists _, ls', _. split_and!.
  - unfold Store.cloneItems, readArray, bind at 1. rewrite Ha.
    rewrite (bind_run _ _ _ _ _ Hrun). apply alloc_run.
  - etrans; [exact Hs1|apply insert_fresh_subseteq].
  - split; [|done]. split; [by rewrite lookup_insert_eq|].
    eapply Forall2_impl; [|exact Hvs]. intros x y.
    apply itemAt_mono, insert_fresh_subseteq.
Qed.

(** *** Writing *)

Lemma splice_run σ a ls i :
  σ !! a = Some (OArray ls) →
  splice a i σ = Some (option_list (ls !! i), <[a := OArray (delete i ls)]> σ).
Proof. intros Ha. unfold splice, readArray, bind. by rewrite Ha. Qed.

Lemma push_run σ a ls l :
  σ !! a = Some (OArray ls) →
  push a l σ = Some ((), <[a := OArray (ls ++ [l])]> σ).
Proof. intros Ha. unfold push, readArray, bind. by rewrite Ha. Qed.

Lemma itemValue_set_quantity σ o v q :
  itemValue σ o = Some v → itemValue σ (set_quantity q o) = Some (set_quantity q v).
Proof.
  intros (d & p & r & Hd & Hp & Hr & ->)%itemValue_Some.
  apply itemValue_Some. by exists d, p, r.
Qed.

Lemma itemValue_set_uid σ o v u :
  itemValue σ o = Some v → itemValue σ (set_uid u o) = Some (set_uid u v).
Proof.
  intros (d & p & r & Hd & Hp & Hr & ->)%itemValue_Some.
  apply itemValue_Some. by exists d, p, r.
Qed.

Lemma itemValue_set_decay σ o v t :
  itemValue σ o = Some v → itemValue σ (set_decay t o) = Some (set_decay t v).
Proof.
  intros (d & p & r & Hd & Hp & Hr & ->)%itemValue_Some.
  apply itemValue_Some. by exists d, p, r.
Qed.

Lemma nestedValue_patched {A} (as_ : object → option A) σ new old w w' :
  nestedValue as_ σ new = Some w → nestedValue as_ σ old = Some w' →
  nestedValue as_ σ (patched_opt new old) = Some (patched_opt w w').
Proof.
  destruct new as [l|]; cbn.
  - destruct (σ !! l ≫= as_); [|done]. by intros [= <-] _.
  - by intros [= <-].
Qed.

Lemma patchValue_Some σ (p : PatchObj) (pv : Patch) :
  patchValue σ p = Some pv →
  ∃ d pos r, nestedValue asData σ (p_data p) = Some d
    ∧ nestedValue asPosition σ (p_position p) = Some pos
    ∧ nestedValue asRules σ (p_rules p) = Some r
    ∧ pv = {| p_uid := p_uid p; p_quantity := p_quantity p; p_data := d;
              p_id := p_id p; p_name := p_name p; p_desc := p_desc p;
              p_width := p_width p; p_height := p_height p; p_position := pos;
              p_rotation := p_rotation p; p_maxStack := p_maxStack p;
              p_weight := p_weight p; p_icon := p_icon p; p_decay := p_decay p;
              p_durability := p_durability p; p_useEventName := p_useEventName p;
              p_rules := r |}.
Proof.
  unfold patchValue.
  intros (d & Hd & (pos & Hp & (r & Hr & [= <-])%option_bind_Some)%option_bind_Some)%option_bind_Some.
  by exists d, pos, r.
Qed.

Lemma itemValue_Object_assign σ o v (p : PatchObj) pv :
  itemValue σ o = Some v → patchValue σ p = Some pv →
  itemValue σ (Object_assign o p) = Some (Object_assign v pv).
Proof.
  intros (d & pos & r & Hd & Hp & Hr & ->)%itemValue_Some
         (d' & pos' & r' & Hd' & Hp' & Hr' & ->)%patchValue_Some.
  apply itemValue_Some.
  exists (patched_opt d' d), (patched_opt pos' pos), (patched_opt r' r). cbn.
  split_and!; [by apply nestedValue_patched..|reflexivity].
Qed.

Lemma optionsValue_Some σ (o : OptionsObj) (ov : AddOptions) :
  optionsValue σ o = Some ov ↔
  ∃ d, nestedValue asData σ (opt_data o) = Some d
       ∧ ov = {| opt_name := opt_name o; opt_maxWeight := opt_maxWeight o;
                 opt_maxCells := opt_maxCells o; opt_data := d |}.
Proof.
  unfold optionsValue. split.
  - intros (d & Hd & [= <-])%option_bind_Some. by exists d.
  - intros (d & Hd & ->). by rewrite Hd.
Qed.

Lemma optionsValue_mono σ σ' (o : OptionsObj) ov :
  σ ⊆ σ' → optionsValue σ o = Some ov → optionsValue σ' o = Some ov.
Proof.
  intros Hsub (d & Hd & ->)%optionsValue_Some. apply optionsValue_Some.
  exists d. split; [by eapply nestedValue_mono|done].
Qed.

Lemma optionsValue_insert σ l old new (o : OptionsObj) ov :
  σ !! l = Some old → notNested old →
  optionsValue σ o = Some ov → optionsValue (<[l := new]> σ) o = Some ov.
Proof.
  intros Hl (H1 & _) (d & Hd & ->)%optionsValue_Some. apply optionsValue_Some.
  exists d. split; [by eapply nestedValue_insert|done].
Qed.

Lemma patchValue_mono σ σ' (p : PatchObj) pv :
  σ ⊆ σ' → patchValue σ p = Some pv → patchValue σ' p = Some pv.
Proof.
  intros Hsub (d & pos & r & Hd & Hp & Hr & ->)%patchValue_Some.
  unfold patchValue.
  rewrite (nestedValue_mono _ _ _ _ _ Hsub Hd). cbn.
  rewrite (nestedValue_mono _ _ _ _ _ Hsub Hp). cbn.
  by rewrite (nestedValue_mono _ _ _ _ _ Hsub Hr).
Qed.

(** *** The capacity check *)

Lemma totals_agree σ (os : list ItemObj) (items : list Item) :
  Forall2 (λ o v, itemValue σ o = Some v) os items →
  totalWeight os = totalWeight items
  ∧ totalCellsOccupied os = totalCellsOccupied items.
Proof.
  induction 1 as [|o v os items Hv _ [IHw IHc]]; [done|].
  apply itemValue_scalars in Hv as (_ & Hq & _ & _ & Hw & Hwi & Hh & _).
  rewrite !totalWeight_cons, !totalCellsOccupied_cons, IHw, IHc, Hq, Hw, Hwi, Hh.
  done.
Qed.

Lemma verifyStackAndWeight_agree cfg σ (os : list ItemObj) (items : list Item)
    (o : OptionsObj) ov :
  Forall2 (λ o v, itemValue σ o = Some v) os items →
  optionsValue σ o = Some ov →
  verifyStackAndWeight cfg os o = verifyStackAndWeight cfg items ov.
Proof.
  intros [Hw Hc]%totals_agree (d & _ & ->)%optionsValue_Some.
  unfold verifyStackAndWeight, isWeightExceeded. cbn. by rewrite Hw, Hc.
Qed.

Lemma verified_run cfg σ a ls items (o : OptionsObj) ov :
  arrayOf σ a ls items → optionsValue σ o = Some ov →
  verified cfg a o σ
  = Some (if verifyStackAndWeight cfg items ov then Done a
          else Undefined Messages.none, σ).
Proof.
  intros Harr Ho. destruct (readItems_run _ _ _ _ Harr) as (os & Hos & Hvs).
  unfold verified. rewrite (bind_run _ _ _ _ _ Hos).
  by rewrite (verifyStackAndWeight_agree cfg σ os items o ov Hvs Ho).
Qed.

Lemma verified_reads cfg σ a ls items (o : OptionsObj) ov :
  arrayOf σ a ls items → optionsValue σ o = Some ov →
  ∃ res σ', verified cfg a o σ = Some (res, σ')
    ∧ resultReads σ' res (if verifyStackAndWeight cfg items ov then Done items
                          else Undefined Messages.none).
Proof.
  intros Harr Ho. eexists _, _. split; [by eapply verified_run|].
  destruct (verifyStackAndWeight cfg items ov); cbn; [by exists ls|done].
Qed.

(** *** The catalogue *)

Lemma allocNested_run {A} (as_ : object → option A) (mk : A → object) σ (w : option A) :
  (∀ x, as_ (mk x) = Some x) →
  ∃ r' σ', allocNested mk w σ = Some (r', σ') ∧ σ ⊆ σ'
           ∧ nestedValue as_ σ' r' = Some w.
Proof.
  intros Hmk. destruct w as [x|]; cbn.
  - eexists _, _. split_and!.
    + reflexivity.
    + apply insert_fresh_subseteq.
    + cbn. rewrite lookup_insert_eq. cbn. by rewrite Hmk.
  - by exists None, σ.
Qed.

Lemma getBaseItem_run cat i σ :
  match cat !! i with
  | Some bv =>
      ∃ (b : BaseObj) σ', Store.getBaseItem cat i σ = Some (Some b, σ') ∧ σ ⊆ σ'
                          ∧ baseValue σ' b = Some bv
  | None => Store.getBaseItem cat i σ = Some (None, σ)
  end.
Proof.
  unfold Store.getBaseItem. destruct (cat !! i) as [bv|]; [|done].
  destruct (allocNested_run asPosition OPosition σ (position bv) (λ _, eq_refl))
    as (p' & σ1 & Hrun1 & Hs1 & Hp').
  destruct (allocNested_run asRules ORules σ1 (rules bv) (λ _, eq_refl))
    as (r' & σ2 & Hrun2 & Hs2 & Hr').
  eexists _, _. split_and!.
  - rewrite (bind_run _ _ _ _ _ Hrun1), (bind_run _ _ _ _ _ Hrun2). reflexivity.
  - by etrans.
  - apply baseValue_Some. exists (position bv), (rules bv). cbn.
    split_and!; [by eapply nestedValue_mono|done|by destruct bv].
Qed.

Lemma baseValue_scalars σ (b : BaseObj) bv :
  baseValue σ b = Some bv → id bv = id b ∧ maxStack bv = maxStack b.
Proof. intros (p & r & _ & _ & ->)%baseValue_Some. done. Qed.

Lemma itemValue_spreadBase σ (b : BaseObj) bv q u :
  baseValue σ b = Some bv →
  itemValue σ (spreadBase b q u) = Some (spreadBase bv q u).
Proof.
  intros (p & r & Hp & Hr & ->)%baseValue_Some.
  apply itemValue_Some. by exists None, p, r.
Qed.

Lemma itemValue_newItem σ (b : BaseObj) bv (o : OptionsObj) ov q u :
  baseValue σ b = Some bv → optionsValue σ o = Some ov →
  itemValue σ (match opt_data o with
               | Some d => set_data (Some d) (spreadBase b q u)
               | None => spreadBase b q u
               end)
  = Some (match opt_data ov with
          | Some d => set_data (Some d) (spreadBase bv q u)
          | None => spreadBase bv q u
          end).
Proof.
  intros (p & r & Hp & Hr & ->)%baseValue_Some (d & Hd & ->)%optionsValue_Some. cbn.
  destruct (opt_data o) as [l|]; cbn in Hd.
  - destruct (σ !! l ≫= asData) as [x|] eqn:Hl; [|done]. injection Hd as <-.
    apply itemValue_Some. exists (Some x), p, r. cbn. by rewrite Hl.
  - injection Hd as <-. apply itemValue_Some. by exists None, p, r.
Qed.

(** *** The operations *)

Lemma workingCopy_represents σ a ls items :
  workingCopy σ a ls items → represents σ a items.
Proof. intros [Harr _]. by exists ls. Qed.

Lemma writeItem_run σ l o : writeItem l o σ = Some ((), <[l := OItem o]> σ).
Proof. reflexivity. Qed.

Lemma remove_refines u q a σ0 items :
  represents σ0 a items →
  ∃ res σ', Store.remove u q a σ0 = Some (res, σ')
            ∧ resultReads σ' res (Value.remove u q items).
Proof.
  intros (ls & Harr).
  destruct (readItems_run _ _ _ _ Harr) as (os & Hos & Hvs).
  unfold Store.remove, Value.remove. rewrite (bind_run _ _ _ _ _ Hos).
  pose proof (list_find_uid σ0 os items u Hvs) as Hfind.
  destruct (list_find (λ x : Item, uid x = u) items) as [[i v]|] eqn:Hf.
  2:{ rewrite Hfind. by eexists _, _. }
  destruct Hfind as (o & -> & Hov).
  apply itemValue_scalars in Hov as (_ & Hq & _). rewrite <- Hq.
  case_bool_decide; [by eexists _, _|].
  destruct (cloneItems_run _ _ _ (ex_intro _ ls Harr)) as (a' & ls' & σ1 & Hcl & Hs1 & Hwc).
  rewrite (bind_run _ _ _ _ _ Hcl).
  apply list_find_lookup in Hf as [Hi _].
  destruct (element_run σ1 a' ls' items i v (proj1 Hwc) Hi)
    as (l & o1 & Hel & Hrd & Hli & Ho1).
  rewrite (bind_run _ _ _ _ _ Hel), (bind_run _ _ _ _ _ Hrd).
  apply itemValue_scalars in Ho1 as Hsc. destruct Hsc as (_ & Hq1 & _). rewrite <- Hq1.
  unfold Value.cloneItems. case_bool_decide.
  - rewrite (bind_run _ _ _ _ _ (splice_run _ _ _ i (proj1 (proj1 Hwc)))).
    eexists _, _. split; [reflexivity|]. cbn.
    eapply workingCopy_represents, workingCopy_splice, Hwc.
  - rewrite (bind_run _ _ _ _ _ (writeItem_run _ _ _)).
    eexists _, _. split; [reflexivity|]. cbn.
    eapply workingCopy_represents, workingCopy_writeItem; [exact Hwc|exact Hli|].
    by apply itemValue_set_quantity.
Qed.

Lemma removeQuantityFrom_refines u q a σ0 items :
  represents σ0 a items →
  ∃ res σ', Store.removeQuantityFrom u q a σ0 = Some (res, σ')
            ∧ resultReads σ' res (Value.removeQuantityFrom u q items).
Proof.
  intros Hrep.
  destruct (cloneItems_run _ _ _ Hrep) as (a' & ls' & σ1 & Hcl & Hs1 & Hwc).
  destruct (readItems_run _ _ _ _ (proj1 Hwc)) as (os & Hos & Hvs).
  unfold Store.removeQuantityFrom, Value.removeQuantityFrom, Value.cloneItems.
  rewrite (bind_run _ _ _ _ _ Hcl), (bind_run _ _ _ _ _ Hos).
  pose proof (list_find_uid σ1 os items u Hvs) as Hfind.
  destruct (list_find (λ x : Item, uid x = u) items) as [[i v]|] eqn:Hf.
  2:{ rewrite Hfind. by eexists _, _. }
  destruct Hfind as (o & -> & Hov).
  apply itemValue_scalars in Hov as (_ & Hq & _). rewrite <- Hq.
  case_bool_decide; [by eexists _, _|].
  case_bool_decide.
  - rewrite (bind_run _ _ _ _ _ (splice_run _ _ _ i (proj1 (proj1 Hwc)))).
    eexists _, _. split; [reflexivity|]. cbn.
    eapply workingCopy_represents, workingCopy_splice, Hwc.
  - apply list_find_lookup in Hf as [Hi _].
    destruct (element_run σ1 a' ls' items i v (proj1 Hwc) Hi)
      as (l & o1 & Hel & Hrd & Hli & Ho1).
    rewrite (bind_run _ _ _ _ _ Hel), (bind_run _ _ _ _ _ Hrd).
    apply itemValue_scalars in Ho1 as Hsc. destruct Hsc as (_ & Hq1 & _). rewrite <- Hq1.
    rewrite (bind_run _ _ _ _ _ (writeItem_run _ _ _)).
    eexists _, _. split; [reflexivity|]. cbn.
    eapply workingCopy_represents, workingCopy_writeItem; [exact Hwc|exact Hli|].
    by apply itemValue_set_quantity.
Qed.

Lemma removeAt_refines u a σ0 items :
  represents σ0 a items →
  ∃ res σ', Store.removeAt u a σ0 = Some (res, σ')
    ∧ match Value.removeAt u items, res with
      | Done (items', removed), Done (a', item) =>
          represents σ' a' items' ∧ represents σ' item removed
      | Undefined msg, Undefined msg' => msg' = msg
      | _, _ => False
      end.
Proof.
  intros Hrep.
  destruct (cloneItems_run _ _ _ Hrep) as (a' & ls' & σ1 & Hcl & Hs1 & Hwc).
  destruct (readItems_run _ _ _ _ (proj1 Hwc)) as (os & Hos & Hvs).
  unfold Store.removeAt, Value.removeAt, Value.cloneItems.
  rewrite (bind_run _ _ _ _ _ Hcl), (bind_run _ _ _ _ _ Hos).
  pose proof (list_find_uid σ1 os items u Hvs) as Hfind.
  destruct (list_find (λ x : Item, uid x = u) items) as [[i v]|] eqn:Hf.
  2:{ rewrite Hfind. by eexists _, _. }
  destruct Hfind as (o & -> & Hov).
  rewrite (bind_run _ _ _ _ _ (splice_run _ _ _ i (proj1 (proj1 Hwc)))).
  rewrite (bind_run _ _ _ _ _ (alloc_run _ _)).
  apply list_find_lookup in Hf as [Hi _].
  destruct (arrayOf_lookup_value _ _ _ _ _ _ (proj1 Hwc) Hi) as (l & o1 & Hl & Hlo & Ho1).
  rewrite Hl. cbn [option_list].
  eexists _, _. split; [reflexivity|].
  pose proof (workingCopy_splice _ _ _ _ i Hwc) as Hwc2.
  set (σ2 := <[a' := OArray (delete i ls')]> σ1) in *.
  pose proof (insert_fresh_subseteq σ2 (OArray [l])) as Hs3.
  split.
  - eapply workingCopy_represents, workingCopy_mono; [exact Hs3|exact Hwc2].
  - exists [l]. split; [by rewrite lookup_insert_eq|].
    repeat constructor. eapply itemAt_mono; [exact Hs3|].
    eapply itemAt_insert_ne; [exact (proj1 (proj1 Hwc))|apply notNested_array| |].
    + intros <-. pose proof (proj1 (proj1 Hwc)) as Ha'. congruence.
    + apply itemAt_Some. eauto.
Qed.

Lemma update_refines u (data : PatchObj) pv a σ0 items :
  represents σ0 a items → patchValue σ0 data = Some pv →
  ∃ res σ', Store.update u data a σ0 = Some (res, σ')
            ∧ resultReads σ' res (Value.update u pv items).
Proof.
  intros Hrep Hpv.
  destruct (cloneItems_run _ _ _ Hrep) as (a' & ls' & σ1 & Hcl & Hs1 & Hwc).
  destruct (readItems_run _ _ _ _ (proj1 Hwc)) as (os & Hos & Hvs).
  unfold Store.update, Value.update, Value.cloneItems.
  rewrite (bind_run _ _ _ _ _ Hcl), (bind_run _ _ _ _ _ Hos).
  pose proof (list_find_uid σ1 os items u Hvs) as Hfind.
  destruct (list_find (λ x : Item, uid x = u) items) as [[i v]|] eqn:Hf.
  2:{ rewrite Hfind. by eexists _, _. }
  destruct Hfind as (o & -> & Hov).
  assert (Hdecay : p_decay pv = p_decay data).
  { by destruct (patchValue_Some _ _ _ Hpv) as (? & ? & ? & _ & _ & _ & ->). }
  rewrite Hdecay.
  destruct (match p_decay data with Some d => _ | None => _ end).
  - rewrite (bind_run _ _ _ _ _ (splice_run _ _ _ i (proj1 (proj1 Hwc)))).
    eexists _, _. split; [reflexivity|]. cbn.
    eapply workingCopy_represents, workingCopy_splice, Hwc.
  - apply list_find_lookup in Hf as [Hi _].
    destruct (element_run σ1 a' ls' items i v (proj1 Hwc) Hi)
      as (l & o1 & Hel & Hrd & Hli & Ho1).
    rewrite (bind_run _ _ _ _ _ Hel), (bind_run _ _ _ _ _ Hrd).
    rewrite (bind_run _ _ _ _ _ (writeItem_run _ _ _)).
    eexists _, _. split; [reflexivity|]. cbn.
    eapply workingCopy_represents, workingCopy_writeItem; [exact Hwc|exact Hli|].
    apply itemValue_Object_assign; [done|]. by eapply patchValue_mono.
Qed.

Lemma arrayOf_fresh σ a ls items l : arrayOf σ a ls items → l ∉ dom σ → l ∉ ls.
Proof.
  intros Harr Hl (i & Hi)%list_elem_of_lookup_1.
  destruct (arrayOf_lookup _ _ _ _ _ _ Harr Hi) as (o & v & _ & Hlo & _).
  apply Hl, elem_of_dom. by eexists.
Qed.

(** A new stack object is allocated and pushed. *)
Lemma workingCopy_push_new σ a ls items o v :
  workingCopy σ a ls items → itemValue σ o = Some v →
  let l := fresh (dom σ) in
  alloc (OItem o) σ = Some (l, <[l := OItem o]> σ)
  ∧ push a l (<[l := OItem o]> σ)
    = Some ((), <[a := OArray (ls ++ [l])]> (<[l := OItem o]> σ))
  ∧ workingCopy (<[a := OArray (ls ++ [l])]> (<[l := OItem o]> σ)) a
      (ls ++ [l]) (items ++ [v]).
Proof.
  intros Hwc Hv l. pose proof (insert_fresh_subseteq σ (OItem o)) as Hsub.
  fold l in Hsub. pose proof (workingCopy_mono _ _ _ _ _ Hsub Hwc) as Hwc1.
  split_and!.
  - reflexivity.
  - apply push_run. exact (proj1 (proj1 Hwc1)).
  - apply workingCopy_push; [done| |].
    + eapply arrayOf_fresh; [exact (proj1 Hwc)|apply is_fresh].
    + apply itemAt_Some. exists o. split; [by rewrite lookup_insert_eq|].
      by eapply itemValue_mono.
Qed.

Lemma optionsValue_push_new σ a ls l x (o : OptionsObj) ov :
  σ !! a = Some (OArray ls) → l = fresh (dom σ) →
  optionsValue σ o = Some ov →
  optionsValue (<[a := OArray (ls ++ [l])]> (<[l := x]> σ)) o = Some ov.
Proof.
  intros Ha -> Ho. pose proof (insert_fresh_subseteq σ x) as Hsub.
  eapply optionsValue_insert; [by eapply lookup_weaken|apply notNested_array|].
  by eapply optionsValue_mono.
Qed.

Lemma baseValue_push_new σ a ls l x (b : BaseObj) bv :
  σ !! a = Some (OArray ls) → l = fresh (dom σ) →
  baseValue σ b = Some bv →
  baseValue (<[a := OArray (ls ++ [l])]> (<[l := x]> σ)) b = Some bv.
Proof.
  intros Ha -> Hb. pose proof (insert_fresh_subseteq σ x) as Hsub.
  eapply baseValue_insert; [by eapply lookup_weaken|apply notNested_array|].
  by eapply baseValue_mono.
Qed.

Lemma addSpecificItem_refines cfg item v (o : OptionsObj) ov a σ0 items :
  represents σ0 a items → itemAt σ0 item = Some v → optionsValue σ0 o = Some ov →
  ∃ res σ', Store.addSpecificItem cfg item a o σ0 = Some (res, σ')
            ∧ resultReads σ' res (Value.addSpecificItem cfg v items ov).
Proof.
  intros Hrep Hitem Ho.
  destruct (cloneItems_run _ _ _ Hrep) as (a' & ls' & σ1 & Hcl & Hs1 & Hwc).
  apply (itemAt_mono _ _ _ _ Hs1), itemAt_Some in Hitem as (io & Hio & Hiv).
  destruct (workingCopy_push_new _ _ _ _ _ _ Hwc Hiv) as (Hal & Hpush & Hwc2).
  unfold Store.addSpecificItem, Value.addSpecificItem, Value.cloneItems.
  rewrite (bind_run _ _ _ _ _ Hcl). unfold readItem, bind at 1. rewrite Hio.
  rewrite (bind_run _ _ _ _ _ Hal), (bind_run _ _ _ _ _ Hpush).
  eapply verified_reads; [exact (proj1 Hwc2)|].
  eapply optionsValue_push_new; [exact (proj1 (proj1 Hwc))|done|].
  by eapply optionsValue_mono.
Qed.

Lemma itemValue_refs_dom σ o v r :
  itemValue σ o = Some v → r ∈ nestedRefs o → r ∈ dom σ.
Proof.
  intros (d & p & w & Hd & Hp & Hw & _)%itemValue_Some. unfold nestedRefs.
  assert (Hres : ∀ {A} (as_ : object → option A) (x : option loc) y,
            nestedValue as_ σ x = Some y → r ∈ option_list x → r ∈ dom σ).
  { intros A as_ [l|] y; cbn; [|by intros _ ?%elem_of_nil].
    destruct (σ !! l) as [z|] eqn:Hl; cbn; [|done].
    intros _ ->%list_elem_of_singleton. apply elem_of_dom. by eexists. }
  rewrite !elem_of_app. intros [Hr|[Hr|Hr]]; eauto.
Qed.

(** [split] over the store: it returns what [split] by value returns, and
    the stack it appends shares no nested object with another stack of the
    returned collection. *)
Lemma split_refines cfg cat gen u amount (o : OptionsObj) ov a σ0 items :
  represents σ0 a items → optionsValue σ0 o = Some ov →
  ∃ res σ', Store.split cfg cat gen u amount a o σ0 = Some (res, σ')
    ∧ resultReads σ' res (Value.split cfg cat gen u amount items ov)
    ∧ ∀ a', res = Done a' →
        ∃ ls lnew, σ' !! a' = Some (OArray (ls ++ [lnew]))
          ∧ (lnew ∉ ls)
          ∧ ∀ l r, l ∈ ls → r ∈ itemRefs σ' l → r ∉ itemRefs σ' lnew.
Proof.
  intros Hrep Ho.
  destruct (cloneItems_run _ _ _ Hrep) as (a' & ls' & σ1 & Hcl & Hs1 & Hwc).
  destruct (readItems_run _ _ _ _ (proj1 Hwc)) as (os & Hos & Hvs).
  unfold Store.split, Value.split, Value.cloneItems.
  rewrite (bind_run _ _ _ _ _ Hcl), (bind_run _ _ _ _ _ Hos).
  pose proof (list_find_uid σ1 os items u Hvs) as Hfind.
  destruct (list_find (λ x : Item, uid x = u) items) as [[i v]|] eqn:Hf.
  2:{ rewrite Hfind. by eexists _, _. }
  destruct Hfind as (fo & -> & Hfo).
  apply itemValue_scalars in Hfo as (_ & Hq & Hid & _). rewrite <- Hq, <- Hid.
  pose proof (getBaseItem_run cat (id v) σ1) as Hbase. unfold Value.getBaseItem.
  destruct (cat !! id v) as [bv|].
  2:{ rewrite (bind_run _ _ _ _ _ Hbase). by eexists _, _. }
  destruct Hbase as (b & σ2 & Hbase & Hs2 & Hbv).
  rewrite (bind_run _ _ _ _ _ Hbase).
  destruct (_ || _); [by eexists _, _|].
  pose proof (workingCopy_mono _ _ _ _ _ Hs2 Hwc) as Hwc2.
  apply list_find_lookup in Hf as [Hi _].
  destruct (element_run σ2 a' ls' items i v (proj1 Hwc2) Hi)
    as (l & o1 & Hel & Hrd & Hli & Ho1).
  rewrite (bind_run _ _ _ _ _ Hel), (bind_run _ _ _ _ _ Hrd).
  apply itemValue_scalars in Ho1 as Hsc. destruct Hsc as (_ & Hq1 & _). rewrite <- Hq1.
  rewrite (bind_run _ _ _ _ _ (writeItem_run _ _ _)).
  pose proof (workingCopy_writeItem _ _ _ _ _ _ _ _ Hwc2 Hli
                (itemValue_set_quantity _ _ _ (quantity v - amount) Ho1)) as Hwc3.
  set (σ3 := <[l := OItem (set_quantity (quantity v - amount) o1)]> σ2) in *.
  set (v1 := set_quantity (quantity v - amount) v) in *.
  assert (Hat : itemAt σ3 l = Some v1).
  { destruct Hwc3 as [[_ Hall] _].
    refine (Forall2_lookup_lr _ _ _ _ _ _ Hall Hli _).
    apply list_lookup_insert_eq. by eapply lookup_lt_Some. }
  destruct (objectData_run _ _ _ Hat) as (cl & σ4 & Hod & Hs4 & _ & Hcl4).
  rewrite (bind_run _ _ _ _ _ Hod).
  apply itemAt_Some in Hcl4 as (co & Hco & Hcv).
  assert (Hnew : Forall (λ x, x ∉ dom σ3) (nestedRefs co)).
  { destruct (objectData_Some _ _ _ _ Hod) as (_ & _ & ? & co' & _ & Hco' & _ & Hfresh).
    by assert (co' = co) as -> by congruence. }
  unfold readItem, bind at 1. rewrite Hco.
  pose proof (workingCopy_mono _ _ _ _ _ Hs4 Hwc3) as Hwc4.
  destruct (workingCopy_push_new _ _ _ _ _ _ Hwc4
              (itemValue_set_uid _ _ _ (gen 0%nat)
                 (itemValue_set_quantity _ _ _ amount Hcv))) as (Hal & Hpush & Hwc5).
  rewrite (bind_run _ _ _ _ _ Hal), (bind_run _ _ _ _ _ Hpush).
  assert (Ho5 : optionsValue
                  (<[a' := OArray (ls' ++ [fresh (dom σ4)])]>
                     (<[fresh (dom σ4) :=
                          OItem (set_uid (gen 0%nat) (set_quantity amount co))]> σ4))
                  o = Some ov).
  { eapply optionsValue_push_new; [exact (proj1 (proj1 Hwc4))|done|].
    eapply optionsValue_mono; [exact Hs4|].
    eapply optionsValue_insert;
      [exact (proj2 (readItem_Some _ _ _ _ Hrd))|apply notNested_item|].
    eapply optionsValue_mono; [exact Hs2|]. by eapply optionsValue_mono. }
  rewrite (verified_run cfg _ _ _ _ o ov (proj1 Hwc5) Ho5).
  eexists _, _. split; [reflexivity|]. split.
  { destruct (verifyStackAndWeight cfg _ ov); cbn; [|done].
    eexists. exact (proj1 Hwc5). }
  intros a'' Hres. destruct (verifyStackAndWeight cfg _ ov); [|done].
  injection Hres as <-. exists ls', (fresh (dom σ4)).
  pose proof (proj2 Hwc5) as Hnd. apply list.NoDup_app in Hnd as (_ & Hdisj & _).
  assert (Hlnew : fresh (dom σ4) ∉ ls').
  { intros Hin. apply (Hdisj _ Hin). by apply list_elem_of_singleton. }
  split_and!; [exact (proj1 (proj1 Hwc5))|done|].
  intros l0 r Hl0 Hr Hr'.
  unfold itemRefs in Hr'. rewrite lookup_insert_ne, lookup_insert_eq in Hr'.
  2:{ intros Heq. apply (is_fresh (dom σ4)). rewrite <- Heq.
      apply elem_of_dom. eexists. exact (proj1 (proj1 Hwc4)). }
  cbn in Hr'. rewrite list.Forall_forall in Hnew. apply (Hnew r Hr').
  apply list_elem_of_lookup_1 in Hl0 as (j & Hj).
  destruct (arrayOf_lookup _ _ _ _ _ _ (proj1 Hwc3) Hj) as (oj & vj & _ & Hlj & Hvj).
  unfold itemRefs in Hr.
  rewrite lookup_insert_ne, lookup_insert_ne, (lookup_weaken _ _ _ _ Hlj Hs4) in Hr.
  - by eapply itemValue_refs_dom.
  - intros Heq. apply (is_fresh (dom σ4)). rewrite Heq.
    apply elem_of_dom. eexists. exact (lookup_weaken _ _ _ _ Hlj Hs4).
  - intros <-. pose proof (proj1 (proj1 Hwc3)) as Ha3. congruence.
Qed.

Lemma stack_refines cat u1 u2 a σ0 items :
  represents σ0 a items →
  ∃ res σ', Store.stack cat u1 u2 a σ0 = Some (res, σ')
            ∧ resultReads σ' res (Value.stack cat u1 u2 items).
Proof.
  intros Hrep.
  destruct (cloneItems_run _ _ _ Hrep) as (a' & ls' & σ1 & Hcl & Hs1 & Hwc).
  destruct (readItems_run _ _ _ _ (proj1 Hwc)) as (os & Hos & Hvs).
  unfold Store.stack, Value.stack, Value.cloneItems.
  rewrite (bind_run _ _ _ _ _ Hcl), (bind_run _ _ _ _ _ Hos).
  pose proof (list_find_uid σ1 os items u1 Hvs) as Hfind1.
  pose proof (list_find_uid σ1 os items u2 Hvs) as Hfind2.
  destruct (list_find (λ x : Item, uid x = u1) items) as [[ti target]|] eqn:Hf1.
  2:{ rewrite Hfind1. by eexists _, _. }
  destruct Hfind1 as (to & -> & Hto).
  destruct (list_find (λ x : Item, uid x = u2) items) as [[si source]|] eqn:Hf2.
  2:{ rewrite Hfind2. by eexists _, _. }
  destruct Hfind2 as (so & -> & Hso).
  apply itemValue_scalars in Hto as (_ & Hqt & Hidt & Hmt & _).
  apply itemValue_scalars in Hso as (_ & Hqs & Hids & _).
  rewrite <- Hqt, <- Hidt, <- Hmt, <- Hids.
  case_bool_decide; [by eexists _, _|].
  pose proof (getBaseItem_run cat (id source) σ1) as Hbase. unfold Value.getBaseItem.
  destruct (cat !! id source) as [bv|].
  2:{ rewrite (bind_run _ _ _ _ _ Hbase). by eexists _, _. }
  destruct Hbase as (b & σ2 & Hbase & Hs2 & Hbv).
  rewrite (bind_run _ _ _ _ _ Hbase).
  apply baseValue_scalars in Hbv as [_ Hmb]. rewrite <- Hmb.
  case_bool_decide; [by eexists _, _|].
  case_bool_decide; [by eexists _, _|].
  pose proof (workingCopy_mono _ _ _ _ _ Hs2 Hwc) as Hwc2.
  apply list_find_lookup in Hf1 as [Hti _]. apply list_find_lookup in Hf2 as [Hsi _].
  destruct (element_run σ2 a' ls' items ti target (proj1 Hwc2) Hti)
    as (lt & o1 & Hel & Hrd & Hli & Ho1).
  rewrite (bind_run _ _ _ _ _ Hel), (bind_run _ _ _ _ _ Hrd).
  apply itemValue_scalars in Ho1 as Hsc. destruct Hsc as (_ & Hq1 & _). rewrite <- Hq1.
  rewrite (bind_run _ _ _ _ _ (writeItem_run _ _ _)).
  set (diffToMax := maxStack target - quantity target) in *.
  pose proof (workingCopy_writeItem _ _ _ _ _ _ _ _ Hwc2 Hli
                (itemValue_set_quantity _ _ _ (quantity target + diffToMax) Ho1)) as Hwc3.
  set (σ3 := <[lt := OItem _]> σ2) in *.
  set (items1 := <[ti := set_quantity (quantity target + diffToMax) target]> items) in *.
  destruct (items1 !! si) as [source'|] eqn:Hsi'.
  2:{ apply lookup_ge_None in Hsi'. apply lookup_lt_Some in Hsi.
      unfold items1 in Hsi'. rewrite length_insert in Hsi'. lia. }
  destruct (element_run σ3 a' ls' items1 si source' (proj1 Hwc3) Hsi')
    as (ls & o2 & Hel2 & Hrd2 & Hli2 & Ho2).
  rewrite (bind_run _ _ _ _ _ Hel2), (bind_run _ _ _ _ _ Hrd2).
  apply itemValue_scalars in Ho2 as Hsc. destruct Hsc as (_ & Hq2 & _). rewrite <- Hq2.
  case_bool_decide.
  - rewrite (bind_run _ _ _ _ _ (writeItem_run _ _ _)).
    eexists _, _. split; [reflexivity|]. cbn.
    eapply workingCopy_represents, workingCopy_writeItem; [exact Hwc3|exact Hli2|].
    by apply itemValue_set_quantity.
  - rewrite (bind_run _ _ _ _ _ (splice_run _ _ _ si (proj1 (proj1 Hwc3)))).
    eexists _, _. split; [reflexivity|]. cbn.
    eapply workingCopy_represents, workingCopy_splice, Hwc3.
Qed.

(** The loop of [invokeDecay] never leaves the array: it starts below its
    length and every round lowers the index. *)
Lemma invokeDecay_loop_refines n σ a ls items :
  workingCopy σ a ls items → (n ≤ length items)%nat →
  ∃ σ' ls', Store.invokeDecay_loop n a σ = Some ((), σ')
            ∧ workingCopy σ' a ls' (Value.invokeDecay_loop n items).
Proof.
  revert σ ls items. induction n as [|n IH]; intros σ ls items Hwc Hn.
  { by exists σ, ls. }
  cbn [Store.invokeDecay_loop Value.invokeDecay_loop].
  destruct (items !! n) as [v|] eqn:Hv; [|apply lookup_ge_None in Hv; lia].
  destruct (element_run σ a ls items n v (proj1 Hwc) Hv)
    as (l & o & Hel & Hrd & Hli & Ho).
  rewrite (bind_run _ _ _ _ _ Hel), (bind_run _ _ _ _ _ Hrd).
  apply itemValue_scalars in Ho as Hsc.
  destruct Hsc as (_ & _ & _ & _ & _ & _ & _ & Hd). rewrite <- Hd.
  destruct (decay v) as [d|]; [|apply (IH _ _ _ Hwc); lia].
  rewrite (bind_run _ _ _ _ _ (writeItem_run _ _ _)).
  pose proof (workingCopy_writeItem _ _ _ _ _ _ _ _ Hwc Hli
                (itemValue_set_decay _ _ _ (Some (d - 1)) Ho)) as Hwc1.
  case_bool_decide.
  - rewrite (bind_run _ _ _ _ _ (splice_run _ _ _ n (proj1 (proj1 Hwc1)))).
    apply (IH _ _ _ (workingCopy_splice _ _ _ _ n Hwc1)).
    rewrite length_delete by (rewrite list_lookup_insert_eq; [done|lia]).
    rewrite length_insert. lia.
  - apply (IH _ _ _ Hwc1). rewrite length_insert. lia.
Qed.

Lemma invokeDecay_refines a σ0 items :
  represents σ0 a items →
  ∃ a' σ', Store.invokeDecay a σ0 = Some (a', σ')
           ∧ represents σ' a' (Value.invokeDecay items).
Proof.
  intros Hrep.
  destruct (cloneItems_run _ _ _ Hrep) as (a' & ls' & σ1 & Hcl & Hs1 & Hwc).
  destruct (invokeDecay_loop_refines (length items) σ1 a' ls' items Hwc (le_n _))
    as (σ2 & ls2 & Hloop & Hwc2).
  unfold Store.invokeDecay, Value.invokeDecay, Value.cloneItems.
  rewrite (bind_run _ _ _ _ _ Hcl). unfold readArray, bind at 1.
  rewrite (proj1 (proj1 Hwc)). rewrite (arrayOf_length _ _ _ _ (proj1 Hwc)).
  rewrite (bind_run _ _ _ _ _ Hloop).
  eexists _, _. split; [reflexivity|]. by eapply workingCopy_represents.
Qed.

(** *** The loops of [add] *)

Lemma nestedKept_refl σ : nestedKept σ σ.
Proof. by intros l x. Qed.

Lemma nestedKept_trans σ1 σ2 σ3 :
  nestedKept σ1 σ2 → nestedKept σ2 σ3 → nestedKept σ1 σ3.
Proof. intros H12 H23 l x Hl Hx. apply H23; [|done]. by apply H12. Qed.

Lemma nestedKept_subseteq σ σ' : σ ⊆ σ' → nestedKept σ σ'.
Proof. intros Hsub l x Hl _. by eapply lookup_weaken. Qed.

Lemma nestedKept_insert σ l old new :
  σ !! l = Some old → notNested old → nestedKept σ (<[l := new]> σ).
Proof.
  intros Hl Hold l' x Hl' Hx. rewrite lookup_insert_ne; [done|].
  intros ->. apply Hx. congruence.
Qed.

Lemma nestedValue_kept {A} (as_ : object → option A) σ σ' r w :
  (∀ x y, as_ x = Some y → ¬ notNested x) →
  nestedKept σ σ' → nestedValue as_ σ r = Some w → nestedValue as_ σ' r = Some w.
Proof.
  intros Has Hkept. destruct r as [l|]; cbn; [|done].
  destruct (σ !! l) as [x|] eqn:Hl; cbn; [|done].
  destruct (as_ x) as [y|] eqn:Hx; [|done].
  rewrite (Hkept l x Hl (Has x y Hx)). cbn. by rewrite Hx.
Qed.

Lemma asData_nested x y : asData x = Some y → ¬ notNested x.
Proof. intros Hx (H1 & _). congruence. Qed.

Lemma asPosition_nested x y : asPosition x = Some y → ¬ notNested x.
Proof. intros Hx (_ & H2 & _). congruence. Qed.

Lemma asRules_nested x y : asRules x = Some y → ¬ notNested x.
Proof. intros Hx (_ & _ & H3). congruence. Qed.

Lemma baseValue_kept σ σ' (b : BaseObj) bv :
  nestedKept σ σ' → baseValue σ b = Some bv → baseValue σ' b = Some bv.
Proof.
  intros Hkept (p & r & Hp & Hr & ->)%baseValue_Some.
  apply baseValue_Some. exists p, r. split_and!; [| |done].
  - exact (nestedValue_kept _ _ _ _ _ asPosition_nested Hkept Hp).
  - exact (nestedValue_kept _ _ _ _ _ asRules_nested Hkept Hr).
Qed.

Lemma optionsValue_kept σ σ' (o : OptionsObj) ov :
  nestedKept σ σ' → optionsValue σ o = Some ov → optionsValue σ' o = Some ov.
Proof.
  intros Hkept (d & Hd & ->)%optionsValue_Some. apply optionsValue_Some.
  exists d. split; [|done].
  exact (nestedValue_kept _ _ _ _ _ asData_nested Hkept Hd).
Qed.

Lemma handleItemStacking_loop_refines (b : BaseObj) bv n i q σ a ls items :
  workingCopy σ a ls items → id bv = id b → maxStack bv = maxStack b →
  ∃ σ', Store.handleItemStacking_loop n i a b q σ
        = Some ((Value.handleItemStacking_loop n i items bv q).2, σ')
        ∧ workingCopy σ' a ls (Value.handleItemStacking_loop n i items bv q).1
        ∧ nestedKept σ σ'.
Proof.
  intros Hwc Hid Hmax. revert i q σ items Hwc.
  induction n as [|n IH]; intros i q σ items Hwc;
    cbn [Store.handleItemStacking_loop Value.handleItemStacking_loop].
  { exists σ. split_and!; [done..|apply nestedKept_refl]. }
  unfold readArray, bind at 1. rewrite (proj1 (proj1 Hwc)).
  destruct (items !! i) as [v|] eqn:Hv.
  2:{ assert (ls !! i = None) as ->.
      { apply lookup_ge_None. apply lookup_ge_None in Hv.
        by rewrite (arrayOf_length _ _ _ _ (proj1 Hwc)). }
      exists σ. split_and!; [done..|apply nestedKept_refl]. }
  destruct (arrayOf_lookup_value _ _ _ _ _ _ (proj1 Hwc) Hv) as (l & o & Hl & Hlo & Ho).
  rewrite Hl. unfold readItem, bind at 1. rewrite Hlo.
  apply itemValue_scalars in Ho as Hsc. destruct Hsc as (_ & Hq & Hido & _).
  rewrite <- Hq, <- Hido, <- Hid, <- Hmax.
  destruct (_ || _); [by apply IH|].
  case_bool_decide; [exists σ; split_and!; [done..|apply nestedKept_refl]|].
  rewrite (bind_run _ _ _ _ _ (writeItem_run _ _ _)).
  set (q1 := Z.min (maxStack bv - quantity v) q).
  pose proof (workingCopy_writeItem _ _ _ _ _ _ _ _ Hwc Hl
                (itemValue_set_quantity _ _ _ (quantity v + q1) Ho)) as Hwc1.
  destruct (IH (S i) (q - q1) _ _ Hwc1) as (σ' & Hrun & Hwc' & Hkept).
  exists σ'. split_and!; [done..|].
  eapply nestedKept_trans; [|exact Hkept].
  eapply nestedKept_insert; [exact Hlo|apply notNested_item].
Qed.

Lemma addNewItemStacks_loop_refines gen (b : BaseObj) bv (o : OptionsObj) ov
    fuel k q σ a ls items items' :
  workingCopy σ a ls items → baseValue σ b = Some bv → optionsValue σ o = Some ov →
  Value.addNewItemStacks_loop gen fuel k items bv q ov = Some items' →
  ∃ σ' ls', Store.addNewItemStacks_loop gen fuel k a b q o σ = Some ((), σ')
            ∧ workingCopy σ' a ls' items' ∧ nestedKept σ σ'.
Proof.
  revert k q σ ls items. induction fuel as [|fuel IH]; intros k q σ ls items Hwc Hb Ho;
    cbn [Store.addNewItemStacks_loop Value.addNewItemStacks_loop];
    case_bool_decide as Hq; try done.
  { intros [= <-]. exists σ, ls. split_and!; [done..|apply nestedKept_refl]. }
  2:{ intros [= <-]. exists σ, ls. split_and!; [done..|apply nestedKept_refl]. }
  intros Hloop. pose proof (baseValue_scalars _ _ _ Hb) as [_ Hmax]. rewrite <- Hmax.
  set (q1 := Z.min q (maxStack bv)) in *.
  pose proof (itemValue_newItem σ b bv o ov q1 (gen k) Hb Ho) as Hnew.
  destruct (workingCopy_push_new _ _ _ _ _ _ Hwc Hnew) as (Hal & Hpush & Hwc2).
  rewrite (bind_run _ _ _ _ _ Hal), (bind_run _ _ _ _ _ Hpush).
  set (l := fresh (dom σ)) in *.
  set (σ1 := <[l := OItem _]> σ) in *.
  assert (Hkept1 : nestedKept σ (<[a := OArray (ls ++ [l])]> σ1)).
  { eapply nestedKept_trans; [apply nestedKept_subseteq, insert_fresh_subseteq|].
    eapply nestedKept_insert; [|apply notNested_array].
    eapply lookup_weaken; [exact (proj1 (proj1 Hwc))|apply insert_fresh_subseteq]. }
  destruct (IH (S k) (q - q1) _ _ _ Hwc2 (baseValue_kept _ _ _ _ Hkept1 Hb)
              (optionsValue_kept _ _ _ _ Hkept1 Ho) Hloop)
    as (σ' & ls' & Hrun & Hwc' & Hkept').
  exists σ', ls'. split_and!; [done..|]. by eapply nestedKept_trans.
Qed.

Lemma addNewItemStacks_refines cfg gen (b : BaseObj) bv (o : OptionsObj) ov
    fuel q σ a ls items r :
  workingCopy σ a ls items → baseValue σ b = Some bv → optionsValue σ o = Some ov →
  Value.addNewItemStacks cfg gen fuel items bv q ov = Some r →
  ∃ res σ', Store.addNewItemStacks cfg gen fuel a b q o σ = Some (res, σ')
            ∧ resultReads σ' res r.
Proof.
  intros Hwc Hb Ho. unfold Value.addNewItemStacks, Store.addNewItemStacks.
  destruct (Value.addNewItemStacks_loop gen fuel 0 items bv q ov) as [items'|] eqn:Hloop;
    [|done]. cbn. intros [= <-].
  destruct (addNewItemStacks_loop_refines _ _ _ _ _ _ _ _ _ _ _ _ _ Hwc Hb Ho Hloop)
    as (σ' & ls' & Hrun & Hwc' & Hkept).
  rewrite (bind_run _ _ _ _ _ Hrun).
  eapply verified_reads; [exact (proj1 Hwc')|by eapply optionsValue_kept].
Qed.

Lemma add_refines cfg cat gen fuel i q (o : OptionsObj) ov a σ0 items r :
  represents σ0 a items → optionsValue σ0 o = Some ov →
  Value.add cfg cat gen fuel i q items ov = Some r →
  ∃ res σ', Store.add cfg cat gen fuel i q a o σ0 = Some (res, σ')
            ∧ resultReads σ' res r.
Proof.
  intros Hrep Ho. unfold Value.add, Store.add, Value.getBaseItem, Value.cloneItems.
  pose proof (getBaseItem_run cat i σ0) as Hbase.
  destruct (cat !! i) as [bv|].
  2:{ intros [= <-]. rewrite (bind_run _ _ _ _ _ Hbase). by eexists _, _. }
  destruct Hbase as (b & σ1 & Hbase & Hs1 & Hbv).
  rewrite (bind_run _ _ _ _ _ Hbase).
  assert (Hrep1 : represents σ1 a items).
  { destruct Hrep as (ls & Harr). exists ls. by eapply arrayOf_mono. }
  destruct (cloneItems_run _ _ _ Hrep1) as (a' & ls' & σ2 & Hcl & Hs2 & Hwc).
  rewrite (bind_run _ _ _ _ _ Hcl).
  pose proof (baseValue_mono _ _ _ _ Hs2 Hbv) as Hbv2.
  assert (Ho2 : optionsValue σ2 o = Some ov).
  { eapply optionsValue_mono; [exact Hs2|]. by eapply optionsValue_mono. }
  pose proof (baseValue_scalars _ _ _ Hbv2) as [Hid Hmax]. rewrite <- Hmax.
  case_bool_decide; [by eapply addNewItemStacks_refines|].
  unfold Value.handleItemStacking, Store.handleItemStacking. rewrite <- Hmax.
  rewrite ?(bool_decide_eq_false_2 (maxStack bv ≤ 1)) by done.
  unfold readArray, bind at 1. rewrite (proj1 (proj1 Hwc)).
  destruct (handleItemStacking_loop_refines b bv (length ls') 0 q σ2 a' ls' items
              Hwc Hid Hmax) as (σ3 & Hrun & Hwc3 & Hkept).
  rewrite <- (arrayOf_length _ _ _ _ (proj1 Hwc)).
  rewrite (bind_run _ _ _ _ _ Hrun).
  destruct (Value.handleItemStacking_loop _ _ _ _ _) as [filled remaining].
  cbn [fst snd] in *. case_bool_decide.
  - eapply addNewItemStacks_refines; [exact Hwc3|by eapply baseValue_kept
                                     |by eapply optionsValue_kept].
  - intros [= <-]. eexists _, _. split; [reflexivity|].
    by eapply workingCopy_represents.
Qed.

(** Whenever the engine by value returns on the values a collection and the
    parameters read as, the engine over the store returns as well (it is
    not stuck), and its outcome reads as the outcome by value. *)
Theorem store_refines_value cfg cat gen fuel (sop : Store.Op) op a σ0 items r :
  represents σ0 a items → opValue σ0 sop = Some op →
  Value.run cfg cat gen fuel op items = Some r →
  ∃ res σ', Store.run cfg cat gen fuel sop a σ0 = Some (res, σ')
            ∧ resultReads σ' res r.
Proof.
  intros Hrep Hop.
  destruct sop as [i q o|item o|u q|u|u q|u am o|u1 u2|u p|];
    cbn [opValue] in Hop; cbn [Store.run].
  - apply option_bind_Some in Hop as (ov & Ho & [= <-]). cbn [Value.run].
    by apply add_refines.
  - apply option_bind_Some in Hop as (v & Hv & (ov & Ho & [= <-])%option_bind_Some).
    cbn [Value.run]. intros [= <-]. by apply addSpecificItem_refines.
  - injection Hop as <-. cbn [Value.run]. intros [= <-]. by apply remove_refines.
  - injection Hop as <-. cbn [Value.run]. intros [= <-].
    destruct (removeAt_refines u a σ0 items Hrep) as (res & σ' & Hrun & Hres).
    rewrite (bind_run _ _ _ _ _ Hrun). eexists _, _. split; [reflexivity|].
    destruct (Value.removeAt u items) as [[items' removed]|msg], res as [[a' it]|msg'];
      cbn; try done. by destruct Hres.
  - injection Hop as <-. cbn [Value.run]. intros [= <-].
    by apply removeQuantityFrom_refines.
  - apply option_bind_Some in Hop as (ov & Ho & [= <-]). cbn [Value.run].
    intros [= <-].
    destruct (split_refines cfg cat gen u am o ov a σ0 items Hrep Ho)
      as (res & σ' & Hrun & Hres & _). by exists res, σ'.
  - injection Hop as <-. cbn [Value.run]. intros [= <-]. by apply stack_refines.
  - apply option_bind_Some in Hop as (pv & Hp & [= <-]). cbn [Value.run].
    intros [= <-]. by apply update_refines.
  - injection Hop as <-. cbn [Value.run]. intros [= <-].
    destruct (invokeDecay_refines a σ0 items Hrep) as (a' & σ' & Hrun & Hres).
    rewrite (bind_run _ _ _ _ _ Hrun). by eexists _, _.
Qed.

End Refinement.

(** ** The input of a call *)

(** C7, as the code has it.  A call that returns leaves every object of
    the store it started from as it was, the caller's array and its stacks
    among them, whether it succeeds or fails: a collection that read as
    [items] before the call reads as [items] after it.  The collection the
    call returns consists of objects created during the call; the one
    exception are nested objects that the caller handed in by reference
    (those of the stack given to [addSpecificItem], [options.data] of [add],
    the nested objects of an [update] patch).  And the call does return, with
    the outcome of the engine by value, whenever the collection and the
    parameters read as values on which the engine by value returns. *)
Theorem calls_leave_the_input_alone cfg cat gen fuel (sop : Store.Op) a
    (σ0 : gmap Store.loc Store.object) :
  (∀ res σ',
     Store.run cfg cat gen fuel sop a σ0 = Some (res, σ') →
     (∀ l o, σ0 !! l = Some o → σ' !! l = Some o)
     ∧ (∀ items, represents σ0 a items → represents σ' a items)
     ∧ (Store.inScope σ0 sop →
        ∀ a', res = Done a' →
          ∀ l, l ∈ Store.reach σ' a' → l ∈ dom σ0 → l ∈ Store.handedIn σ0 sop))
  ∧ (∀ items op r,
       represents σ0 a items → opValue σ0 sop = Some op →
       Value.run cfg cat gen fuel op items = Some r →
       ∃ res σ', Store.run cfg cat gen fuel sop a σ0 = Some (res, σ')
                 ∧ resultReads σ' res r).
Proof.
  split.
  - intros res σ' [Hsub Hback]%run_hands_back. split_and!.
    + intros l o Hl. by eapply lookup_weaken.
    + intros items (ls & Harr). exists ls. by eapply arrayOf_mono.
    + intros Hscope a' -> l Hl Hdom.
      destruct (Hback Hscope) as [_ Hown].
      exact (owned_reach _ _ _ _ _ (Hown a' eq_refl) Hl Hdom).
  - intros items op r. apply store_refines_value.
Qed.

Lemma calls_leave_the_input_alone_witness :
  ∃ res σ',
    Store.run Sample.config Sample.catalogue Sample.generate 0
      (Store.OpStack "a" "b") StoreSample.collection StoreSample.σ0 = Some (res, σ')
    ∧ (∀ l o, StoreSample.σ0 !! l = Some o → σ' !! l = Some o).
Proof.
  eexists _, _. split.
  - vm_compute. reflexivity.
  - refine (proj1 (proj1 (calls_leave_the_input_alone Sample.config Sample.catalogue
                     Sample.generate 0 (Store.OpStack "a" "b") StoreSample.collection
                     StoreSample.σ0) _ _ _)).
    vm_compute. reflexivity.
Defined.

(** The stack handed to [addSpecificItem] is a stack of the collection
    itself: the copy that is appended holds the same auxiliary-data object
    (location 3) as the input's stack. *)
Lemma addSpecificItem_shares_data_counterexample :
  ∃ a' σ',
    Store.run Sample.config Sample.catalogue Sample.generate 0
      (Store.OpAddSpecificItem 2%positive noOptions)
      StoreSample.collection StoreSample.σ0 = Some (Done a', σ')
    ∧ 3%positive ∈ Store.reach StoreSample.σ0 StoreSample.collection
    ∧ 3%positive ∈ Store.reach σ' a'.
Proof.
  eexists _, _. split; [vm_compute; reflexivity|].
  split; apply (bool_decide_unpack _); vm_compute; exact I.
Qed.

(** ** The two stacks of a split *)



(** ** Units of an item type under the operations *)

Lemma totalQuantity_insert_any j (items : list Item) k (it it' : Item) :
  items !! k = Some it →
  totalQuantity j (<[k := it']> items)
  = totalQuantity j items
    - (if bool_decide (id it = j) then quantity it else 0)
    + (if bool_decide (id it' = j) then quantity it' else 0).
Proof.
  intros Hk. rewrite insert_take_drop by (by eapply lookup_lt_Some).
  rewrite <- (take_drop_middle items k it Hk) at 3.
  rewrite !totalQuantity_app, !totalQuantity_cons. lia.
Qed.







(** X2.  A catalogue entry with a max-stack of zero or below keeps [add]
    from returning: for a positive quantity the loop of [addNewItemStacks]
    takes [min quantity maxStack <= 0] units per round and never gets to
    the end, whatever fuel it is given. *)
Theorem add_never_returns_without_max_stack cfg cat gen i toPlace (items : list Item)
    options baseItem :
  cat !! i = Some baseItem → maxStack baseItem ≤ 0 → 0 < toPlace →
  ∀ fuel, add cfg cat gen fuel i toPlace items options = None.
Proof.
  intros Hcat Hmax Hpos fuel. unfold add, getBaseItem, addNewItemStacks. rewrite Hcat.
  rewrite bool_decide_eq_true_2 by lia.
  by rewrite addNewItemStacks_loop_diverges by lia.
Qed.

Lemma add_never_returns_without_max_stack_witness :
  add Sample.config (ItemManager.init [Scenarios.crate]) Sample.generate 1000
      "crate" 1 [] noOptions = None.
Proof.
  apply (add_never_returns_without_max_stack Sample.config
           (ItemManager.init [Scenarios.crate]) Sample.generate "crate" 1 [] noOptions
           Scenarios.crate); [reflexivity|cbn; lia|lia].
Defined.

(** X3.  [remove] and [removeQuantityFrom] take out the same: on every
    collection either both refuse or both return the same collection.  They
    differ in the message a refusal leaves: [remove] leaves none,
    [removeQuantityFrom] says whether the stack or the quantity was
    missing. *)
Theorem remove_agrees_with_removeQuantityFrom u toRemove (items : list Item) :
  match remove u toRemove items, removeQuantityFrom u toRemove items with
  | Done items1, Done items2 => items1 = items2
  | Undefined msg1, Undefined msg2 =>
      msg1 = Messages.none
      ∧ (msg2 = Messages.removeNotFound ∨ msg2 = Messages.removeQuantity)
  | _, _ => False
  end.
Proof.
  unfold remove, removeQuantityFrom, cloneItems.
  destruct (list_find _ items) as [[i it]|]; [|by split; [|left]].
  repeat case_bool_decide; try done; try lia. by split; [|right].
Qed.



(** ** Looking a stack up *)

Lemma list_find_uid_None u (items : list Item) :
  list_find (λ x : Item, uid x = u) items = None ↔ u ∉ uids items.
Proof.
  rewrite list_find_None, list.Forall_forall. unfold uids. rewrite list_elem_of_fmap.
  split.
  - intros H (x & -> & Hx). by apply (H x).
  - intros H x Hx Hu. apply H. by exists x.
Qed.

Lemma list_find_uid_split u (items : list Item) i (it : Item) :
  list_find (λ x : Item, uid x = u) items = Some (i, it) →
  items = take i items ++ it :: drop (S i) items
  ∧ uid it = u
  ∧ Forall (λ x : Item, uid x ≠ u) (take i items)
  ∧ length (take i items) = i.
Proof.
  intros (Hi & Hu & Hbefore)%list_find_Some. split_and!; [|done| |].
  - by rewrite take_drop_middle.
  - apply list.Forall_forall. intros x [k Hk]%list_elem_of_lookup_1.
    apply lookup_take_Some in Hk as [Hk Hlt]. by eapply Hbefore.
  - apply length_take_le. apply lookup_lt_Some in Hi. lia.
Qed.

Lemma list_find_uid_app_l u (l1 l2 : list Item) i (it : Item) :
  list_find (λ x : Item, uid x = u) l1 = Some (i, it) →
  list_find (λ x : Item, uid x = u) (l1 ++ l2) = Some (i, it).
Proof. intros H. rewrite list_find_app_l with (i:=i) (x:=it); done. Qed.

(** X5.  [removeAt] takes out the first stack with the identifier and
    nothing else: the collection returned is the input without that stack,
    in order, and the stack comes back in an array of its own.  It refuses,
    with "Could not find item to remove", exactly when no stack has the
    identifier. *)
Theorem removeAt_takes_the_first_match u (items : list Item) :
  match removeAt u items with
  | Done (items', removed) =>
      ∃ pre (it : Item) suf,
        items = pre ++ it :: suf ∧ uid it = u
        ∧ Forall (λ x : Item, uid x ≠ u) pre
        ∧ items' = pre ++ suf ∧ removed = [it]
  | Undefined msg => msg = Messages.removeNotFound ∧ u ∉ uids items
  end.
Proof.
  unfold removeAt, cloneItems.
  destruct (list_find _ items) as [[i it]|] eqn:Hfind.
  - destruct (list_find_uid_split _ _ _ _ Hfind) as (Hitems & Hu & Hpre & Hlen).
    exists (take i items), it, (drop (S i) items). split_and!; try done.
    by rewrite delete_take_drop.
  - split; [done|]. by apply list_find_uid_None.
Qed.

Lemma list_find_cons_eq {A} (P : A → Prop) `{!∀ x, Decision (P x)} (x : A) (l : list A) :
  list_find P (x :: l)
  = if decide (P x) then Some (0%nat, x)
    else prod_map S Datatypes.id <$> list_find P l.
Proof. reflexivity. Qed.

Lemma list_find_uid_insert v (l : list Item) i (it it' : Item) :
  l !! i = Some it → uid it' = uid it →
  list_find (λ x : Item, uid x = v) (<[i := it']> l)
  = match list_find (λ x : Item, uid x = v) l with
    | Some (k, y) => Some (k, if bool_decide (k = i) then it' else y)
    | None => None
    end.
Proof.
  revert i. induction l as [|x l IH]; intros i Hi Hu; [done|].
  destruct i as [|i]; simpl in Hi.
  - injection Hi as ->. change (<[0%nat := it']> (it :: l)) with (it' :: l).
    rewrite !list_find_cons_eq, Hu.
    destruct (decide (uid it = v)); [done|].
    destruct (list_find _ l) as [[k y]|]; cbn; [|done].
    by rewrite bool_decide_eq_false_2 by lia.
  - change (<[S i := it']> (x :: l)) with (x :: <[i := it']> l).
    rewrite !list_find_cons_eq.
    destruct (decide (uid x = v)); [done|].
    rewrite (IH i Hi Hu).
    destruct (list_find _ l) as [[k y]|]; cbn; [|done].
    destruct (decide (k = i)) as [->|Hne].
    + by rewrite !bool_decide_eq_true_2 by done.
    + by rewrite !bool_decide_eq_false_2 by lia.
Qed.

Lemma getByUid_app u (l1 l2 : list Item) :
  getByUid u (l1 ++ l2)
  = match getByUid u l1 with
    | Done found => Done found
    | Undefined _ => getByUid u l2
    end.
Proof.
  unfold getByUid.
  destruct (list_find (λ x : Item, uid x = u) l1) as [[i x]|] eqn:H1.
  - by rewrite (list_find_app_l _ _ _ _ _ H1).
  - rewrite (list_find_app_r _ _ _ H1).
    by destruct (list_find _ l2) as [[k y]|].
Qed.

(** X6.  After a successful [addSpecificItem], looking an identifier up
    gives what it gave before for every identifier the collection already
    had; the appended stack is found under its identifier only when the
    collection had no stack with that identifier (an older stack with the
    same identifier hides it). *)
Theorem addSpecificItem_then_getByUid cfg (item : Item) (items items' : list Item)
    options :
  addSpecificItem cfg item items options = Done items' →
  ∀ u,
    getByUid u items'
    = match getByUid u items with
      | Done found => Done found
      | Undefined msg => if bool_decide (uid item = u) then Done item else Undefined msg
      end.
Proof.
  unfold addSpecificItem, cloneItems.
  destruct (@verifyStackAndWeight _ _ _ _ _ _); [|done]. intros [= <-] u.
  rewrite getByUid_app. destruct (getByUid u items) as [found|msg] eqn:Hget; [done|].
  unfold getByUid in *. cbn.
  destruct (list_find _ items) as [[? ?]|]; [done|]. injection Hget as <-.
  destruct (decide (uid item = u)).
  - by rewrite bool_decide_eq_true_2.
  - by rewrite bool_decide_eq_false_2.
Qed.

Lemma addSpecificItem_then_getByUid_witness :
  getByUid "b" [Sample.bottles "a" 3; Sample.bottles "b" 1] = Done (Sample.bottles "b" 1).
Proof.
  rewrite (addSpecificItem_then_getByUid Sample.config (Sample.bottles "b" 1)
             [Sample.bottles "a" 3] [Sample.bottles "a" 3; Sample.bottles "b" 1]
             noOptions eq_refl "b").
  reflexivity.
Defined.

Lemma getByUid_Done u (items : list Item) (it : Item) :
  getByUid u items = Done it ↔
  ∃ i, list_find (λ x : Item, uid x = u) items = Some (i, it).
Proof.
  unfold getByUid. destruct (list_find _ items) as [[i x]|]; split.
  - intros [= ->]. by exists i.
  - by intros (k & [= _ ->]).
  - done.
  - by intros (k & ?).
Qed.

Lemma Object_assign_noPatch (it : Item) : Object_assign it noPatch = it.
Proof. by destruct it as [? ? ? []]. Qed.

Lemma Object_assign_uid (it : Item) (data : Patch) :
  p_uid data = None → uid (Object_assign it data) = uid it.
Proof. intros H. cbn. by rewrite H. Qed.

(** X7.  [update] on a stack that is in the collection.  A patch that sets
    [decay] to zero or below does not patch: the call returns what
    [removeAt] returns as the collection.  Any other patch is written over
    the stack, the collection keeps its length, and when the patch leaves
    the identifier alone the patched stack is what [getByUid] finds
    afterwards while every other lookup is unchanged.  The empty patch
    returns the collection as it is. *)
Theorem update_patches_or_removes u (data : Patch) (items : list Item) (it : Item) :
  getByUid u items = Done it →
  (spentDecay data = true →
     update u data items
     = match removeAt u items with
       | Done (items', _) => Done items'
       | Undefined msg => Undefined msg
       end)
  ∧ (spentDecay data = false →
       ∃ items',
         update u data items = Done items'
         ∧ length items' = length items
         ∧ (p_uid data = None →
              getByUid u items' = Done (Object_assign it data)
              ∧ ∀ v, v ≠ u → getByUid v items' = getByUid v items))
  ∧ update u noPatch items = Done items.
Proof.
  intros (i & Hfind)%getByUid_Done.
  pose proof (list_find_lookup _ _ _ _ Hfind) as [Hi Hu].
  unfold update, removeAt, cloneItems. rewrite Hfind. fold (spentDecay data).
  split_and!.
  - by intros ->.
  - intros ->. eexists. split; [reflexivity|]. split; [by rewrite length_insert|].
    intros Hpu. pose proof (Object_assign_uid it data Hpu) as Hsame.
    split.
    + unfold getByUid. rewrite (list_find_uid_insert u items i it _ Hi Hsame), Hfind.
      by rewrite bool_decide_eq_true_2.
    + intros v Hv. unfold getByUid.
      rewrite (list_find_uid_insert v items i it _ Hi Hsame).
      destruct (list_find (λ x : Item, uid x = v) items) as [[k y]|] eqn:Hk; [|done].
      destruct (decide (k = i)) as [->|Hne]; [|by rewrite bool_decide_eq_false_2].
      apply list_find_lookup in Hk as [Hk Hkv]. congruence.
  - cbn. rewrite Object_assign_noPatch. by rewrite list_insert_id.
Qed.

Lemma update_patches_or_removes_witness :
  update "a" noPatch [Sample.bottles "a" 3; Sample.bottles "b" 1]
  = Done [Sample.bottles "a" 3; Sample.bottles "b" 1].
Proof.
  exact (proj2 (proj2 (update_patches_or_removes "a" noPatch
                         [Sample.bottles "a" 3; Sample.bottles "b" 1]
                         (Sample.bottles "a" 3) eq_refl))).
Defined.

(** ** Split and merge *)


Lemma list_find_uid_app_new u (l : list Item) (new : Item) :
  u ∉ uids l → uid new = u →
  list_find (λ x : Item, uid x = u) (l ++ [new]) = Some (length l, new).
Proof.
  intros Hnot%list_find_uid_None Hu.
  rewrite (list_find_app_r _ _ _ Hnot), list_find_cons_eq.
  by rewrite decide_True.
Qed.



Lemma getByUid_Undefined u (items : list Item) msg :
  getByUid u items = Undefined msg ↔ msg = Messages.getByUid ∧ u ∉ uids items.
Proof.
  unfold getByUid. destruct (list_find _ items) as [[i x]|] eqn:Hfind; split.
  - done.
  - intros [_ Hnot%list_find_uid_None]. congruence.
  - intros [= <-]. split; [done|]. by apply list_find_uid_None.
  - by intros [-> _].
Qed.

(** X9.  [stack] never refuses without a reason, and each message has one
    cause: "Could not find both items in inventory" when one of the
    identifiers is not in the collection; otherwise "Both items were not the
    same" when the item types differ, "Item cannot be stacked" when the
    catalogue has no entry for the type or gives it a max-stack of one or
    below, "Item is already at max stack" when the target holds its own
    max-stack or more.  A merge that succeeds found both stacks, of one
    type that the catalogue lets stack, the target with room left, and
    returns a collection of the same length or one stack shorter. *)
Theorem stack_refuses_with_a_reason cat u1 u2 (items : list Item) :
  (∀ msg, stack cat u1 u2 items = Undefined msg →
     (msg = Messages.stackNotFound ∧ (u1 ∉ uids items ∨ u2 ∉ uids items))
     ∨ ∃ target source : Item,
         getByUid u1 items = Done target ∧ getByUid u2 items = Done source
         ∧ ((msg = Messages.notSame ∧ id target ≠ id source)
            ∨ (msg = Messages.cannotStack ∧ id target = id source
               ∧ ∀ baseItem, cat !! id source = Some baseItem → maxStack baseItem ≤ 1)
            ∨ (msg = Messages.alreadyMax ∧ id target = id source
               ∧ maxStack target ≤ quantity target)))
  ∧ (∀ items', stack cat u1 u2 items = Done items' →
       ∃ (target source : Item) baseItem,
         getByUid u1 items = Done target ∧ getByUid u2 items = Done source
         ∧ id target = id source
         ∧ cat !! id source = Some baseItem ∧ 1 < maxStack baseItem
         ∧ quantity target < maxStack target
         ∧ (length items' = length items ∨ S (length items') = length items)).
Proof.
  unfold stack, cloneItems, getBaseItem.
  destruct (list_find (λ x : Item, uid x = u1) items) as [[ti target]|] eqn:Ht.
  2:{ split; [|done]. intros msg [= <-]. left. split; [done|].
      left. by apply list_find_uid_None. }
  destruct (list_find (λ x : Item, uid x = u2) items) as [[si source]|] eqn:Hs.
  2:{ split; [|done]. intros msg [= <-]. left. split; [done|].
      right. by apply list_find_uid_None. }
  assert (Hgt : getByUid u1 items = Done target) by (apply getByUid_Done; eauto).
  assert (Hgs : getByUid u2 items = Done source) by (apply getByUid_Done; eauto).
  pose proof (list_find_lookup _ _ _ _ Ht) as [Hti _].
  pose proof (list_find_lookup _ _ _ _ Hs) as [Hsi _].
  destruct (decide (id target = id source)) as [Hid|Hid].
  2:{ rewrite bool_decide_eq_true_2 by done. split; [|done].
      intros msg [= <-]. right. exists target, source. split_and!; [done..|]. by left. }
  rewrite bool_decide_eq_false_2 by (intros H; by apply H).
  destruct (cat !! id source) as [baseItem|] eqn:Hcat.
  2:{ split; [|done]. intros msg [= <-]. right. exists target, source.
      split_and!; [done..|]. right. left. split_and!; [done..|].
      intros b Hb. by simplify_eq. }
  destruct (decide (maxStack baseItem ≤ 1)) as [Hmax|Hmax].
  { rewrite bool_decide_eq_true_2 by done. split; [|done].
    intros msg [= <-]. right. exists target, source.
    split_and!; [done..|]. right. left. split_and!; [done..|].
    intros b Hb. by simplify_eq. }
  rewrite bool_decide_eq_false_2 by done.
  destruct (decide (maxStack target - quantity target ≤ 0)) as [Hroom|Hroom].
  { rewrite bool_decide_eq_true_2 by done. split; [|done].
    intros msg [= <-]. right. exists target, source.
    split_and!; [done..|]. right. right. split_and!; [done..|lia]. }
  rewrite bool_decide_eq_false_2 by done.
  set (items1 := <[ti := _]> items).
  assert (Hlen1 : length items1 = length items) by apply length_insert.
  destruct (items1 !! si) as [source'|] eqn:Hs'.
  2:{ apply lookup_ge_None in Hs'. apply lookup_lt_Some in Hsi. lia. }
  split.
  - intros msg. by case_bool_decide.
  - intros items' Hdone. exists target, source, baseItem.
    split_and!; [done..|lia|lia|].
    case_bool_decide; injection Hdone as <-.
    + left. by rewrite length_insert.
    + right. rewrite length_delete by (by rewrite Hs'). cbn.
      apply lookup_lt_Some in Hsi. lia.
Qed.





(** ** [has] after [add] *)



(** ** Several ticks of decay *)

Lemma decayTicks_one (it : Item) : decayTicks 1 it = decayTick it.
Proof. reflexivity. Qed.

Lemma decayTicks_succ n (it : Item) :
  decayTicks (S (S n)) it = decayTicks (S n) it ≫= decayTick.
Proof.
  unfold decayTicks. destruct (decay it) as [d|] eqn:Hd.
  2:{ cbn. unfold decayTick. by rewrite Hd. }
  destruct (decide (d - Z.of_nat (S n) ≤ 0)) as [Hgone|Hleft].
  - rewrite (bool_decide_eq_true_2 (d - Z.of_nat (S n) ≤ 0)) by done.
    rewrite bool_decide_eq_true_2 by lia. done.
  - rewrite (bool_decide_eq_false_2 (d - Z.of_nat (S n) ≤ 0)) by done.
    cbn [mbind option_bind]. unfold decayTick. cbn [decay set_decay base base_set_decay].
    replace (d - Z.of_nat (S n) - 1) with (d - Z.of_nat (S (S n))) by lia.
    case_bool_decide; [done|]. done.
Qed.

Lemma omap_bind_decay (f : Item → option Item) (items : list Item) :
  omap decayTick (omap f items) = omap (λ it, f it ≫= decayTick) items.
Proof.
  induction items as [|it items IH]; [done|].
  cbn [omap list_omap]. destruct (f it) as [it'|]; cbn; [|done].
  destruct (decayTick it'); by rewrite IH.
Qed.

(** X13.  Ticks add up: [n] calls of [invokeDecay] in a row, [n >= 1],
    give the collection with every counter lowered by [n] and without the
    stacks whose counter was [n] or below; a stack without a counter is
    never touched.  Every counter left after a tick is positive. *)
Theorem invokeDecay_repeated n (items : list Item) :
  Nat.iter (S n) invokeDecay items = omap (decayTicks (S n)) items
  ∧ Forall (λ it : Item, ∀ d, decay it = Some d → 0 < d)
           (Nat.iter (S n) invokeDecay items).
Proof.
  assert (Hiter : Nat.iter (S n) invokeDecay items = omap (decayTicks (S n)) items).
  { induction n as [|n IH].
    - cbn [Nat.iter nat_rect]. rewrite invokeDecay_omap. done.
    - change (Nat.iter (S (S n)) invokeDecay items)
        with (invokeDecay (Nat.iter (S n) invokeDecay items)).
      rewrite IH, invokeDecay_omap, omap_bind_decay.
      apply list_omap_ext, Forall_Forall2_diag, list.Forall_forall.
      intros it _. by rewrite decayTicks_succ. }
  split; [done|]. rewrite Hiter.
  apply list.Forall_forall. intros it' Hin d Hd.
  apply list_elem_of_omap in Hin as (it & _ & Hticks).
  unfold decayTicks in Hticks. destruct (decay it) as [d0|] eqn:Hd0.
  - case_bool_decide; [done|]. injection Hticks as <-. cbn in Hd.
    injection Hd as <-. lia.
  - injection Hticks as <-. congruence.
Qed.

(** ** The limits under the calls that take out *)

Lemma totalCellsOccupied_app {D P R} (items1 items2 : list (ItemOf D P R)) :
  totalCellsOccupied (items1 ++ items2)
  = totalCellsOccupied items1 + totalCellsOccupied items2.
Proof.
  induction items1 as [|x l IH]; [reflexivity|].
  rewrite <- app_comm_cons, !totalCellsOccupied_cons, IH. lia.
Qed.

Lemma totals_middle (items : list Item) i (it : Item) :
  items !! i = Some it →
  totalWeight items
  = totalWeight (take i items) + quantity it * weight it + totalWeight (drop (S i) items)
  ∧ totalCellsOccupied items
    = totalCellsOccupied (take i items) + width it * height it
      + totalCellsOccupied (drop (S i) items).
Proof.
  intros Hi. pose proof (take_drop_middle items i it Hi) as Hm.
  split; rewrite <- Hm at 1.
  - rewrite totalWeight_app, totalWeight_cons. lia.
  - rewrite totalCellsOccupied_app, totalCellsOccupied_cons. lia.
Qed.

Lemma totals_delete (items : list Item) i (it : Item) :
  items !! i = Some it →
  totalWeight (delete i items) = totalWeight items - quantity it * weight it
  ∧ totalCellsOccupied (delete i items)
    = totalCellsOccupied items - width it * height it.
Proof.
  intros Hi. destruct (totals_middle items i it Hi) as [-> ->].
  rewrite delete_take_drop, totalWeight_app, totalCellsOccupied_app. lia.
Qed.

Lemma totals_set_quantity (items : list Item) i (it : Item) q :
  items !! i = Some it →
  totalWeight (<[i := set_quantity q it]> items)
  = totalWeight items - quantity it * weight it + q * weight it
  ∧ totalCellsOccupied (<[i := set_quantity q it]> items) = totalCellsOccupied items.
Proof.
  intros Hi. destruct (totals_middle items i it Hi) as [-> ->].
  rewrite insert_take_drop by (by eapply lookup_lt_Some).
  rewrite !totalWeight_app, !totalCellsOccupied_app,
    !totalWeight_cons, !totalCellsOccupied_cons. cbn. lia.
Qed.

Lemma decayTick_Some (it it' : Item) :
  decayTick it = Some it' →
  quantity it' = quantity it ∧ weight it' = weight it
  ∧ width it' = width it ∧ height it' = height it.
Proof.
  unfold decayTick. destruct (decay it) as [d|].
  - case_bool_decide; [done|]. by intros [= <-].
  - by intros [= <-].
Qed.

Lemma totals_decay (items : list Item) :
  Forall measurable items →
  totalWeight (omap decayTick items) ≤ totalWeight items
  ∧ totalCellsOccupied (omap decayTick items) ≤ totalCellsOccupied items.
Proof.
  induction 1 as [|it l (Hq & Hw & Hc) _ [IHw IHc]]; [done|].
  cbn [omap list_omap]. rewrite totalWeight_cons, totalCellsOccupied_cons.
  destruct (decayTick it) as [it'|] eqn:Htick.
  - destruct (decayTick_Some it it' Htick) as (Eq & Ew & Ewd & Eh).
    rewrite totalWeight_cons, totalCellsOccupied_cons, Eq, Ew, Ewd, Eh. lia.
  - nia.
Qed.

Lemma verifyStackAndWeight_mono cfg (items items' : list Item) (options : AddOptions) :
  totalCellsOccupied items' ≤ totalCellsOccupied items →
  totalWeight items' ≤ totalWeight items →
  verifyStackAndWeight cfg items options = true →
  verifyStackAndWeight cfg items' options = true.
Proof.
  intros Hc Hw. unfold verifyStackAndWeight, isWeightExceeded. cbn zeta.
  destruct (slots_enabled cfg), (weight_enabled cfg); cbn [andb orb];
    repeat case_bool_decide; cbn; try done; lia.
Qed.

(** X14.  The calls that only take out ([remove], [removeAt],
    [removeQuantityFrom] with a quantity that is not negative, and
    [invokeDecay]) keep a collection within the limits: on a collection of
    stacks without negative quantity, weight or footprint that passes the
    capacity check under some options, what they return passes the check
    under the same options. *)
Theorem taking_out_stays_within_the_limits
    cfg cat gen fuel (op : Op) (items items' : list Item) (options : AddOptions) :
  takesOut op →
  Forall measurable items →
  verifyStackAndWeight cfg items options = true →
  run cfg cat gen fuel op items = Some (Done items') →
  verifyStackAndWeight cfg items' options = true.
Proof.
  intros Hop Hall Hok Hrun.
  assert (Hdel : ∀ i (it : Item), items !! i = Some it →
            verifyStackAndWeight cfg (delete i items) options = true).
  { intros i it Hi. destruct (totals_delete items i it Hi) as [Hw Hc].
    destruct (Forall_lookup_Some _ _ _ _ Hall Hi) as (Hq & Hwt & Hcell).
    apply (verifyStackAndWeight_mono cfg items); [lia|nia|done]. }
  assert (Hless : ∀ i (it : Item) q, items !! i = Some it → 0 ≤ q →
            verifyStackAndWeight cfg (<[i := set_quantity (quantity it - q) it]> items)
              options = true).
  { intros i it q Hi Hq.
    destruct (totals_set_quantity items i it (quantity it - q) Hi) as [Hw Hc].
    destruct (Forall_lookup_Some _ _ _ _ Hall Hi) as (_ & Hwt & _).
    apply (verifyStackAndWeight_mono cfg items); [lia|nia|done]. }
  destruct op as [| |u q|u|u q| | | |]; cbn [takesOut run] in *; try done.
  - unfold remove, cloneItems in Hrun.
    destruct (list_find _ items) as [[i it]|] eqn:Hfind; [|done].
    apply list_find_lookup in Hfind as [Hi _].
    repeat case_bool_decide; simplify_eq; eauto.
  - unfold removeAt, cloneItems in Hrun.
    destruct (list_find _ items) as [[i it]|] eqn:Hfind; [|done].
    apply list_find_lookup in Hfind as [Hi _]. simplify_eq. eauto.
  - unfold removeQuantityFrom, cloneItems in Hrun.
    destruct (list_find _ items) as [[i it]|] eqn:Hfind; [|done].
    apply list_find_lookup in Hfind as [Hi _].
    repeat case_bool_decide; simplify_eq; eauto.
  - injection Hrun as <-. rewrite invokeDecay_omap.
    destruct (totals_decay items Hall) as [Hw Hc].
    by apply (verifyStackAndWeight_mono cfg items).
Qed.

Lemma taking_out_stays_within_the_limits_witness :
  verifyStackAndWeight Sample.config [Sample.bottles "a" 1] noOptions = true.
Proof.
  apply (taking_out_stays_within_the_limits Sample.config Sample.catalogue
           Sample.generate 0 (OpRemoveQuantityFrom "a" 2) [Sample.bottles "a" 3]).
  - cbn. lia.
  - repeat constructor; cbn; lia.
  - reflexivity.
  - reflexivity.
Defined.

(** ** Refusals *)

Lemma addNewItemStacks_Undefined cfg gen fuel (items : list Item) baseItem toPlace
    options msg :
  addNewItemStacks cfg gen fuel items baseItem toPlace options = Some (Undefined msg) →
  msg = Messages.none
  ∧ ∃ items', addNewItemStacks_loop gen fuel 0 items baseItem toPlace options = Some items'
              ∧ verifyStackAndWeight cfg items' options = false.
Proof.
  unfold addNewItemStacks.
  destruct (addNewItemStacks_loop gen fuel 0 items baseItem toPlace options)
    as [items'|]; [|done]. cbn.
  destruct (verifyStackAndWeight cfg items' options) eqn:Hv; [done|].
  intros [= <-]. split; [done|]. by exists items'.
Qed.

Lemma stack_never_silent cat u1 u2 (items : list Item) :
  stack cat u1 u2 items ≠ Undefined Messages.none.
Proof.
  unfold stack, cloneItems, getBaseItem.
  destruct (list_find (λ x : Item, uid x = u1) items) as [[ti target]|]; [|done].
  destruct (list_find (λ x : Item, uid x = u2) items) as [[si source]|] eqn:Hs; [|done].
  apply list_find_lookup in Hs as [Hs _]. apply lookup_lt_Some in Hs.
  case_bool_decide; [done|].
  destruct (cat !! id source) as [baseItem|]; [|done].
  case_bool_decide; [done|]. case_bool_decide; [done|].
  destruct (_ !! si) as [source'|] eqn:Hs'.
  - by case_bool_decide.
  - apply lookup_ge_None in Hs'. rewrite length_insert in Hs'. lia.
Qed.

(** X15.  A refusal that leaves no message ([getErrorMessage] gives the
    empty string) is one of these: [remove] did not find the stack or the
    stack held less than the quantity; or the capacity check turned down
    the collection that [add], [addSpecificItem] or [split] had built.  For
    [add] that collection is what the stack-creation loop made of the
    collection and the quantity that the filling of the existing stacks
    left over, and it is the collection [add] returns under any
    configuration whose check lets it pass.  [removeAt],
    [removeQuantityFrom], [stack] and [update] never refuse without a
    message, and [invokeDecay] never refuses. *)
Theorem refusals_without_a_message cfg cat gen fuel (op : Op) (items : list Item) :
  run cfg cat gen fuel op items = Some (Undefined Messages.none) →
  match op with
  | OpRemove u toRemove =>
      u ∉ uids items ∨ ∃ it : Item, getByUid u items = Done it ∧ quantity it < toRemove
  | OpAdd i toPlace options =>
      ∃ (baseItem : BaseItem) (filled : list Item) (remaining : Z) (items' : list Item),
        cat !! i = Some baseItem
        ∧ (filled, remaining)
          = (if bool_decide (maxStack baseItem ≤ 1) then (items, toPlace)
             else handleItemStacking_loop (length items) 0 items baseItem toPlace)
        ∧ addNewItemStacks_loop gen fuel 0 filled baseItem remaining options
          = Some items'
        ∧ verifyStackAndWeight cfg items' options = false
        ∧ ∀ cfg', verifyStackAndWeight cfg' items' options = true →
            add cfg' cat gen fuel i toPlace items options = Some (Done items')
  | OpAddSpecificItem item options =>
      verifyStackAndWeight cfg (items ++ [item]) options = false
  | OpSplit u amountToSplit options =>
      ∃ (i : nat) (it : Item),
        list_find (λ x : Item, uid x = u) items = Some (i, it)
        ∧ is_Some (cat !! id it) ∧ amountToSplit < quantity it
        ∧ verifyStackAndWeight cfg
            (<[i := set_quantity (quantity it - amountToSplit) it]> items
             ++ [set_uid (gen 0%nat) (set_quantity amountToSplit it)]) options = false
  | OpRemoveAt _ | OpRemoveQuantityFrom _ _ | OpStack _ _ | OpUpdate _ _
  | OpInvokeDecay => False
  end.
Proof.
  destruct op as [i q o|item o|u q|u|u q|u a o|u1 u2|u p|]; cbn [run].
  - unfold add, getBaseItem, cloneItems.
    destruct (cat !! i) as [baseItem|] eqn:Hcat; [|done].
    intros Hrun. exists baseItem.
    destruct (bool_decide (maxStack baseItem ≤ 1)) eqn:Hmax.
    + apply addNewItemStacks_Undefined in Hrun as (_ & items' & Hloop & Hv).
      exists items, q, items'. split_and!; [done..|].
      intros cfg' Hv'. unfold addNewItemStacks. rewrite Hloop. cbn. by rewrite Hv'.
    + unfold handleItemStacking in *. rewrite Hmax in Hrun.
      destruct (handleItemStacking_loop _ _ _ _ _) as [filled remaining].
      destruct (bool_decide (0 < remaining)) eqn:Hrem; [|done].
      apply addNewItemStacks_Undefined in Hrun as (_ & items' & Hloop & Hv).
      exists filled, remaining, items'. split_and!; [done..|].
      intros cfg' Hv'. rewrite Hmax. unfold addNewItemStacks. rewrite Hloop. cbn.
      by rewrite Hv'.
  - unfold addSpecificItem, cloneItems.
    by destruct (@verifyStackAndWeight _ _ _ _ _ _) eqn:Hv.
  - unfold remove, cloneItems.
    destruct (list_find _ items) as [[i it]|] eqn:Hfind.
    + intros Hrun. right. exists it. split; [apply getByUid_Done; eauto|].
      repeat case_bool_decide; try done.
    + intros _. left. by apply list_find_uid_None.
  - unfold removeAt, cloneItems. by destruct (list_find _ items) as [[i it]|].
  - unfold removeQuantityFrom, cloneItems.
    destruct (list_find _ items) as [[i it]|]; [|done].
    by repeat case_bool_decide.
  - destruct (list_find (λ x : Item, uid x = u) items) as [[i it]|] eqn:Hfind.
    2:{ unfold split, cloneItems. by rewrite Hfind. }
    destruct (cat !! id it) as [baseItem|] eqn:Hcat.
    2:{ unfold split, cloneItems, getBaseItem. by rewrite Hfind, Hcat. }
    rewrite (split_found cfg cat gen u a items o i it baseItem Hfind Hcat).
    case_bool_decide as Hle; [done|]. cbn zeta.
    destruct (@verifyStackAndWeight _ _ _ _ _ _) eqn:Hv; [done|]. intros _.
    exists i, it. split_and!; [done|by rewrite Hcat|lia|done].
  - intros [= Hrun]. by apply stack_never_silent in Hrun.
  - unfold update, cloneItems.
    destruct (list_find _ items) as [[i it]|]; [|done].
    by destruct (match p_decay p with Some d => _ | None => _ end).
  - done.
Qed.

Lemma refusals_without_a_message_witness :
  ("b" ∉ uids [Sample.bottles "a" 3]
   ∨ ∃ it : Item, getByUid "b" [Sample.bottles "a" 3] = Done it ∧ quantity it < 1)
  ∧ ∃ (baseItem : BaseItem) (filled : list Item) (remaining : Z) (items' : list Item),
      Sample.catalogue !! "water_bottle" = Some baseItem
      ∧ (filled, remaining)
        = (if bool_decide (maxStack baseItem ≤ 1) then ([Sample.bottles "a" 1], 5)
           else handleItemStacking_loop 1 0 [Sample.bottles "a" 1] baseItem 5)
      ∧ addNewItemStacks_loop Sample.generate 1 0 filled baseItem remaining
          (set_maxWeight (Some 3) noOptions) = Some items'
      ∧ verifyStackAndWeight Sample.config items' (set_maxWeight (Some 3) noOptions)
        = false
      ∧ ∀ cfg', verifyStackAndWeight cfg' items' (set_maxWeight (Some 3) noOptions) = true →
          add cfg' Sample.catalogue Sample.generate 1 "water_bottle" 5
            [Sample.bottles "a" 1] (set_maxWeight (Some 3) noOptions)
          = Some (Done items').
Proof.
  split.
  - exact (refusals_without_a_message Sample.config Sample.catalogue Sample.generate 0
             (OpRemove "b" 1) [Sample.bottles "a" 3] eq_refl).
  - exact (refusals_without_a_message Sample.config Sample.catalogue Sample.generate 1
             (OpAdd "water_bottle" 5 (set_maxWeight (Some 3) noOptions))
             [Sample.bottles "a" 1] eq_refl).
Defined.

(** ** A grid without area *)

Lemma handleItemStacking_loop_length baseItem n i (items : list Item) toPlace :
  length (handleItemStacking_loop n i items baseItem toPlace).1 = length items.
Proof.
  revert i items toPlace. induction n as [|n IH]; intros i items toPlace; [done|].
  cbn [handleItemStacking_loop].
  destruct (items !! i) as [it|]; [|done].
  destruct (_ || _); [apply IH|].
  destruct (bool_decide (toPlace ≤ 0)); [done|].
  rewrite IH. apply length_insert.
Qed.

Lemma verifyStackAndWeight_no_area {D P R} cfg (items : list (ItemOf D P R))
    (options : AddOptionsOf D) :
  cells_width (orDefaultCells (opt_maxCells options) (slots_maxCells cfg))
  * cells_height (orDefaultCells (opt_maxCells options) (slots_maxCells cfg)) ≤ 0 →
  verifyStackAndWeight cfg items options = false.
Proof.
  intros Harea. unfold verifyStackAndWeight. cbn zeta.
  rewrite (bool_decide_eq_true_2 (_ ≤ 0)) by done. by rewrite orb_true_r.
Qed.

(** X16.  A grid without area takes no new stack, slot checking enabled
    or not: when the grid in force (the per-call [maxCells], else the
    configured one) has a width times height of zero or below,
    [addSpecificItem] is refused on every collection, [split] never returns
    a collection, and an [add] that returns a collection has created no
    stack (the quantity went into existing stacks, which is not
    checked). *)
Theorem grid_without_area_takes_no_new_stack cfg cat gen (items : list Item) options :
  cells_width (orDefaultCells (opt_maxCells options) (slots_maxCells cfg))
  * cells_height (orDefaultCells (opt_maxCells options) (slots_maxCells cfg)) ≤ 0 →
  (∀ item, addSpecificItem cfg item items options = Undefined Messages.none)
  ∧ (∀ u amountToSplit items',
       split cfg cat gen u amountToSplit items options ≠ Done items')
  ∧ (∀ fuel i toPlace items',
       add cfg cat gen fuel i toPlace items options = Some (Done items') →
       length items' = length items).
Proof.
  intros Harea.
  pose proof (λ l : list Item, verifyStackAndWeight_no_area cfg l options Harea) as Hno.
  split_and!.
  - intros item. unfold addSpecificItem. by rewrite Hno.
  - intros u a items'. unfold split, cloneItems.
    destruct (list_find _ items) as [[i it]|]; [|done].
    destruct (getBaseItem cat (id it)); [|done].
    destruct (_ || _); [done|]. by rewrite Hno.
  - intros fuel i q items'. unfold add, getBaseItem, cloneItems.
    destruct (cat !! i) as [baseItem|]; [|done].
    assert (Hnew : ∀ l q', addNewItemStacks cfg gen fuel l baseItem q' options
                           ≠ Some (Done items')).
    { intros l q'. unfold addNewItemStacks.
      destruct (addNewItemStacks_loop _ _ _ _ _ _ _) as [l'|]; [|done]. cbn.
      by rewrite Hno. }
    destruct (bool_decide (maxStack baseItem ≤ 1)) eqn:Hmax.
    { intros H. by apply Hnew in H. }
    unfold handleItemStacking. rewrite Hmax.
    pose proof (handleItemStacking_loop_length baseItem (length items) 0 items q) as Hlen.
    destruct (handleItemStacking_loop _ _ _ _ _) as [filled remaining].
    destruct (bool_decide (0 < remaining)).
    + intros H. by apply Hnew in H.
    + by intros [= <-].
Qed.

Lemma grid_without_area_takes_no_new_stack_witness :
  addSpecificItem Sample.unlimited (Sample.bottles "a" 1) [] Scenarios.noRoom
  = Undefined Messages.none.
Proof.
  refine (proj1 (grid_without_area_takes_no_new_stack Sample.unlimited Sample.catalogue
                   Sample.generate [] Scenarios.noRoom _) (Sample.bottles "a" 1)).
  cbn. lia.
Defined.

(** ** The catalogue *)






Lemma init_snoc (rows : list BaseItem) (row : BaseItem) :
  ItemManager.init (rows ++ [row]) = <[id row := row]> (ItemManager.init rows).
Proof. unfold ItemManager.init. by rewrite foldl_app. Qed.

(** X19.  [init] keeps the last row of an item type, as it is.  When no
    loaded row is filed under ["__proto__"], then for every identifier that
    is not one of the names an object inherits, [getBaseItem] after loading
    gives the last of the loaded rows with that type (nothing is
    normalised: a row with a max-stack of zero stays so), and [has] is true
    exactly when the type has a row. *)
Theorem init_keeps_the_last_row_of_a_type (rows : list BaseItem) (i : string) :
  Forall (λ row : BaseItem, id row ≠ "__proto__") rows →
  i ∉ ItemManager.inheritedNames →
  getBaseItem (ItemManager.init rows) i
  = list.last (filter (λ row : BaseItem, id row = i) rows)
  ∧ ItemManager.has i (ItemManager.init rows)
    = bool_decide (i ∈ (λ row : BaseItem, id row) <$> rows).
Proof.
  intros _ _.
  assert (Hget : getBaseItem (ItemManager.init rows) i
                 = list.last (filter (λ row : BaseItem, id row = i) rows)).
  { unfold getBaseItem. induction rows as [|row rows IH] using rev_ind; [done|].
    rewrite init_snoc, list.filter_app, list.filter_cons, list.filter_nil.
    destruct (decide (id row = i)) as [<-|Hne].
    - by rewrite lookup_insert_eq, last_snoc.
    - rewrite lookup_insert_ne by done. by rewrite app_nil_r. }
  split; [done|]. unfold ItemManager.has. unfold getBaseItem in Hget. rewrite Hget.
  destruct (list.last _) as [row|] eqn:Hlast.
  - symmetry. apply bool_decide_eq_true_2.
    apply last_Some_elem_of in Hlast. apply list_elem_of_filter in Hlast as [<- Hin].
    apply list_elem_of_fmap. by exists row.
  - symmetry. apply bool_decide_eq_false_2. intros (row & -> & Hin)%list_elem_of_fmap.
    apply last_None in Hlast.
    assert (row ∈ filter (λ r : BaseItem, id r = id row) rows)
      by (by apply list_elem_of_filter).
    rewrite Hlast in H. by apply elem_of_nil in H.
Qed.

Lemma init_keeps_the_last_row_of_a_type_witness :
  getBaseItem
    (ItemManager.init
       [Scenarios.crate; Sample.water_bottle; ItemManager.base_set_weight 9 Scenarios.crate])
    (id Scenarios.crate)
  = Some (ItemManager.base_set_weight 9 Scenarios.crate)
  ∧ ItemManager.has (id Scenarios.crate)
      (ItemManager.init
         [Scenarios.crate; Sample.water_bottle;
          ItemManager.base_set_weight 9 Scenarios.crate])
    = true.
Proof.
  refine (init_keeps_the_last_row_of_a_type
            [Scenarios.crate; Sample.water_bottle;
             ItemManager.base_set_weight 9 Scenarios.crate]
            (id Scenarios.crate) _ _).
  - by repeat constructor.
  - apply (bool_decide_unpack _). by vm_compute.
Defined.

(** ** The managers *)

Section ManagerFacts.
Import Manager.

Lemma storage_stack_outcome cat u1 u2 stored :
  StorageItemManager.stack cat u1 u2 stored
  = match stack cat u1 u2 (StorageItemManager.getInternal stored) with
    | Done _ => Returns (RStack false VNull) []
    | Undefined _ => Throws
    end.
Proof. unfold StorageItemManager.stack. by destruct (stack _ _ _ _). Qed.

Lemma storage_split_outcome cfg cat gen u a o stored :
  StorageItemManager.split cfg cat gen u a o stored
  = match split cfg cat gen u a (StorageItemManager.getInternal stored) o with
    | Done _ => Returns (RSplit false VNull VNull) []
    | Undefined _ => Throws
    end.
Proof. unfold StorageItemManager.split. by destruct (split _ _ _ _ _ _ _). Qed.

Lemma vehicle_stack_outcome cat u1 u2 data_items :
  VehicleItemManager.stack cat u1 u2 data_items
  = match data_items with
    | None => Returns (RStack false VNull) []
    | Some items =>
        match stack cat u1 u2 items with
        | Done _ => Returns (RStack false VNull) []
        | Undefined _ => Throws
        end
    end.
Proof.
  unfold VehicleItemManager.stack. destruct data_items; [|done].
  by destruct (stack _ _ _ _).
Qed.

Lemma vehicle_split_outcome cfg cat gen u a o data_items :
  VehicleItemManager.split cfg cat gen u a o data_items
  = match data_items with
    | None => Returns (RSplit false VNull VNull) []
    | Some items =>
        match split cfg cat gen u a items o with
        | Done _ => Returns (RSplit false VNull VNull) []
        | Undefined _ => Throws
        end
    end.
Proof.
  unfold VehicleItemManager.split. destruct data_items; [|done].
  by destruct (split _ _ _ _ _ _ _).
Qed.

(** X20.  A manager call that fails has done nothing: for the storage
    manager and for the vehicle manager, a call that reports [false] or
    throws has written nothing back and raised no event.  A call, other
    than the reading [has], that reports [true] starts with exactly one
    write-back, and an update event that follows carries the collection
    that was written. *)
Theorem a_failed_call_has_written_nothing cfg cat gen fuel noDecay (c : Call)
    (stored : option (list Item)) (o : outcome) :
  StorageItemManager.run cfg cat gen fuel noDecay c stored = Some o
  ∨ VehicleItemManager.run cfg cat gen fuel c stored = Some o →
  (failed o = true → effects o = [])
  ∧ (∀ effs, o = Returns (RBool true) effs → reads c = false →
       ∃ written rest,
         effs = UpdateItems (VItems written) :: rest ∧ Forall (announces written) rest).
Proof.
  intros [Hrun|Hrun].
  - destruct c as [i q ao|item ao|i q|u q|u1 u2|u a so|u p| |i q];
      cbn [StorageItemManager.run] in Hrun.
    + unfold StorageItemManager.add in Hrun.
      destruct (add _ _ _ _ _ _ _ _) as [[items|msg]|]; cbn in Hrun; simplify_eq;
        (split; [done|intros effs [= <-] _]); eexists _, _; split; [done|].
      repeat constructor.
    + unfold StorageItemManager.addSpecificItem in Hrun.
      destruct (addSpecificItem _ _ _ _) as [items|msg]; simplify_eq;
        (split; [done|intros effs [= <-] _]); eexists _, _; split; [done|].
      repeat constructor.
    + unfold StorageItemManager.remove in Hrun.
      destruct (remove _ _ _) as [items|msg]; simplify_eq;
        (split; [done|intros effs [= <-] _]); eexists _, _; split; [done|].
      repeat constructor.
    + unfold StorageItemManager.removeQuantityFrom in Hrun.
      destruct (removeQuantityFrom _ _ _) as [items|msg]; simplify_eq;
        (split; [done|intros effs [= <-] _]); eexists _, _; split; [done|].
      repeat constructor.
    + rewrite storage_stack_outcome in Hrun.
      destruct (stack _ _ _ _); by simplify_eq.
    + rewrite storage_split_outcome in Hrun.
      destruct (split _ _ _ _ _ _ _); by simplify_eq.
    + unfold StorageItemManager.update in Hrun.
      destruct (update _ _ _) as [items|msg]; simplify_eq;
        (split; [done|intros effs [= <-] _]); eexists _, _; split; [done|].
      repeat constructor.
    + unfold StorageItemManager.invokeDecay in Hrun.
      destruct noDecay; [by simplify_eq|]. case_bool_decide; by simplify_eq.
    + simplify_eq. split; [done|]. by intros effs _ [=].
  - destruct c as [i q ao|item ao|i q|u q|u1 u2|u a so|u p| |i q];
      cbn [VehicleItemManager.run] in Hrun.
    + unfold VehicleItemManager.add in Hrun.
      destruct (add _ _ _ _ _ _ _ _) as [[items|msg]|]; cbn in Hrun; simplify_eq;
        (split; [done|intros effs [= <-] _]); eexists _, _; split; [done|].
      repeat constructor.
    + unfold VehicleItemManager.addSpecificItem in Hrun.
      destruct (addSpecificItem _ _ _ _) as [items|msg]; simplify_eq;
        (split; [done|intros effs [= <-] _]); eexists _, _; split; [done|].
      repeat constructor.
    + unfold VehicleItemManager.remove in Hrun. destruct stored as [items0|].
      2:{ by simplify_eq. }
      destruct (remove _ _ _) as [items|msg]; simplify_eq;
        (split; [done|intros effs [= <-] _]); eexists _, _; split; [done|].
      repeat constructor.
    + unfold VehicleItemManager.removeQuantityFrom in Hrun.
      destruct (removeQuantityFrom _ _ _) as [items|msg]; simplify_eq;
        (split; [done|intros effs [= <-] _]); eexists _, _; split; [done|].
      repeat constructor.
    + rewrite vehicle_stack_outcome in Hrun. destruct stored; [|by simplify_eq].
      destruct (stack _ _ _ _); by simplify_eq.
    + rewrite vehicle_split_outcome in Hrun. destruct stored; [|by simplify_eq].
      destruct (split _ _ _ _ _ _ _); by simplify_eq.
    + unfold VehicleItemManager.update in Hrun. destruct stored as [items0|].
      2:{ by simplify_eq. }
      destruct (update _ _ _) as [items|msg]; simplify_eq;
        (split; [done|intros effs [= <-] _]); eexists _, _; split; [done|].
      repeat constructor.
    + unfold VehicleItemManager.invokeDecay in Hrun. destruct stored; by simplify_eq.
    + simplify_eq. split; [done|]. by intros effs _ [=].
Qed.

Lemma a_failed_call_has_written_nothing_witness :
  effects (Returns (RBool false) []) = [].
Proof.
  refine (proj1 (a_failed_call_has_written_nothing Sample.config Sample.catalogue
                   Sample.generate 0 false (Remove "water_bottle" 2)
                   (Some [Sample.bottles "u1" 5]) (Returns (RBool false) [])
                   (or_introl eq_refl)) eq_refl).
Defined.

Lemma removeQuantityFrom_changes (u : string) toRemove (items items' : list Item) :
  removeQuantityFrom u toRemove items = Done items' → toRemove ≠ 0 → items' ≠ items.
Proof.
  unfold removeQuantityFrom, cloneItems.
  destruct (list_find _ items) as [[i it]|] eqn:Hfind; [|done].
  apply list_find_lookup in Hfind as [Hi _].
  pose proof (lookup_lt_Some _ _ _ Hi) as Hlt.
  case_bool_decide; [done|]. case_bool_decide; intros [= <-] Hq Heq.
  - apply (f_equal length) in Heq. rewrite length_delete in Heq by (by rewrite Hi). lia.
  - apply (f_equal (λ l : list Item, l !! i)) in Heq.
    rewrite list_lookup_insert_eq in Heq by done. rewrite Hi in Heq.
    injection Heq as Heq. apply (f_equal quantity) in Heq. cbn in Heq. lia.
Qed.

(** X21.  [removeQuantityFrom] of the storage manager writes back the
    collection it read: when it reports [true] its only effect is
    [updateItems(currentItems)], although the engine returned a collection
    that differs from the one read whenever the quantity is not zero; it
    raises no event.  The vehicle manager, on the same input, writes the
    engine's collection and raises the update event with it. *)
Theorem storage_removeQuantityFrom_writes_back_what_it_read
    u toRemove (stored : option (list Item)) effs :
  StorageItemManager.removeQuantityFrom u toRemove stored = Returns (RBool true) effs →
  effs = [UpdateItems (VItems (StorageItemManager.getInternal stored))]
  ∧ ∃ items' : list Item,
      removeQuantityFrom u toRemove (StorageItemManager.getInternal stored) = Done items'
      ∧ (toRemove ≠ 0 → items' ≠ StorageItemManager.getInternal stored)
      ∧ VehicleItemManager.removeQuantityFrom u toRemove stored
        = Returns (RBool true) [UpdateItems (VItems items'); OnItemsUpdated (VItems items')].
Proof.
  unfold StorageItemManager.removeQuantityFrom, VehicleItemManager.removeQuantityFrom.
  assert (Hsame : VehicleItemManager.orEmpty stored = StorageItemManager.getInternal stored)
    by (by destruct stored).
  rewrite Hsame.
  destruct (removeQuantityFrom _ _ _) as [items'|msg] eqn:Hrm; [|done].
  intros [= <-]. split; [done|]. exists items'. split_and!; [done| |done].
  by eapply removeQuantityFrom_changes.
Qed.

Lemma storage_removeQuantityFrom_writes_back_what_it_read_witness :
  [UpdateItems (VItems [Sample.bottles "a" 3])]
  = [UpdateItems (VItems (StorageItemManager.getInternal (Some [Sample.bottles "a" 3])))].
Proof.
  exact (proj1 (storage_removeQuantityFrom_writes_back_what_it_read "a" 2
                  (Some [Sample.bottles "a" 3])
                  [UpdateItems (VItems [Sample.bottles "a" 3])] eq_refl)).
Defined.

(** X22.  [stack] and [split] of both managers never report success and
    never write: they test [result.success] on what the engine returned,
    which is an array (the property is [undefined]) or [undefined] (the
    read throws).  A call throws exactly when the engine refused, and
    reports [success: false] otherwise, the merge or split that the engine
    computed being dropped. *)
Theorem managers_never_report_a_merge_or_a_split cfg cat gen
    (stored : option (list Item)) :
  (∀ u1 u2,
     effects (StorageItemManager.stack cat u1 u2 stored) = []
     ∧ failed (StorageItemManager.stack cat u1 u2 stored) = true
     ∧ (StorageItemManager.stack cat u1 u2 stored = Throws
        ↔ ∃ msg, stack cat u1 u2 (StorageItemManager.getInternal stored) = Undefined msg)
     ∧ effects (VehicleItemManager.stack cat u1 u2 stored) = []
     ∧ failed (VehicleItemManager.stack cat u1 u2 stored) = true
     ∧ (VehicleItemManager.stack cat u1 u2 stored = Throws
        ↔ ∃ items msg, stored = Some items ∧ stack cat u1 u2 items = Undefined msg))
  ∧ (∀ u amountToSplit options,
       effects (StorageItemManager.split cfg cat gen u amountToSplit options stored) = []
       ∧ failed (StorageItemManager.split cfg cat gen u amountToSplit options stored) = true
       ∧ (StorageItemManager.split cfg cat gen u amountToSplit options stored = Throws
          ↔ ∃ msg, split cfg cat gen u amountToSplit
                     (StorageItemManager.getInternal stored) options = Undefined msg)
       ∧ effects (VehicleItemManager.split cfg cat gen u amountToSplit options stored) = []
       ∧ failed (VehicleItemManager.split cfg cat gen u amountToSplit options stored) = true
       ∧ (VehicleItemManager.split cfg cat gen u amountToSplit options stored = Throws
          ↔ ∃ items msg, stored = Some items
              ∧ split cfg cat gen u amountToSplit items options = Undefined msg)).
Proof.
  split.
  - intros u1 u2. rewrite storage_stack_outcome, vehicle_stack_outcome.
    destruct stored as [items|]; unfold StorageItemManager.getInternal, cloneItems.
    + destruct (stack cat u1 u2 items) as [items'|msg] eqn:Hst; cbn; split_and!;
        try done.
      * split; [done|]. by intros [? ?].
      * split; [done|]. intros (? & ? & [= <-] & ?). congruence.
      * split; [|done]. intros _. by exists msg.
      * split; [|done]. intros _. by exists items, msg.
    + cbn. split_and!; try done.
      * split; [|done]. intros _. by eexists.
      * split; [done|]. by intros (? & ? & ? & ?).
  - intros u a o. rewrite storage_split_outcome, vehicle_split_outcome.
    destruct stored as [items|]; unfold StorageItemManager.getInternal, cloneItems.
    + destruct (split cfg cat gen u a items o) as [items'|msg] eqn:Hst; cbn; split_and!;
        try done.
      * split; [done|]. by intros [? ?].
      * split; [done|]. intros (? & ? & [= <-] & ?). congruence.
      * split; [|done]. intros _. by exists msg.
      * split; [|done]. intros _. by exists items, msg.
    + cbn. split_and!; try done.
      * split; [|done]. intros _. by eexists.
      * split; [done|]. by intros (? & ? & ? & ?).
Qed.

End ManagerFacts.

(** ** Reading over the store *)

Section Access.
Import Store.

Lemma reach_element σ a ls l : σ !! a = Some (OArray ls) → l ∈ ls → l ∈ reach σ a.
Proof.
  intros Ha Hl. unfold reach. rewrite Ha. apply elem_of_cons. right.
  apply elem_of_app. by left.
Qed.

Lemma reach_nested σ a ls l it r :
  σ !! a = Some (OArray ls) → l ∈ ls → σ !! l = Some (OItem it) → r ∈ nestedRefs it →
  r ∈ reach σ a.
Proof.
  intros Ha Hl Hit Hr. unfold reach. rewrite Ha. apply elem_of_cons. right.
  apply elem_of_app. right. apply list_elem_of_bind. exists l. split; [|done].
  unfold itemRefs. by rewrite Hit.
Qed.

(** X23.  Over the store, [getByUid] copies nothing: it leaves the store
    as it is and what it returns is the stack object of the caller's own
    array (it reads as the stack [getByUid] gives by value); [getData]
    returns the data object that this stack holds.  Both refuse with the
    engine's message when no stack has the identifier. *)
Theorem getByUid_hands_out_the_stack_of_the_array u a σ ls (items : list Item) :
  arrayOf σ a ls items →
  (∃ res, StoreAccess.getByUid u a σ = Some (res, σ)
     ∧ match Value.getByUid u items, res with
       | Done it, Done l => l ∈ ls ∧ l ∈ reach σ a ∧ itemAt σ l = Some it
       | Undefined msg, Undefined msg' => msg' = msg
       | _, _ => False
       end)
  ∧ (∃ res, StoreAccess.getData u a σ = Some (res, σ)
       ∧ match Value.getData u items, res with
         | Done None, Done None => True
         | Done (Some d), Done (Some r) =>
             σ !! r ≫= asData = Some d ∧ r ∈ reach σ a
         | Undefined msg, Undefined msg' => msg' = msg
         | _, _ => False
         end).
Proof.
  intros Harr. pose proof Harr as [Ha Hall].
  destruct (readItems_run _ _ _ _ Harr) as (os & Hread & Hvals).
  pose proof (list_find_uid σ os items u Hvals) as Hfind.
  unfold StoreAccess.getData, Value.getData.
  destruct (list_find (λ x : Item, uid x = u) items) as [[i v]|] eqn:Hv.
  - destruct Hfind as (o & Hfo & Hov).
    pose proof (list_find_lookup _ _ _ _ Hv) as [Hi _].
    destruct (element_run _ _ _ _ _ _ Harr Hi) as (l & o' & Hel & Hrd & Hl & Hov').
    assert (Hin : l ∈ ls) by (by eapply list_elem_of_lookup_2).
    assert (Hget : StoreAccess.getByUid u a σ = Some (Done l, σ)).
    { unfold StoreAccess.getByUid. rewrite (bind_run _ _ _ _ _ Hread), Hfo.
      by rewrite (bind_run _ _ _ _ _ Hel). }
    assert (Hσl : σ !! l = Some (OItem o')).
    { unfold readItem in Hrd. destruct (σ !! l) as [[]|]; by simplify_eq. }
    unfold Value.getByUid. rewrite Hv. split.
    + exists (Done l). split; [done|]. split_and!; [done|by eapply reach_element|].
      unfold itemAt. by rewrite Hσl.
    + rewrite (bind_run _ _ _ _ _ Hget), (bind_run _ _ _ _ _ Hrd).
      eexists. split; [reflexivity|].
      apply itemValue_Some in Hov' as (d & p & r & Hd & _ & _ & ->). cbn [data retarget].
      unfold nestedValue in Hd. destruct (data o') as [r'|] eqn:Hdo.
      * destruct (σ !! r' ≫= asData) as [dv|] eqn:Hdv; [|done]. injection Hd as <-.
        split; [done|].
        eapply reach_nested; [done..|]. unfold nestedRefs. rewrite Hdo.
        apply elem_of_app. left. by apply list_elem_of_singleton.
      * by injection Hd as <-.
  - assert (Hget : StoreAccess.getByUid u a σ = Some (Undefined Messages.getByUid, σ)).
    { unfold StoreAccess.getByUid. by rewrite (bind_run _ _ _ _ _ Hread), Hfind. }
    unfold Value.getByUid. rewrite Hv. split.
    + by eexists.
    + rewrite (bind_run _ _ _ _ _ Hget). by eexists.
Qed.

Lemma getByUid_hands_out_the_stack_of_the_array_witness :
  ∃ res,
    StoreAccess.getByUid "a" StoreSample.collection StoreSample.σ0
    = Some (res, StoreSample.σ0)
    ∧ match Value.getByUid "a" [Scenarios.labelled; Sample.bottles "b" 2], res with
      | Done it, Done l =>
          l ∈ [2%positive; 4%positive]
          ∧ l ∈ reach StoreSample.σ0 StoreSample.collection
          ∧ itemAt StoreSample.σ0 l = Some it
      | Undefined msg, Undefined msg' => msg' = msg
      | _, _ => False
      end.
Proof.
  refine (proj1 (getByUid_hands_out_the_stack_of_the_array "a" StoreSample.collection
                   StoreSample.σ0 [2%positive; 4%positive]
                   [Scenarios.labelled; Sample.bottles "b" 2] _)).
  split; [reflexivity|]. repeat constructor.
Defined.

End Access.

(** ** [has] *)

Lemma totalQuantity_Permutation i (items items' : list Item) :
  items ≡ₚ items' → totalQuantity i items = totalQuantity i items'.
Proof.
  induction 1 as [|x l l' _ IH|x y l|l1 l2 l3 _ IH1 _ IH2]; [done| | |congruence].
  - by rewrite !totalQuantity_cons, IH.
  - rewrite !totalQuantity_cons. lia.
Qed.

(** X24.  [has] adds up the quantities of all the stacks of the item type,
    in the order of the collection, and compares the sum with the quantity
    asked for: having [q] units implies having any smaller quantity, and the
    message left is "Not enough quantity of item" exactly when the answer is
    [false].  For whole-number quantities whose magnitudes add up to no more
    than [Number.MAX_SAFE_INTEGER] the answer does not depend on the order
    of the stacks. *)
Theorem has_counts_the_units_of_every_stack i (items : list Item) :
  (∀ q, (has i q items).1
        = bool_decide (q ≤ foldl Z.add 0
                             (quantity <$> filter (λ it : Item, id it = i) items)))
  ∧ (exactQuantities 0 items →
     ∀ q items', items ≡ₚ items' → has i q items' = has i q items)
  ∧ (∀ q q', q' ≤ q → (has i q items).1 = true → (has i q' items).1 = true)
  ∧ (∀ q, (has i q items).2
          = if (has i q items).1 then Messages.none else Messages.notEnough).
Proof.
  assert (Hsum : ∀ sum,
            foldl (λ sum (item : Item),
                     if bool_decide (id item = i) then sum + quantity item else sum)
                  sum items
            = foldl Z.add sum (quantity <$> filter (λ it : Item, id it = i) items)).
  { induction items as [|it items IH]; intros sum; [done|].
    rewrite list.filter_cons. cbn [foldl]. rewrite IH.
    destruct (decide (id it = i)).
    - by rewrite bool_decide_eq_true_2.
    - by rewrite bool_decide_eq_false_2. }
  unfold has. split_and!.
  - intros q. unfold totalQuantity. rewrite Hsum. by case_bool_decide.
  - intros _ q items' Hperm. by rewrite (totalQuantity_Permutation i items items' Hperm).
  - intros q q' Hle. case_bool_decide; [|done]. intros _.
    by rewrite bool_decide_eq_true_2 by lia.
  - intros q. by case_bool_decide.
Qed.

Lemma has_counts_the_units_of_every_stack_witness :
  has "water_bottle" 4 [Sample.bottles "b" 2; Sample.bottles "a" 3] = (true, Messages.none).
Proof.
  refine (proj1 (proj2 (has_counts_the_units_of_every_stack "water_bottle"
                          [Sample.bottles "a" 3; Sample.bottles "b" 2]))
            _ 4 [Sample.bottles "b" 2; Sample.bottles "a" 3] (perm_swap _ _ _)).
  unfold exactQuantities, MAX_SAFE_INTEGER. cbn. lia.
Defined.

(** ** The stacks [add] creates *)

Lemma handleItemStacking_loop_same baseItem n i (items : list Item) toPlace :
  Forall2 sameButQuantity items (handleItemStacking_loop n i items baseItem toPlace).1.
Proof.
  revert i items toPlace. induction n as [|n IH]; intros i items toPlace.
  { cbn. by apply Forall_Forall2_diag, list.Forall_forall. }
  cbn [handleItemStacking_loop].
  destruct (items !! i) as [it|] eqn:Hi.
  2:{ cbn. by apply Forall_Forall2_diag, list.Forall_forall. }
  destruct (_ || _); [apply IH|].
  destruct (bool_decide (toPlace ≤ 0)).
  { cbn. by apply Forall_Forall2_diag, list.Forall_forall. }
  set (it' := set_quantity _ it).
  specialize (IH (S i) (<[i := it']> items) (toPlace - Z.min (maxStack baseItem - quantity it) toPlace)).
  apply Forall2_same_length_lookup. split.
  { rewrite <- (Forall2_length IH). by rewrite length_insert. }
  intros k x y Hx Hy.
  destruct (decide (k = i)) as [->|Hne].
  - assert (x = it) as -> by congruence.
    assert (Hit' : <[i := it']> items !! i = Some it').
    { apply list_lookup_insert_eq. by eapply lookup_lt_Some. }
    by destruct (Forall2_lookup_lr _ _ _ _ _ _ IH Hit' Hy) as (? & ? & ?).
  - assert (Hx' : <[i := it']> items !! k = Some x) by (by rewrite list_lookup_insert_ne).
    exact (Forall2_lookup_lr _ _ _ _ _ _ IH Hx' Hy).
Qed.

Lemma handleItemStacking_loop_others baseItem n i (items : list Item) toPlace :
  Forall2 (λ it it' : Item, id it ≠ id baseItem → it' = it) items
          (handleItemStacking_loop n i items baseItem toPlace).1.
Proof.
  revert i items toPlace. induction n as [|n IH]; intros i items toPlace.
  { cbn. by apply Forall_Forall2_diag, list.Forall_forall. }
  cbn [handleItemStacking_loop].
  destruct (items !! i) as [it|] eqn:Hi.
  2:{ cbn. by apply Forall_Forall2_diag, list.Forall_forall. }
  destruct (bool_decide (id it ≠ id baseItem) || _) eqn:Hskip; [apply IH|].
  apply orb_false_iff in Hskip as [Hid _]. apply bool_decide_eq_false in Hid.
  destruct (bool_decide (toPlace ≤ 0)).
  { cbn. by apply Forall_Forall2_diag, list.Forall_forall. }
  set (it' := set_quantity _ it).
  specialize (IH (S i) (<[i := it']> items)
                (toPlace - Z.min (maxStack baseItem - quantity it) toPlace)).
  apply Forall2_same_length_lookup. split.
  { rewrite <- (Forall2_length IH). by rewrite length_insert. }
  intros k x y Hx Hy Hne.
  destruct (decide (k = i)) as [->|Hk].
  - assert (x = it) as -> by congruence. done.
  - assert (Hx' : <[i := it']> items !! k = Some x) by (by rewrite list_lookup_insert_ne).
    exact (Forall2_lookup_lr _ _ _ _ _ _ IH Hx' Hy Hne).
Qed.

Lemma addNewItemStacks_loop_appends gen baseItem options fuel k (items items' : list Item)
    toPlace :
  addNewItemStacks_loop gen fuel k items baseItem toPlace options = Some items' →
  ∃ new : list Item,
    items' = items ++ new
    ∧ Forall (λ it : Item, data it = opt_data options ∧ base it = baseItem
                           ∧ 0 < quantity it ≤ maxStack baseItem) new
    ∧ uid <$> new = gen <$> seq k (length new).
Proof.
  revert k items toPlace.
  induction fuel as [|fuel IH]; intros k items toPlace; cbn [addNewItemStacks_loop];
    (destruct (decide (0 < toPlace)) as [Hpos|Hpos];
     [rewrite (bool_decide_eq_true_2 (0 < toPlace)) by done
     |rewrite (bool_decide_eq_false_2 (0 < toPlace)) by done]);
    try done.
  1,3: intros [= <-]; exists []; by rewrite app_nil_r.
  destruct (decide (maxStack baseItem ≤ 0)) as [Hmax|Hmax].
  { rewrite addNewItemStacks_loop_diverges by lia. done. }
  intros (new & -> & Hall & Huids)%IH.
  eexists (_ :: new). split; [by rewrite <- app_assoc|]. split.
  - constructor; [|done]. destruct (opt_data options); cbn; split_and!; try done; lia.
  - cbn [fmap list_fmap length seq]. f_equal; [by destruct (opt_data options)|done].
Qed.

(** X25.  What a successful [add] returns is the collection it started
    from, stack by stack in order and changed in quantity only (a stack of
    another item type not at all), followed by the stacks it created.
    Every new stack is a copy of the catalogue entry that holds a quantity
    above zero and of at most the entry's max-stack, and carries the [data]
    of the call's options (none when the options have none), whatever the
    max-stack; the identifiers of the new stacks are the generator's first
    draws, in order. *)
Theorem add_appends_stacks_that_carry_the_call_data
    cfg cat gen fuel i toPlace (items items' : list Item) options baseItem :
  cat !! i = Some baseItem →
  add cfg cat gen fuel i toPlace items options = Some (Done items') →
  ∃ kept new : list Item,
    items' = kept ++ new
    ∧ Forall2 sameButQuantity items kept
    ∧ Forall2 (λ it it' : Item, id it ≠ id baseItem → it' = it) items kept
    ∧ Forall (λ it : Item, data it = opt_data options ∧ base it = baseItem
                           ∧ 0 < quantity it ≤ maxStack baseItem) new
    ∧ uid <$> new = gen <$> seq 0 (length new).
Proof.
  intros Hcat. unfold add, getBaseItem, cloneItems. rewrite Hcat.
  assert (Hnew : ∀ l, Forall2 sameButQuantity items l →
            Forall2 (λ it it' : Item, id it ≠ id baseItem → it' = it) items l → ∀ q,
            addNewItemStacks cfg gen fuel l baseItem q options = Some (Done items') →
            ∃ kept new : list Item,
              items' = kept ++ new
              ∧ Forall2 sameButQuantity items kept
              ∧ Forall2 (λ it it' : Item, id it ≠ id baseItem → it' = it) items kept
              ∧ Forall (λ it : Item, data it = opt_data options ∧ base it = baseItem
                                     ∧ 0 < quantity it ≤ maxStack baseItem) new
              ∧ uid <$> new = gen <$> seq 0 (length new)).
  { intros l Hl Hl' q. unfold addNewItemStacks.
    destruct (addNewItemStacks_loop gen fuel 0 l baseItem q options) as [l'|] eqn:Hloop;
      [|done]. cbn.
    destruct (verifyStackAndWeight cfg l' options); [|done]. intros [= <-].
    destruct (addNewItemStacks_loop_appends _ _ _ _ _ _ _ _ Hloop) as (new & -> & ? & ?).
    by exists l, new. }
  assert (Hrefl : Forall2 sameButQuantity items items).
  { by apply Forall_Forall2_diag, list.Forall_forall. }
  assert (Hrefl' : Forall2 (λ it it' : Item, id it ≠ id baseItem → it' = it) items items).
  { by apply Forall_Forall2_diag, list.Forall_forall. }
  destruct (bool_decide (maxStack baseItem ≤ 1)) eqn:Hmax; [by apply Hnew|].
  unfold handleItemStacking. rewrite Hmax.
  pose proof (handleItemStacking_loop_same baseItem (length items) 0 items toPlace) as Hsame.
  pose proof (handleItemStacking_loop_others baseItem (length items) 0 items toPlace)
    as Hothers.
  destruct (handleItemStacking_loop _ _ _ _ _) as [filled remaining].
  cbn [fst] in Hsame, Hothers.
  destruct (bool_decide (0 < remaining)); [by apply Hnew|].
  intros [= <-]. exists filled, []. rewrite app_nil_r. by split_and!.
Qed.

Lemma add_appends_stacks_that_carry_the_call_data_witness :
  ∃ kept new : list Item,
    [Sample.bottles "a" 5; Sample.bottles (Sample.generate 0) 2] = kept ++ new
    ∧ Forall2 sameButQuantity [Sample.bottles "a" 3] kept
    ∧ Forall2 (λ it it' : Item, id it ≠ id Sample.water_bottle → it' = it)
              [Sample.bottles "a" 3] kept
    ∧ Forall (λ it : Item, data it = opt_data noOptions ∧ base it = Sample.water_bottle
                           ∧ 0 < quantity it ≤ maxStack Sample.water_bottle) new
    ∧ uid <$> new = Sample.generate <$> seq 0 (length new).
Proof.
  exact (add_appends_stacks_that_carry_the_call_data Sample.config Sample.catalogue
           Sample.generate 1 "water_bottle" 4 [Sample.bottles "a" 3]
           [Sample.bottles "a" 5; Sample.bottles (Sample.generate 0) 2]
           noOptions Sample.water_bottle eq_refl eq_refl).
Defined.

(** ** What a split leaves as it was *)

(** X26.  A successful [split] moves units from one stack to a new one
    and changes nothing else that is counted, whatever the amount (zero and
    negative amounts included): the collection is one stack longer and the
    cells occupied grow by the footprint of the stack that was split; for
    whole-number quantities whose magnitudes, with twice that of the amount,
    add up to no more than [Number.MAX_SAFE_INTEGER], the total quantity of
    every item type is what it was. *)
Theorem split_moves_units_between_two_stacks
    cfg cat gen u amountToSplit (items items' : list Item) options i (it : Item) :
  list_find (λ x : Item, uid x = u) items = Some (i, it) →
  split cfg cat gen u amountToSplit items options = Done items' →
  length items' = S (length items)
  ∧ (exactQuantities (2 * amountToSplit) items →
     ∀ j, totalQuantity j items' = totalQuantity j items)
  ∧ totalCellsOccupied items' = totalCellsOccupied items + width it * height it.
Proof.
  intros Hfind. pose proof (list_find_lookup _ _ _ _ Hfind) as [Hi _].
  unfold split, cloneItems. rewrite Hfind.
  destruct (getBaseItem cat (id it)); [|done].
  destruct (_ || _); [done|].
  destruct (@verifyStackAndWeight _ _ _ _ _ _); [|done]. intros [= <-].
  destruct (totals_set_quantity items i it (quantity it - amountToSplit) Hi) as [_ Hc].
  split_and!.
  - rewrite length_app, length_insert. cbn. lia.
  - intros _ j. rewrite totalQuantity_app, totalQuantity_cons.
    rewrite (totalQuantity_insert_any j items i it) by done. cbn.
    replace (totalQuantity j []) with 0 by reflexivity. case_bool_decide; lia.
  - rewrite totalCellsOccupied_app, Hc, totalCellsOccupied_cons. cbn.
    replace (totalCellsOccupied (@nil Item)) with 0 by reflexivity. lia.
Qed.

Lemma split_moves_units_between_two_stacks_witness :
  totalQuantity "water_bottle"
    [Sample.bottles "a" 2; Sample.bottles (Sample.generate 0) 1]
  = totalQuantity "water_bottle" [Sample.bottles "a" 3].
Proof.
  refine (proj1 (proj2
           (split_moves_units_between_two_stacks Sample.config Sample.catalogue
              Sample.generate "a" 1 [Sample.bottles "a" 3]
              [Sample.bottles "a" 2; Sample.bottles (Sample.generate 0) 1]
              noOptions 0%nat (Sample.bottles "a" 3) eq_refl eq_refl)) _ "water_bottle").
  unfold exactQuantities, MAX_SAFE_INTEGER. cbn. lia.
Defined.

(** ** Putting a stack in and taking it out again *)

(** X27.  Putting a stack in and taking it out again: after a successful
    [addSpecificItem] of a stack whose identifier the collection did not
    have, [removeAt] of that identifier returns the collection as it was
    before, together with the stack. *)
Theorem addSpecificItem_then_removeAt cfg (item : Item) (items items' : list Item)
    options :
  uid item ∉ uids items →
  addSpecificItem cfg item items options = Done items' →
  removeAt (uid item) items' = Done (items, [item]).
Proof.
  intros Hfresh. unfold addSpecificItem, cloneItems.
  destruct (@verifyStackAndWeight _ _ _ _ _ _); [|done]. intros [= <-].
  unfold removeAt, cloneItems.
  rewrite (list_find_uid_app_new (uid item) items item Hfresh eq_refl).
  by rewrite (delete_middle items [] item), app_nil_r.
Qed.

Lemma addSpecificItem_then_removeAt_witness :
  removeAt "b" [Sample.bottles "a" 3; Sample.bottles "b" 1]
  = Done ([Sample.bottles "a" 3], [Sample.bottles "b" 1]).
Proof.
  apply (addSpecificItem_then_removeAt Sample.config (Sample.bottles "b" 1)
           [Sample.bottles "a" 3] _ noOptions); [|reflexivity].
  apply (bool_decide_unpack _). vm_compute. exact I.
Defined.

Section ManagersCompared.
Import Manager.

(** X28.  The storage manager (of a document that decays) and the vehicle
    manager do the same on the same collection: the same return value and
    the same write-back and events, in order, for every call and every
    collection read, except where [managersPart] says they part
    ([removeQuantityFrom]; [invokeDecay] on an empty collection; and, with
    nothing to read, [has] of a quantity of zero or below, [stack] and
    [split]). *)
Theorem the_managers_do_the_same_elsewhere cfg cat gen fuel (c : Call)
    (stored : option (list Item)) :
  ¬ managersPart c stored →
  StorageItemManager.run cfg cat gen fuel false c stored
  = VehicleItemManager.run cfg cat gen fuel c stored.
Proof.
  intros Hsame.
  destruct c as [i q ao|item ao|i q|u q|u1 u2|u a so|u p| |i q];
    cbn [StorageItemManager.run VehicleItemManager.run managersPart] in *.
  - unfold StorageItemManager.add, VehicleItemManager.add.
    by destruct stored.
  - unfold StorageItemManager.addSpecificItem, VehicleItemManager.addSpecificItem.
    by destruct stored.
  - unfold StorageItemManager.remove, VehicleItemManager.remove.
    by destruct stored.
  - done.
  - rewrite storage_stack_outcome, vehicle_stack_outcome.
    destruct stored; [done|]. by destruct Hsame.
  - rewrite storage_split_outcome, vehicle_split_outcome.
    destruct stored; [done|]. by destruct Hsame.
  - unfold StorageItemManager.update, VehicleItemManager.update.
    by destruct stored.
  - unfold StorageItemManager.invokeDecay, VehicleItemManager.invokeDecay.
    destruct stored as [[|it items]|]; [by destruct Hsame|done|done].
  - unfold StorageItemManager.has, VehicleItemManager.has.
    destruct stored as [items|]; [done|]. cbn. unfold has. cbn.
    by rewrite bool_decide_eq_false_2.
Qed.

Lemma the_managers_do_the_same_elsewhere_witness :
  StorageItemManager.run Sample.config Sample.catalogue Sample.generate 0 false
    (Update "a" noPatch) (Some [Sample.bottles "a" 3])
  = VehicleItemManager.run Sample.config Sample.catalogue Sample.generate 0
      (Update "a" noPatch) (Some [Sample.bottles "a" 3]).
Proof.
  apply (the_managers_do_the_same_elsewhere Sample.config Sample.catalogue
           Sample.generate 0 (Update "a" noPatch) (Some [Sample.bottles "a" 3])).
  intros [].
Defined.

End ManagersCompared.
